(** * recordfile: a shallow embedding of [recordfile.go]

    The package decodes a delimited text file into records of a struct
    type discovered by reflection and builds one lookup index per field
    tagged [index].  This file embeds [New], [ReadData], [Read],
    [Record], [NumRecord], [Indexes] and [Index], together with the parts
    of the Go library they call, and proves the properties of the
    specification against that embedding. *)

From Stdlib Require Import ZArith List String Ascii Bool Lia.
From stdpp Require Import base list.

Local Open Scope string_scope.
Local Open Scope list_scope.

(* ===================================================================== *)
(** ** Outcomes of a call *)
(* ===================================================================== *)

(** [reflect.Kind], in the order of the Go declaration. *)
Inductive Kind : Type :=
  | Invalid | Bool
  | Int | Int8 | Int16 | Int32 | Int64
  | Uint | Uint8 | Uint16 | Uint32 | Uint64 | Uintptr
  | Float32 | Float64 | Complex64 | Complex128
  | Array | Chan | Func | Interface | Map | Pointer | Slice
  | String_ | Struct | UnsafePointer.

Definition Kind_eqb (a b : Kind) : bool :=
  match a, b with
  | Invalid, Invalid | Bool, Bool
  | Int, Int | Int8, Int8 | Int16, Int16 | Int32, Int32 | Int64, Int64
  | Uint, Uint | Uint8, Uint8 | Uint16, Uint16 | Uint32, Uint32
  | Uint64, Uint64 | Uintptr, Uintptr
  | Float32, Float32 | Float64, Float64
  | Complex64, Complex64 | Complex128, Complex128
  | Array, Array | Chan, Chan | Func, Func | Interface, Interface
  | Map, Map | Pointer, Pointer | Slice, Slice
  | String_, String_ | Struct, Struct
  | UnsafePointer, UnsafePointer => true
  | _, _ => false
  end.

(** The errors of [strconv] ([NumError.Err]) and of [strconv.ParseBool]. *)
Inductive NumError : Type := ErrSyntax | ErrRange | ErrBitSize.

(** What can go wrong while one token is coerced (the [err] of lines
    177-232): a [strconv] error or the error of [json.Unmarshal]. *)
Inductive FieldError : Type :=
  | NumErr (e : NumError)
  | JsonErr (msg : string).

(** The error values the package returns, one constructor per
    [errors.New] / [fmt.Errorf] call site, carrying the arguments that
    are formatted into the message. *)
Inductive error : Type :=
  | ErrNotStruct                                       (* line 33 *)
  | ErrInvalidType (name : string) (k : Kind)          (* line 60 *)
  | ErrCouldNotIndex (k : Kind) (i : nat) (name : string) (* line 68 *)
  | ErrIO (msg : string)                               (* lines 83, 89 *)
  | ErrFieldCount (n got want : nat)                   (* line 161 *)
  | ErrParseField (row col : nat) (e : FieldError)     (* line 235 *)
  | ErrDuplicateIndex (row col : nat).                 (* line 244 *)

(** Run-time panics of the Go runtime that the code can reach. *)
Inductive panic : Type :=
  | MakeSliceLenOutOfRange       (* make([]T, n) with n < 0 *)
  | IndexOutOfRange (i : Z) (len : nat)   (* s[i] outside 0 <= i < len *)
  | UnhashableKey.               (* map access with an unhashable key *)

(** A call returns normally with a value, returns an [error], or panics. *)
Inductive result (A : Type) : Type :=
  | Ok (a : A)
  | Err (e : error)
  | Panic (p : panic).
Arguments Ok {A} a.
Arguments Err {A} e.
Arguments Panic {A} p.

(** The spec's error taxonomy, read off the constructor. *)
Inductive ErrorClass : Type :=
  | SchemaError | IOError | FormatError | CoercionError | DuplicateIndexError.

Definition classify (e : error) : ErrorClass :=
  match e with
  | ErrNotStruct | ErrInvalidType _ _ | ErrCouldNotIndex _ _ _ => SchemaError
  | ErrIO _ => IOError
  | ErrFieldCount _ _ _ => FormatError
  | ErrParseField _ _ _ => CoercionError
  | ErrDuplicateIndex _ _ => DuplicateIndexError
  end.

(* ===================================================================== *)
(** ** The record shape seen through [reflect] *)
(* ===================================================================== *)

(** [reflect.StructField], reduced to what the package reads: the name,
    the package path (empty exactly for exported fields), the kind of the
    field's type and the tag. *)
Record StructField : Type := mkField {
  Name : string;
  PkgPath : string;
  FieldKind : Kind;
  Tag : string
}.

(** [reflect.Type]: its kind and, for a struct, its fields. *)
Record RType : Type := mkType {
  TypeKind : Kind;
  Fields : list StructField
}.

Definition NumField (t : RType) : nat := List.length (Fields t).

(** [f.Tag == "index"]. *)
Definition isIndexTag (f : StructField) : bool := String.eqb (Tag f) "index".

(** The first switch of [New] (lines 40-62): the kinds a field may have. *)
Definition validKind (k : Kind) : bool :=
  match k with
  | Bool | Int | Int8 | Int16 | Int32 | Int64
  | Uint | Uint8 | Uint16 | Uint32 | Uint64
  | Float32 | Float64 | String_
  | Struct | Array | Slice | Map => true
  | _ => false
  end.

(** The second switch of [New] (lines 66-70): the kinds that cannot carry
    the index tag. *)
Definition notIndexable (k : Kind) : bool :=
  match k with
  | Struct | Slice | Map => true
  | _ => false
  end.

(** The loop of [New] over the fields, from position [i] on. *)
Fixpoint checkFields (i : nat) (fs : list StructField) : option error :=
  match fs with
  | [] => None
  | f :: rest =>
      let kind := FieldKind f in
      if negb (validKind kind) then Some (ErrInvalidType (Name f) kind)
      else if isIndexTag f && notIndexable kind
           then Some (ErrCouldNotIndex kind i (Name f))
           else checkFields (S i) rest
  end.

(* ===================================================================== *)
(** ** What is taken from the Go library as it is *)
(* ===================================================================== *)

(** What the package takes from the Go library without this development
    looking inside: floating-point numbers with [strconv.ParseFloat] and
    [==]; the values of composite types with [json.Unmarshal], their
    zero value, whether they can be hashed and [==]; and what
    [strings.Split] returns for an empty separator, the UTF-8 sequences
    of the string one by one.  [Unmarshal] decodes into an existing
    value and may have changed it when it reports an error. *)
Class GoLib : Type := {
  Float : Type;
  FloatZero : Float;
  ParseFloat : string -> nat -> Float + NumError;
  FloatEq : Float -> Float -> bool;
  Composite : Type;
  CompositeZero : StructField -> Composite;
  Unmarshal : string -> Composite -> Composite * option string;
  Hashable : Composite -> bool;
  CompositeEq : Composite -> Composite -> bool;
  Explode : string -> list string
}.

(* ===================================================================== *)
(** ** The Go library functions the package calls *)
(* ===================================================================== *)

(** A Go string is a sequence of bytes: [string], whose characters are
    the 256 values of [ascii]. *)

Module strings.

(** [strings.HasPrefix(s, prefix)]. *)
Definition HasPrefix (s pre : string) : bool := String.prefix pre s.

Fixpoint rev (s : string) : string :=
  match s with
  | EmptyString => EmptyString
  | String c r => rev r ++ String c EmptyString
  end.

(** [strings.HasSuffix(s, suffix)]. *)
Definition HasSuffix (s suf : string) : bool := String.prefix (rev suf) (rev s).

(** [s[:len(s)-1]]. *)
Definition dropLast (s : string) : string :=
  String.substring 0 (String.length s - 1) s.

(** [strings.Split(s, sep)] for a separator that is not empty: the
    pieces between the successive leftmost occurrences of [sep].  [cur]
    is the piece read so far, and [skip] counts the bytes of an
    occurrence of [sep] that are still to be passed over. *)
Fixpoint splitFrom (sep : string) (skip : nat) (cur : string) (s : string)
  : list string :=
  match s with
  | EmptyString => [cur]
  | String c r =>
      match skip with
      | S k => splitFrom sep k cur r
      | O =>
          if String.prefix sep s
          then cur :: splitFrom sep (String.length sep - 1) EmptyString r
          else splitFrom sep O (cur ++ String c EmptyString) r
      end
  end.

(** [strings.Split(s, sep)].  With an empty separator Go cuts the
    string after each UTF-8 sequence, which is the library's [Explode];
    [Read] passes an empty separator when the store and the package
    both leave the line terminator or the field delimiter empty. *)
Definition Split {L : GoLib} (s sep : string) : list string :=
  match sep with
  | EmptyString => Explode s
  | _ => splitFrom sep O EmptyString s
  end.

(** The UTF-8 encodings of the code points for which [unicode.IsSpace]
    holds: tab, line feed, vertical tab, form feed, carriage return,
    space, U+0085, U+00A0, U+1680, U+2000 to U+200A, U+2028, U+2029,
    U+202F, U+205F and U+3000. *)
Definition b (n : nat) : ascii := ascii_of_nat n.
Definition bytes (l : list nat) : string := string_of_list_ascii (List.map b l).

Definition spaceRunes : list string :=
  List.map bytes
    [ [9]; [10]; [11]; [12]; [13]; [32];
      [194; 133]; [194; 160];
      [225; 154; 128];
      [226; 128; 128]; [226; 128; 129]; [226; 128; 130]; [226; 128; 131];
      [226; 128; 132]; [226; 128; 133]; [226; 128; 134]; [226; 128; 135];
      [226; 128; 136]; [226; 128; 137]; [226; 128; 138];
      [226; 128; 168]; [226; 128; 169]; [226; 128; 175];
      [226; 129; 159];
      [227; 128; 128] ].

(** The rest of [s] after the first of [ps] that is a prefix of it. *)
Fixpoint stripAny (ps : list string) (s : string) : option string :=
  match ps with
  | [] => None
  | p :: rest =>
      if String.prefix p s
      then Some (String.substring (String.length p)
                   (String.length s - String.length p) s)
      else stripAny rest s
  end.

(** Strip leading occurrences of [ps], at most [fuel] of them. *)
Fixpoint trimLeftBy (ps : list string) (fuel : nat) (s : string) : string :=
  match fuel with
  | O => s
  | S k =>
      match stripAny ps s with
      | Some s' => trimLeftBy ps k s'
      | None => s
      end
  end.

(** [strings.TrimSpace(s)]: the leading and the trailing white space
    removed.  A string has no more space runes than bytes, so its length
    is fuel enough. *)
Definition TrimSpace (s : string) : string :=
  let l := trimLeftBy spaceRunes (String.length s) s in
  rev (trimLeftBy (List.map rev spaceRunes) (String.length l) (rev l)).

End strings.

Module strconv.
Local Open Scope Z_scope.

(** [strconv.IntSize], and the [Bits()] of [int] and [uint], on a 64-bit
    platform. *)
Definition IntSize : nat := 64.

(** [strconv.ParseBool]. *)
Definition ParseBool (str : string) : bool + NumError :=
  if List.existsb (String.eqb str)
       ["1"; "t"; "T"; "TRUE"; "true"; "True"]%string
  then inl true
  else if List.existsb (String.eqb str)
            ["0"; "f"; "F"; "FALSE"; "false"; "False"]%string
  then inl false
  else inr ErrSyntax.

(** [lower(c)]: [c | ('x' - 'X')]. *)
Definition lower (c : Z) : Z := Z.lor c 32.

Definition byteOf (c : ascii) : Z := Z.of_nat (nat_of_ascii c).

Definition maxUint64 : Z := 2 ^ 64 - 1.

(** The three-way result of the digit switch in [ParseUint]. *)
Inductive digit : Type := Underscore | Digit (d : Z) | NotDigit.

Definition digitOf (base0 : bool) (c : Z) : digit :=
  if (c =? 95) && base0 then Underscore
  else if (48 <=? c) && (c <=? 57) then Digit (c - 48)
  else if (97 <=? lower c) && (lower c <=? 122) then Digit (lower c - 97 + 10)
  else NotDigit.

(** The digit loop of [ParseUint]: [n] is the value so far, a [uint64];
    the result also tells whether an underscore was seen. *)
Fixpoint parseDigits (base0 : bool) (base cutoff maxVal : Z)
    (s : string) (n : Z) (underscores : bool) : (Z * bool) + NumError :=
  match s with
  | EmptyString => inl (n, underscores)
  | String ch r =>
      match digitOf base0 (byteOf ch) with
      | Underscore => parseDigits base0 base cutoff maxVal r n true
      | NotDigit => inr ErrSyntax
      | Digit d =>
          if base <=? d then inr ErrSyntax
          else if cutoff <=? n then inr ErrRange
          else
            let n := (n * base) mod 2 ^ 64 in
            let n1 := (n + d) mod 2 ^ 64 in
            if (n1 <? n) || (maxVal <? n1) then inr ErrRange
            else parseDigits base0 base cutoff maxVal r n1 underscores
      end
  end.

(** [underscoreOK]: underscores only between digits or between the base
    prefix and a digit.  [saw] is the last byte class seen: ['^'] the
    start, ['0'] a digit, ['_'] an underscore, ['!'] anything else. *)
Inductive Saw : Type := SawStart | SawDigit | SawUnderscore | SawOther.

Fixpoint underscoreLoop (hex : bool) (saw : Saw) (s : string) : bool :=
  match s with
  | EmptyString => match saw with SawUnderscore => false | _ => true end
  | String ch r =>
      let c := byteOf ch in
      if ((48 <=? c) && (c <=? 57))
         || (hex && (97 <=? lower c) && (lower c <=? 102))
      then underscoreLoop hex SawDigit r
      else if c =? 95
      then match saw with
           | SawDigit => underscoreLoop hex SawUnderscore r
           | _ => false
           end
      else match saw with
           | SawUnderscore => false
           | _ => underscoreLoop hex SawOther r
           end
  end.

Definition isSign (c : ascii) : bool :=
  (byteOf c =? 43) || (byteOf c =? 45).

Definition underscoreOK (s : string) : bool :=
  let s := match s with
           | String c r => if isSign c then r else s
           | EmptyString => s
           end in
  match s with
  | String c0 (String c1 r) =>
      if (byteOf c0 =? 48)
         && ((lower (byteOf c1) =? 98) || (lower (byteOf c1) =? 111)
             || (lower (byteOf c1) =? 120))
      then underscoreLoop (lower (byteOf c1) =? 120) SawDigit r
      else underscoreLoop false SawStart s
  | _ => underscoreLoop false SawStart s
  end.

(** The base and the digits of [s] for [base == 0]: the prefixes [0b],
    [0o] and [0x] need at least one more byte, any other leading [0]
    means octal. *)
Definition basePrefix (s : string) : Z * string :=
  match s with
  | String c0 r =>
      if byteOf c0 =? 48 then
        match r with
        | String c1 (String c2 r2) =>
            if lower (byteOf c1) =? 98 then (2, String c2 r2)
            else if lower (byteOf c1) =? 111 then (8, String c2 r2)
            else if lower (byteOf c1) =? 120 then (16, String c2 r2)
            else (8, r)
        | _ => (8, r)
        end
      else (10, s)
  | EmptyString => (10, s)
  end.

(** [strconv.ParseUint(s, 0, bitSize)] with [s0] the string of the
    caller, which [underscoreOK] inspects.  On [ErrRange] Go also returns
    the largest value; the package looks at the error only. *)
Definition parseUint0 (s0 s : string) (bitSize : nat) : Z + NumError :=
  match s with
  | EmptyString => inr ErrSyntax
  | _ =>
      let '(base, digits) := basePrefix s in
      let bitSize := if Nat.eqb bitSize 0 then IntSize else bitSize in
      if Nat.ltb 64 bitSize then inr ErrBitSize
      else
        let cutoff := maxUint64 / base + 1 in
        let maxVal := 2 ^ Z.of_nat bitSize - 1 in
        match parseDigits true base cutoff maxVal digits 0 false with
        | inr e => inr e
        | inl (n, underscores) =>
            if underscores && negb (underscoreOK s0) then inr ErrSyntax
            else inl n
        end
  end.

Definition ParseUint (s : string) (bitSize : nat) : Z + NumError :=
  parseUint0 s s bitSize.

(** [strconv.ParseInt(s, 0, bitSize)].  A range error of [ParseUint]
    falls through to the range checks, which then see the largest
    unsigned value and report [ErrRange] as well. *)
Definition ParseInt (s : string) (bitSize : nat) : Z + NumError :=
  match s with
  | EmptyString => inr ErrSyntax
  | String c r =>
      let neg := byteOf c =? 45 in
      let s' := if isSign c then r else s in
      match parseUint0 s s' bitSize with
      | inr e => inr e
      | inl un =>
          let bitSize := if Nat.eqb bitSize 0 then IntSize else bitSize in
          let cutoff := 2 ^ (Z.of_nat bitSize - 1) in
          if negb neg && (cutoff <=? un) then inr ErrRange
          else if neg && (cutoff <? un) then inr ErrRange
          else inl (if neg then - un else un)
      end
  end.

End strconv.

(* ===================================================================== *)
(** ** Values, records and the store *)
(* ===================================================================== *)

Section Values.
Context {L : GoLib}.

(** The value held by one field of a record. *)
Inductive Value : Type :=
  | VBool (b : bool)
  | VInt (z : Z)
  | VUint (z : Z)
  | VFloat (x : Float)
  | VString (s : string)
  | VComposite (c : Composite).

End Values.

(** A record is allocated by [reflect.New]; a reference to it is its
    address, the position of the record in the heap. *)
Abbreviation Ptr := nat (only parsing).
Abbreviation RecordVal := (list Value) (only parsing).
Abbreviation Heap := (list (list Value)) (only parsing).

(** An [interface{}] that holds a record: [None] is the nil interface. *)
Abbreviation Iface := (option nat) (only parsing).

(** [type Index map[interface{}]interface{}]: the entries in the order
    in which their keys were first assigned. *)
Abbreviation Index := (list (Value * option nat)) (only parsing).

Section Store.
Context {L : GoLib}.

(** The package-level variables [Comma], [Comment] and [LineEndStr]
    (lines 15-17), which a client may reassign. *)
Record Package : Type := mkPackage {
  pkgComma : string;
  pkgComment : string;
  pkgLineEndStr : string
}.

Definition newline : string := String (ascii_of_nat 10) EmptyString.

Definition initialPackage : Package :=
  mkPackage "~" "#" ("!####!" ++ newline).

(** The store (lines 21-28).  [typeRecord] is the type [New] checked
    and bound the store to, and no other code of the package assigns
    it: the values of this record are the stores [New] returns and what
    [Read] and a client's assignments to the three exported fields make
    of them.  A [RecordFile] that did not come from [New] has a nil
    [typeRecord] and is no value of this record; [Read] on it panics at
    [typeRecord.NumField()] (line 147) as soon as the file has a row. *)
Record RecordFile : Type := mkRecordFile {
  Comma : string;
  Comment : string;
  LineEndStr : string;
  typeRecord : RType;
  records : list Iface;
  indexes : list Index
}.

(** [New] (lines 30-78); the argument is [reflect.TypeOf(st)], [None]
    for a nil interface. *)
Definition New (st : option RType) : result RecordFile :=
  match st with
  | None => Err ErrNotStruct
  | Some typeRecord =>
      if negb (Kind_eqb (TypeKind typeRecord) Struct) then Err ErrNotStruct
      else match checkFields 0 (Fields typeRecord) with
           | Some e => Err e
           | None => Ok (mkRecordFile "" "" "" typeRecord [] [])
           end
  end.


(** *** Memory and maps *)

(** [f.Type.Bits()] for the numeric kinds. *)
Definition Bits (k : Kind) : nat :=
  match k with
  | Int | Uint => strconv.IntSize
  | Int8 | Uint8 => 8
  | Int16 | Uint16 => 16
  | Int32 | Float32 | Uint32 => 32
  | Int64 | Float64 | Uint64 => 64
  | _ => 0
  end.

Definition isInt (k : Kind) : bool :=
  match k with Int | Int8 | Int16 | Int32 | Int64 => true | _ => false end.

Definition isUint (k : Kind) : bool :=
  match k with Uint | Uint8 | Uint16 | Uint32 | Uint64 => true | _ => false end.

Definition isFloat (k : Kind) : bool :=
  match k with Float32 | Float64 => true | _ => false end.

Definition isComposite (k : Kind) : bool :=
  match k with Struct | Array | Slice | Map => true | _ => false end.

(** The zero value [reflect.New] gives a field. *)
Definition zeroValue (f : StructField) : Value :=
  let k := FieldKind f in
  if Kind_eqb k Bool then VBool false
  else if isInt k then VInt 0
  else if isUint k then VUint 0
  else if isFloat k then VFloat FloatZero
  else if Kind_eqb k String_ then VString ""
  else VComposite (CompositeZero f).

(** [reflect.New(typeRecord)]: a zeroed record at a fresh address. *)
Definition alloc (t : RType) (h : Heap) : Heap * Ptr :=
  (h ++ [List.map zeroValue (Fields t)], List.length h).

(** Field [i] of the record at [p]; [f] describes the field. *)
Definition loadField (h : Heap) (p : Ptr) (i : nat) (f : StructField) : Value :=
  default (zeroValue f) (h !! p ≫= (.!! i)).

Definition storeField (h : Heap) (p : Ptr) (i : nat) (v : Value) : Heap :=
  alter (fun r : RecordVal => <[i := v]> r) p h.

(** [field.CanSet()] for a field of an addressable struct: the field is
    exported. *)
Definition CanSet (f : StructField) : bool := String.eqb (PkgPath f) "".

(** [==] on two interface values that hold the same dynamic type. *)
Definition keyEq (a c : Value) : bool :=
  match a, c with
  | VBool x, VBool y => Bool.eqb x y
  | VInt x, VInt y => Z.eqb x y
  | VUint x, VUint y => Z.eqb x y
  | VFloat x, VFloat y => FloatEq x y
  | VString x, VString y => String.eqb x y
  | VComposite x, VComposite y => CompositeEq x y
  | _, _ => false
  end.

Definition hashable (k : Value) : bool :=
  match k with
  | VComposite c => Hashable c
  | _ => true
  end.

(** The entry of key [k], if the map has one. *)
Fixpoint lookupKey (m : Index) (k : Value) : option Iface :=
  match m with
  | [] => None
  | (k0, v) :: rest => if keyEq k0 k then Some v else lookupKey rest k
  end.

(** [m[k] = v]. *)
Fixpoint mapassign (m : Index) (k : Value) (v : Iface) : Index :=
  match m with
  | [] => [(k, v)]
  | (k0, v0) :: rest =>
      if keyEq k0 k then (k0, v) :: rest else (k0, v0) :: mapassign rest k v
  end.

(** [SetInt] and [SetUint] store the value converted to the field's
    width. *)
Definition wrapSigned (bits : nat) (v : Z) : Z :=
  let w := Z.of_nat bits in
  ((v + 2 ^ (w - 1)) mod 2 ^ w - 2 ^ (w - 1))%Z.

Definition wrapUnsigned (bits : nat) (v : Z) : Z :=
  (v mod 2 ^ Z.of_nat bits)%Z.

(** *** The tokenizer: [ReadData] (lines 80-120) *)

(** What [os.Open] and [ioutil.ReadAll] give for a file name: the
    content, or the error of one of them. *)
Definition Disk : Type := string -> string + string.

(** The loop over the chunks (lines 95-118).  [err] is nil there, so the
    two tests on it never fire. *)
Fixpoint readLines (comma comment : string) (lines : list string)
  : list (list string) :=
  match lines with
  | [] => []
  | line :: rest =>
      if String.eqb line "" then readLines comma comment rest
      else
        let line := if strings.HasSuffix line newline
                    then strings.dropLast line else line in
        if strings.HasPrefix line comment then readLines comma comment rest
        else strings.Split line comma :: readLines comma comment rest
  end.

Definition tokenize (rf : RecordFile) (fileContent : string)
  : list (list string) :=
  readLines (Comma rf) (Comment rf)
    (strings.Split fileContent (LineEndStr rf)).

Definition ReadData (rf : RecordFile) (disk : Disk) (fileName : string)
  : result (list (list string)) :=
  match disk fileName with
  | inr msg => Err (ErrIO msg)
  | inl fileContent => Ok (tokenize rf fileContent)
  end.

(** *** The field coercer (lines 177-232) *)

(** Lines 192-194, 206-208 and 217-219: a blank token of a numeric field
    is read as ["0"]. *)
Definition blankToZero (strField : string) : string :=
  if String.eqb (strings.TrimSpace strField) "" then "0" else strField.

(** The kind dispatch on one token: the value of the field afterwards
    and the error, if any.  [cur] is the value the field holds. *)
Definition setField (f : StructField) (strField : string) (cur : Value)
  : Value * option FieldError :=
  let kind := FieldKind f in
  if Kind_eqb kind Bool then
    match strconv.ParseBool strField with
    | inl v => (VBool v, None)
    | inr e => (cur, Some (NumErr e))
    end
  else if isInt kind then
    match strconv.ParseInt (blankToZero strField) (Bits kind) with
    | inl v => (VInt (wrapSigned (Bits kind) v), None)
    | inr e => (cur, Some (NumErr e))
    end
  else if isUint kind then
    match strconv.ParseUint (blankToZero strField) (Bits kind) with
    | inl v => (VUint (wrapUnsigned (Bits kind) v), None)
    | inr e => (cur, Some (NumErr e))
    end
  else if isFloat kind then
    match ParseFloat (blankToZero strField) (Bits kind) with
    | inl v => (VFloat v, None)
    | inr e => (cur, Some (NumErr e))
    end
  else if Kind_eqb kind String_ then (VString strField, None)
  else if isComposite kind then
    match cur with
    | VComposite c =>
        let '(c', e) := Unmarshal strField c in
        (VComposite c', option_map JsonErr e)
    | _ => (cur, None)
    end
  else (cur, None).

(** *** The load: [Read] (lines 122-256) *)

(** Lines 146-152: one empty map per field tagged [index]. *)
Fixpoint makeIndexes (fs : list StructField) : list Index :=
  match fs with
  | [] => []
  | f :: rest =>
      if isIndexTag f then [] :: makeIndexes rest else makeIndexes rest
  end.

(** The loop over the fields of one row (lines 167-249), from field [i]
    on: [fs] are the fields still to do, [p] is the record of the row,
    [rec] is [records[n-1]]. *)
Fixpoint fieldLoop (n : nat) (p : Ptr) (rec : Iface) (line : list string)
    (fs : list StructField) (i iIndex : nat) (h : Heap) (idx : list Index)
  : Heap * result (list Index) :=
  match fs with
  | [] => (h, Ok idx)
  | f :: fs' =>
      match line !! i with
      | None => (h, Panic (IndexOutOfRange (Z.of_nat i) (List.length line)))
      | Some strField =>
          if negb (CanSet f)
          then fieldLoop n p rec line fs' (S i) iIndex h idx
          else
            let '(v, err) := setField f strField (loadField h p i f) in
            let h := storeField h p i v in
            match err with
            | Some e => (h, Err (ErrParseField n i e))
            | None =>
                if isIndexTag f then
                  match idx !! iIndex with
                  | None =>
                      (h, Panic (IndexOutOfRange (Z.of_nat iIndex)
                                   (List.length idx)))
                  | Some index =>
                      let key := loadField h p i f in
                      if negb (hashable key) then (h, Panic UnhashableKey)
                      else
                        match lookupKey index key with
                        | Some _ => (h, Err (ErrDuplicateIndex n i))
                        | None =>
                            fieldLoop n p rec line fs' (S i) (S iIndex) h
                              (<[iIndex := mapassign index key rec]> idx)
                        end
                  end
                else fieldLoop n p rec line fs' (S i) iIndex h idx
            end
      end
  end.

(** The loop over the data rows (lines 154-250): [rest] are the rows
    [lines[n:]]. *)
Fixpoint rowLoop (t : RType) (n : nat) (rest : list (list string))
    (h : Heap) (recs : list Iface) (idx : list Index)
  : Heap * result (list Iface * list Index) :=
  match rest with
  | [] => (h, Ok (recs, idx))
  | line :: rest' =>
      let '(h, p) := alloc t h in
      if negb (Nat.ltb (n - 1) (List.length recs))
      then (h, Panic (IndexOutOfRange (Z.of_nat n - 1) (List.length recs)))
      else
        let recs := <[n - 1 := Some p]> recs in
        if negb (Nat.eqb (List.length line) (NumField t))
        then (h, Err (ErrFieldCount n (List.length line) (NumField t)))
        else
          match fieldLoop n p (mjoin (recs !! (n - 1))) line
                  (Fields t) 0 0 h idx with
          | (h, Ok idx) => rowLoop t (S n) rest' h recs idx
          | (h, Err e) => (h, Err e)
          | (h, Panic q) => (h, Panic q)
          end
  end.

(** Lines 123-132: unset configuration takes the package's values. *)
Definition withDefaults (g : Package) (rf : RecordFile) : RecordFile :=
  mkRecordFile
    (if String.eqb (Comma rf) "" then pkgComma g else Comma rf)
    (if String.eqb (Comment rf) "" then pkgComment g else Comment rf)
    (if String.eqb (LineEndStr rf) "" then pkgLineEndStr g else LineEndStr rf)
    (typeRecord rf) (records rf) (indexes rf).

(** Lines 140-255, from the rows of the file on. *)
Definition load (rf : RecordFile) (lines : list (list string)) (h : Heap)
  : Heap * RecordFile * result unit :=
  let t := typeRecord rf in
  let len := (Z.of_nat (List.length lines) - 1)%Z in
  if (len <? 0)%Z then (h, rf, Panic MakeSliceLenOutOfRange)
  else
    let recs : list Iface := replicate (Z.to_nat len) None in
    let idx := makeIndexes (Fields t) in
    match rowLoop t 1 (List.tl lines) h recs idx with
    | (h, Ok (recs, idx)) =>
        (h, mkRecordFile (Comma rf) (Comment rf) (LineEndStr rf) t recs idx,
         Ok tt)
    | (h, Err e) => (h, rf, Err e)
    | (h, Panic q) => (h, rf, Panic q)
    end.

(** [Read]: the heap and the receiver after the call, and its outcome. *)
Definition Read (g : Package) (disk : Disk) (name : string)
    (h : Heap) (rf : RecordFile) : Heap * RecordFile * result unit :=
  let rf := withDefaults g rf in
  match ReadData rf disk name with
  | Err e => (h, rf, Err e)
  | Panic q => (h, rf, Panic q)
  | Ok lines => load rf lines h
  end.

(** *** The accessors (lines 258-279) *)

Definition Record_ (rf : RecordFile) (i : Z) : result Iface :=
  if ((0 <=? i) && (i <? Z.of_nat (List.length (records rf))))%Z
  then Ok (mjoin (records rf !! Z.to_nat i))
  else Panic (IndexOutOfRange i (List.length (records rf))).

Definition NumRecord (rf : RecordFile) : nat := List.length (records rf).

(** [None] is the nil map. *)
Definition Indexes (rf : RecordFile) (i : Z) : result (option Index) :=
  if (Z.of_nat (List.length (indexes rf)) <=? i)%Z then Ok None
  else if (i <? 0)%Z
  then Panic (IndexOutOfRange i (List.length (indexes rf)))
  else Ok (indexes rf !! Z.to_nat i).

(** [index[i]] on a map that may be nil: the nil interface when the key
    is absent. *)
Definition mapaccess (m : option Index) (k : Value) : result Iface :=
  if negb (hashable k) then Panic UnhashableKey
  else Ok (mjoin (lookupKey (default [] m) k)).

Definition Index_ (rf : RecordFile) (i : Value) : result Iface :=
  match Indexes rf 0 with
  | Ok None => Ok None
  | Ok (Some index) => mapaccess (Some index) i
  | Err e => Err e
  | Panic q => Panic q
  end.

End Store.

(* ===================================================================== *)
(** ** A small library instance and the example of the specification *)
(* ===================================================================== *)

(** The bytes of a string one by one: the UTF-8 sequences of a string
    of ASCII characters. *)
Fixpoint explodeBytes (s : string) : list string :=
  match s with
  | EmptyString => []
  | String c r => String c EmptyString :: explodeBytes r
  end.

(** An instance for running examples: the floats are the whole numbers,
    of which only the literal ["0"] can be read, a composite value is
    kept as the text it was decoded from, and the content is ASCII. *)
Definition exampleLib : GoLib := {|
  Float := Z;
  FloatZero := 0%Z;
  ParseFloat := fun s _ =>
    if String.eqb s "0" then inl 0%Z else inr ErrSyntax;
  FloatEq := Z.eqb;
  Composite := string;
  CompositeZero := fun _ => "";
  Unmarshal := fun s _ => (s, None);
  Hashable := fun _ => true;
  CompositeEq := String.eqb;
  Explode := explodeBytes
|}.

(** [struct { Name string; Age int "index" }]. *)
Definition personType : RType :=
  mkType Struct [mkField "Name" "" String_ ""; mkField "Age" "" Int "index"].

Definition nl : string := newline.
Definition eol : string := "!####!" ++ nl.

(** A disk with one file, whatever its name. *)
Definition oneFile (content : string) : Disk := fun _ => inl content.

Definition personFile : string :=
  "#ignored comment" ++ eol ++ "Name~Age" ++ eol
  ++ "alice~30" ++ eol ++ "bob~25" ++ eol.

Definition dupFile : string :=
  "Name~Age" ++ eol ++ "alice~30" ++ eol ++ "carol~30" ++ eol.

Definition shortFile : string :=
  "Name~Age" ++ eol ++ "alice~30" ++ eol ++ "dave" ++ eol.

Definition commentFile : string := "#only a comment" ++ eol.

(** [struct { id int "index" }], the field unexported. *)
Definition hiddenKeyType : RType :=
  mkType Struct [mkField "id" "main" Int "index"].

Definition hiddenKeyFile : string := "id" ++ eol ++ "5" ++ eol ++ "5" ++ eol.

(** [struct { n int8 }], the field unexported. *)
Definition hiddenNumType : RType :=
  mkType Struct [mkField "n" "main" Int8 ""].

Definition hiddenNumFile : string := "n" ++ eol ++ "abc" ++ eol.

(** [struct { id int "index"; Name string "index" }], [id] unexported. *)
Definition shiftedType : RType :=
  mkType Struct [mkField "id" "main" Int "index";
                 mkField "Name" "" String_ "index"].

Definition shiftedFile : string := "id~Name" ++ eol ++ "7~bob" ++ eol.

(** The store [New] returns for a record type it accepts. *)
Definition newStore (t : RType) : @RecordFile exampleLib :=
  mkRecordFile "" "" "" t [] [].

(** [Read] of a file into a store, from the package as initialised. *)
Definition readFile (content : string) (h : list (list (@Value exampleLib)))
    (rf : @RecordFile exampleLib) :=
  @Read exampleLib initialPackage (oneFile content) "data.txt" h rf.

(** The store after [New] and one [Read] of the file, on an empty heap. *)
Definition loaded (t : RType) (content : string) : @RecordFile exampleLib :=
  snd (fst (readFile content [] (newStore t))).

(** The heap after the person file was read. *)
Definition personHeap : list (list (@Value exampleLib)) :=
  fst (fst (readFile personFile [] (newStore personType))).

Definition ageField : StructField := mkField "Age" "" Int "index".

(* ===================================================================== *)
(** ** What a loaded store is compared with *)
(* ===================================================================== *)

Section Columns.
Context {L : GoLib}.
Local Open Scope nat_scope.

(** The entries the records [ps] contribute to the index of field [i]:
    for each record, in order, its value of the field and a reference
    to it. *)
Definition column (h : Heap) (ps : list Ptr) (i : nat) (f : StructField)
  : Index :=
  List.map (fun p => (loadField h p i f, Some p)) ps.

(** A field takes part in indexing when it can be set and carries the
    tag. *)
Definition indexed (f : StructField) : bool := CanSet f && isIndexTag f.

(** The columns of the indexed fields among [fs], the fields from
    position [i] on. *)
Fixpoint columnsFrom (h : Heap) (ps : list Ptr) (i : nat)
    (fs : list StructField) : list Index :=
  match fs with
  | [] => []
  | f :: rest =>
      if indexed f then column h ps i f :: columnsFrom h ps (S i) rest
      else columnsFrom h ps (S i) rest
  end.

(** The slot of the field at position [i]: the number of fields tagged
    [index] that are declared before it. *)
Definition slotOf (fs : list StructField) (i : nat) : nat :=
  List.length (List.filter isIndexTag (take i fs)).

(** Every key of the map can be hashed, and no key equals ([==]) a key
    assigned before it. *)
Definition wellKeyed (m : Index) : Prop :=
  (forall a k v, m !! a = Some (k, v) -> hashable k = true)
  /\ (forall a c ka va kc vc,
        a < c -> m !! a = Some (ka, va) -> m !! c = Some (kc, vc) ->
        keyEq ka kc = false).

(** Two outcomes of the row loop that differ at most in the record
    slice. *)
Definition sameOutcome
    (a c : Heap * result (list Iface * list Index)) : Prop :=
  match a, c with
  | (h1, Ok (_, i1)), (h2, Ok (_, i2)) => h1 = h2 /\ i1 = i2
  | (h1, Err e1), (h2, Err e2) => h1 = h2 /\ e1 = e2
  | (h1, Panic q1), (h2, Panic q2) => h1 = h2 /\ q1 = q2
  | _, _ => False
  end.

(** A chunk of the file that gives no row: empty, or a comment once its
    trailing newline is gone. *)
Definition dropped (comment chunk : string) : bool :=
  String.eqb chunk ""
  || strings.HasPrefix
       (if strings.HasSuffix chunk newline then strings.dropLast chunk
        else chunk) comment.

End Columns.

(* ===================================================================== *)
(** ** What the integer parsers are compared with *)
(* ===================================================================== *)

Module numeral.
Local Open Scope Z_scope.

(** The value of a byte as a digit: [0-9], then the letters from 10. *)
Definition digitVal (c : ascii) : Z :=
  match strconv.digitOf false (strconv.byteOf c) with
  | strconv.Digit d => d
  | _ => 0
  end.

Definition validDigit (base : Z) (c : ascii) : bool :=
  match strconv.digitOf false (strconv.byteOf c) with
  | strconv.Digit d => d <? base
  | _ => false
  end.

(** All bytes of [s] are digits of [base]. *)
Fixpoint validDigits (base : Z) (s : string) : bool :=
  match s with
  | EmptyString => true
  | String c r => validDigit base c && validDigits base r
  end.

(** The number the digits [s] write in [base], after the digits that
    gave [acc]. *)
Fixpoint digitsValue (base : Z) (s : string) (acc : Z) : Z :=
  match s with
  | EmptyString => acc
  | String c r => digitsValue base r (acc * base + digitVal c)
  end.

(** The magnitude [v] read at [bitSize] bits. *)
Definition unsignedAt (bitSize : nat) (v : Z) : Z + NumError :=
  if v <? 2 ^ Z.of_nat bitSize then inl v else inr ErrRange.

(** What [ParseInt] makes of the outcome of the unsigned parse and the
    sign. *)
Definition signedAt (bitSize : nat) (neg : bool) (r : Z + NumError)
  : Z + NumError :=
  match r with
  | inr e => inr e
  | inl un =>
      if neg then
        if un <=? 2 ^ (Z.of_nat bitSize - 1) then inl (- un) else inr ErrRange
      else
        if un <? 2 ^ (Z.of_nat bitSize - 1) then inl un else inr ErrRange
  end.

(** A byte that is no digit, letter, underscore or sign. *)
Definition foreign (c : ascii) : bool :=
  match strconv.digitOf true (strconv.byteOf c) with
  | strconv.NotDigit => negb (strconv.isSign c)
  | _ => false
  end.

(** A byte that is no digit of [base] and no underscore. *)
Definition badDigit (base : Z) (c : ascii) : bool :=
  negb (validDigit base c) && negb (strconv.byteOf c =? 95).

(** What [ParseInt] hands to the unsigned parser: the token after its
    sign, if it has one. *)
Definition magnitude (s : string) : string :=
  match s with
  | String c r => if strconv.isSign c then r else s
  | EmptyString => s
  end.

Fixpoint contains (c : ascii) (s : string) : bool :=
  match s with
  | EmptyString => false
  | String c0 r => Ascii.eqb c0 c || contains c r
  end.

(** The bytes ['0'], ['x'], ['b'], ['o'], ['-'] and ['+']. *)
Definition zeroChar : ascii := ascii_of_nat 48.
Definition xChar : ascii := ascii_of_nat 120.
Definition bChar : ascii := ascii_of_nat 98.
Definition oChar : ascii := ascii_of_nat 111.
Definition minusChar : ascii := ascii_of_nat 45.
Definition plusChar : ascii := ascii_of_nat 43.

(** The widths [Bits()] gives the integer kinds. *)
Definition width (bitSize : nat) : Prop :=
  bitSize = 8%nat \/ bitSize = 16%nat \/ bitSize = 32%nat \/ bitSize = 64%nat.

(** The six ASCII white-space bytes. *)
Definition asciiSpace (c : ascii) : bool :=
  let n := strconv.byteOf c in
  ((9 <=? n) && (n <=? 13)) || (n =? 32).

Fixpoint allSpace (s : string) : bool :=
  match s with
  | EmptyString => true
  | String c r => asciiSpace c && allSpace r
  end.

End numeral.

(* ===================================================================== *)
(** ** Further notions used in statements *)
(* ===================================================================== *)

(** The kinds whose values are booleans, numbers or strings. *)
Definition isPrimitive (k : Kind) : bool :=
  Kind_eqb k Bool || isInt k || isUint k || isFloat k || Kind_eqb k String_.

(** A field [New] lets pass: its kind is one of the kinds listed, and it
    does not carry the tag with a kind that cannot be indexed. *)
Definition fieldAccepted (f : StructField) : bool :=
  validKind (FieldKind f) && negb (isIndexTag f && notIndexable (FieldKind f)).

(** [strings.Join(elems, sep)]. *)
Fixpoint Join (elems : list string) (sep : string) : string :=
  match elems with
  | [] => ""
  | [x] => x
  | x :: rest => x ++ sep ++ Join rest sep
  end.

(** A chunk without the one trailing newline that [ReadData] strips. *)
Definition stripNewline (chunk : string) : string :=
  if strings.HasSuffix chunk newline then strings.dropLast chunk else chunk.

(** The row and, where there is one, the column an error of [Read]
    names. *)
Definition errorRow (e : error) : option nat :=
  match e with
  | ErrFieldCount n _ _ | ErrParseField n _ _ | ErrDuplicateIndex n _ => Some n
  | _ => None
  end.

Definition errorCol (e : error) : option nat :=
  match e with
  | ErrParseField _ i _ | ErrDuplicateIndex _ i => Some i
  | _ => None
  end.

(** The bytes that occur in the encodings of the white-space runes. *)
Definition spaceByte (c : ascii) : bool :=
  List.existsb (fun p => numeral.contains c p) strings.spaceRunes.

(** [s[k:]], for reasoning about [Split]. *)
Fixpoint sdrop (k : nat) (s : string) : string :=
  match k, s with
  | S k', String _ r => sdrop k' r
  | _, _ => s
  end.

(** All bytes of [s] are ASCII. *)
Fixpoint allAscii (s : string) : bool :=
  match s with
  | EmptyString => true
  | String c r => (strconv.byteOf c <? 128)%Z && allAscii r
  end.

(* ===================================================================== *)
(** ** Schema construction *)
(* ===================================================================== *)

Local Open Scope nat_scope.

Section Proofs.
Context {L : GoLib}.

Lemma checkFields_schema_error (fs : list StructField) (i : nat) (e : error) :
  checkFields i fs = Some e -> classify e = SchemaError.
Proof.
  revert i. induction fs as [|f fs IH]; intros i; simpl; [discriminate|].
  destruct (negb (validKind (FieldKind f))); [intros [= <-]; reflexivity|].
  destruct (isIndexTag f && notIndexable (FieldKind f));
    [intros [= <-]; reflexivity|].
  apply IH.
Qed.

Lemma checkFields_rejects (fs : list StructField) (i : nat) (f : StructField) :
  In f fs -> isIndexTag f = true -> notIndexable (FieldKind f) = true ->
  exists e, checkFields i fs = Some e.
Proof.
  revert i. induction fs as [|f0 fs IH]; intros i Hin Htag Hk; [destruct Hin|].
  simpl. destruct (negb (validKind (FieldKind f0))); [eauto|].
  destruct Hin as [->|Hin].
  - rewrite Htag, Hk. simpl. eauto.
  - destruct (isIndexTag f0 && notIndexable (FieldKind f0)); eauto.
Qed.

(** C7, as amended: a field tagged [index] whose kind is struct, slice or
    map makes [New] fail with a schema error, whatever the other fields
    are; no [RecordFile] is returned. *)
Theorem New_rejects_indexed_struct_slice_map
    (t : RType) (f : StructField) :
  In f (Fields t) ->
  isIndexTag f = true ->
  FieldKind f = Struct \/ FieldKind f = Slice \/ FieldKind f = Map ->
  exists e, New (Some t) = Err e /\ classify e = SchemaError.
Proof.
  intros Hin Htag Hk. unfold New.
  destruct (negb (Kind_eqb (TypeKind t) Struct)); [eexists; split; reflexivity|].
  destruct (checkFields_rejects (Fields t) 0 f Hin Htag) as [e He].
  { destruct Hk as [->|[->| ->]]; reflexivity. }
  rewrite He. exists e. split; [reflexivity|].
  eapply checkFields_schema_error; eassumption.
Qed.


(* ===================================================================== *)
(** ** The heap outside the record being filled *)
(* ===================================================================== *)

Lemma storeField_length (h : Heap) p i v :
  List.length (storeField h p i v) = List.length h.
Proof. unfold storeField. apply length_alter. Qed.

Lemma storeField_other (h : Heap) p i v q :
  q <> p -> storeField h p i v !! q = h !! q.
Proof. intros Hq. unfold storeField. apply list_lookup_alter_ne. auto. Qed.

Lemma storeField_other_field (h : Heap) p i v j :
  j <> i ->
  (storeField h p i v !! p ≫= (.!! j)) = (h !! p ≫= (.!! j)).
Proof.
  intros Hj. unfold storeField. rewrite list_lookup_alter_eq.
  destruct (h !! p) as [r|]; simpl; [|reflexivity].
  apply list_lookup_insert_ne. auto.
Qed.

(** Whatever its outcome, the field loop writes only to the record of
    its row, and there only to fields from [i] on. *)
Lemma fieldLoop_frame n p rec line fs i iIndex (h : Heap) idx h' r :
  fieldLoop n p rec line fs i iIndex h idx = (h', r) ->
  List.length h' = List.length h
  /\ (forall q, q <> p -> h' !! q = h !! q)
  /\ (forall j, j < i -> (h' !! p ≫= (.!! j)) = (h !! p ≫= (.!! j))).
Proof.
  revert i iIndex h idx.
  induction fs as [|f fs IH]; intros i iIndex h idx; simpl.
  { intros [= <- <-]. auto. }
  destruct (line !! i) as [strField|]; [|intros [= <- <-]; auto].
  destruct (negb (CanSet f)).
  { intros H. apply IH in H as (H1 & H2 & H3).
    split; [auto|]. split; [auto|]. intros j Hj. apply H3. lia. }
  destruct (setField f strField (loadField h p i f)) as [v err].
  assert (Hst : List.length (storeField h p i v) = List.length h
    /\ (forall q, q <> p -> storeField h p i v !! q = h !! q)
    /\ (forall j, j < i ->
          (storeField h p i v !! p ≫= (.!! j)) = (h !! p ≫= (.!! j)))).
  { split; [apply storeField_length|].
    split; [intros; apply storeField_other; auto|].
    intros j Hj. apply storeField_other_field. lia. }
  destruct Hst as (S1 & S2 & S3).
  assert (Hrec : forall iIndex' idx',
    fieldLoop n p rec line fs (S i) iIndex' (storeField h p i v) idx' = (h', r) ->
    List.length h' = List.length h
    /\ (forall q, q <> p -> h' !! q = h !! q)
    /\ (forall j, j < i -> (h' !! p ≫= (.!! j)) = (h !! p ≫= (.!! j)))).
  { intros iIndex' idx' H. apply IH in H as (H1 & H2 & H3).
    split; [congruence|].
    split; [intros q Hq; rewrite H2, S2; auto|].
    intros j Hj. rewrite H3, S3; auto; lia. }
  destruct err as [e|]; [intros [= <- <-]; auto|].
  destruct (isIndexTag f); [|apply Hrec].
  destruct (idx !! iIndex) as [index|]; [|intros [= <- <-]; auto].
  destruct (negb (hashable _)); [intros [= <- <-]; auto|].
  destruct (lookupKey index _); [intros [= <- <-]; auto|].
  apply Hrec.
Qed.

(** The row loop leaves every record that was there before as it was. *)
Lemma rowLoop_frame t n rows (h : Heap) recs idx h' r :
  rowLoop t n rows h recs idx = (h', r) ->
  List.length h <= List.length h'
  /\ (forall q, q < List.length h -> h' !! q = h !! q).
Proof.
  revert n h recs idx.
  induction rows as [|line rows IH]; intros n h recs idx; simpl.
  { intros [= <- <-]. auto. }
  assert (Ha : List.length (h ++ [List.map zeroValue (Fields t)])
               = S (List.length h)).
  { rewrite length_app. simpl. lia. }
  assert (Hb : forall q, q < List.length h ->
            (h ++ [List.map zeroValue (Fields t)]) !! q = h !! q).
  { intros q Hq. apply lookup_app_l. exact Hq. }
  destruct (negb (n - 1 <? List.length recs)).
  { intros [= <- <-]. split; [lia|auto]. }
  destruct (negb (List.length line =? NumField t)).
  { intros [= <- <-]. split; [lia|auto]. }
  destruct (fieldLoop _ _ _ _ _ _ _ _ _) as [h1 r1] eqn:Hf.
  apply fieldLoop_frame in Hf as (F1 & F2 & _).
  assert (Hc : forall q, q < List.length h -> h1 !! q = h !! q).
  { intros q Hq. rewrite F2, Hb; auto. lia. }
  destruct r1 as [idx1|e|q1].
  - intros H. apply IH in H as (H1 & H2).
    split; [lia|]. intros q Hq. rewrite H2, Hc; auto. lia.
  - intros [= <- <-]. split; [lia|auto].
  - intros [= <- <-]. split; [lia|auto].
Qed.

Lemma rowLoop_length_recs t n rows (h : Heap) recs idx h' recs' idx' :
  rowLoop t n rows h recs idx = (h', Ok (recs', idx')) ->
  List.length recs' = List.length recs.
Proof.
  revert n h recs idx.
  induction rows as [|line rows IH]; intros n h recs idx; simpl.
  { intros [= <- <- <-]. reflexivity. }
  destruct (negb (n - 1 <? List.length recs)); [discriminate|].
  destruct (negb (List.length line =? NumField t)); [discriminate|].
  destruct (fieldLoop _ _ _ _ _ _ _ _ _) as [h1 [idx1|e|q1]];
    [|discriminate|discriminate].
  intros H. apply IH in H. rewrite H. apply length_insert.
Qed.

Lemma storeField_shape (h : Heap) p i v q :
  List.length <$> (storeField h p i v !! q) = List.length <$> (h !! q).
Proof.
  unfold storeField. destruct (decide (p = q)) as [->|Hne].
  - rewrite list_lookup_alter_eq. destruct (h !! q) as [rv|]; simpl; [|reflexivity].
    rewrite length_insert. reflexivity.
  - rewrite list_lookup_alter_ne by exact Hne. reflexivity.
Qed.

(** The field loop never changes how many fields a record has. *)
Lemma fieldLoop_shape n p rec line fs i iIndex (h : Heap) idx h' r :
  fieldLoop n p rec line fs i iIndex h idx = (h', r) ->
  forall q, List.length <$> (h' !! q) = List.length <$> (h !! q).
Proof.
  revert i iIndex h idx.
  induction fs as [|f fs IH]; intros i iIndex h idx; simpl.
  { intros [= <- <-]. reflexivity. }
  destruct (line !! i) as [strField|]; [|intros [= <- <-]; reflexivity].
  destruct (negb (CanSet f)); [apply IH|].
  destruct (setField f strField (loadField h p i f)) as [v err].
  assert (Hrec : forall iIndex' idx',
    fieldLoop n p rec line fs (S i) iIndex' (storeField h p i v) idx' = (h', r) ->
    forall q, List.length <$> (h' !! q) = List.length <$> (h !! q)).
  { intros iIndex' idx' H q. rewrite (IH _ _ _ _ H q). apply storeField_shape. }
  destruct err as [e|]; [intros [= <- <-]; apply storeField_shape|].
  destruct (isIndexTag f); [|apply Hrec].
  destruct (idx !! iIndex) as [index|];
    [|intros [= <- <-]; apply storeField_shape].
  destruct (negb (hashable _)); [intros [= <- <-]; apply storeField_shape|].
  destruct (lookupKey index _); [intros [= <- <-]; apply storeField_shape|].
  apply Hrec.
Qed.

Lemma loadField_storeField (h : Heap) p i v f n :
  List.length <$> (h !! p) = Some n -> i < n ->
  loadField (storeField h p i v) p i f = v.
Proof.
  intros Hp Hi. unfold loadField, storeField.
  rewrite list_lookup_alter_eq.
  destruct (h !! p) as [rv|]; simpl in *; [|discriminate].
  injection Hp as Hp.
  rewrite list_lookup_insert_eq by lia. reflexivity.
Qed.

(* ===================================================================== *)
(** ** The row loop: splitting, record slots *)
(* ===================================================================== *)

Lemma rowLoop_app t xs ys n (h : Heap) recs idx :
  rowLoop t n (xs ++ ys) h recs idx =
  match rowLoop t n xs h recs idx with
  | (h1, Ok (recs1, idx1)) => rowLoop t (n + List.length xs) ys h1 recs1 idx1
  | (h1, Err e) => (h1, Err e)
  | (h1, Panic q) => (h1, Panic q)
  end.
Proof.
  revert n h recs idx.
  induction xs as [|line xs IH]; intros n h recs idx; simpl.
  { replace (n + 0) with n by lia. reflexivity. }
  destruct (negb (n - 1 <? List.length recs)); [reflexivity|].
  destruct (negb (List.length line =? NumField t)); [reflexivity|].
  destruct (fieldLoop _ _ _ _ _ _ _ _ _) as [h1 [idx1|e|q1]];
    [|reflexivity|reflexivity].
  rewrite IH. replace (S n + List.length xs) with (n + S (List.length xs)) by lia.
  reflexivity.
Qed.

(** The record slice only has to be long enough: its length and its
    former content do not change what the loop does. *)
Lemma rowLoop_recs t rows n (h : Heap) recs recs2 idx :
  1 <= n ->
  n - 1 + List.length rows <= List.length recs ->
  n - 1 + List.length rows <= List.length recs2 ->
  sameOutcome (rowLoop t n rows h recs idx) (rowLoop t n rows h recs2 idx).
Proof.
  revert n h recs recs2 idx.
  induction rows as [|line rows IH]; intros n h recs recs2 idx Hn H1 H2; simpl.
  { split; reflexivity. }
  simpl in H1, H2.
  assert (E1 : (n - 1 <? List.length recs) = true) by (apply Nat.ltb_lt; lia).
  assert (E2 : (n - 1 <? List.length recs2) = true) by (apply Nat.ltb_lt; lia).
  rewrite E1, E2. simpl.
  destruct (negb (List.length line =? NumField t)); [split; reflexivity|].
  rewrite !list_lookup_insert_eq by lia. simpl.
  destruct (fieldLoop _ _ _ _ _ _ _ _ _) as [h1 [idx1|e|q1]];
    [|split; reflexivity|split; reflexivity].
  apply IH; rewrite ?length_insert; lia.
Qed.

(** After a run without error the rows own consecutive fresh addresses,
    in row order. *)
Lemma rowLoop_records t rows n (h : Heap) recs idx h' recs' idx' :
  1 <= n ->
  rowLoop t n rows h recs idx = (h', Ok (recs', idx')) ->
  List.length h' = List.length h + List.length rows
  /\ (forall j, j < List.length rows ->
        recs' !! (n - 1 + j) = Some (Some (List.length h + j)))
  /\ (forall j, j < n - 1 -> recs' !! j = recs !! j).
Proof.
  revert n h recs idx.
  induction rows as [|line rows IH]; intros n h recs idx Hn; simpl.
  { intros [= <- <- <-]. split; [lia|]. split; [intros; lia|auto]. }
  destruct (n - 1 <? List.length recs) eqn:Hb; simpl; [|discriminate].
  apply Nat.ltb_lt in Hb.
  destruct (negb (List.length line =? NumField t)); [discriminate|].
  destruct (fieldLoop _ _ _ _ _ _ _ _ _) as [h1 [idx1|e|q1]] eqn:Hf;
    [|discriminate|discriminate].
  apply fieldLoop_frame in Hf as (F1 & _ & _).
  rewrite length_app in F1. simpl in F1.
  intros H. apply IH in H as (H1 & H2 & H3); [|lia].
  split; [lia|]. split.
  - intros [|j] Hj.
    + replace (n - 1 + 0) with (n - 1) by lia.
      rewrite H3 by lia. rewrite list_lookup_insert_eq by lia.
      f_equal. f_equal. lia.
    + replace (n - 1 + S j) with (S n - 1 + j) by lia.
      rewrite H2 by lia. f_equal. f_equal. lia.
  - intros j Hj. rewrite H3 by lia. apply list_lookup_insert_ne. lia.
Qed.

(* ===================================================================== *)
(** ** The load as a whole *)
(* ===================================================================== *)

Lemma Read_unfold g disk name (h : Heap) rf :
  Read g disk name h rf =
  match disk name with
  | inr msg => (h, withDefaults g rf, Err (ErrIO msg))
  | inl content =>
      load (withDefaults g rf) (tokenize (withDefaults g rf) content) h
  end.
Proof. unfold Read, ReadData. destruct (disk name); reflexivity. Qed.

Lemma load_nil rf (h : Heap) :
  load rf [] h = (h, rf, Panic MakeSliceLenOutOfRange).
Proof. reflexivity. Qed.

Lemma load_cons rf hdr rows (h : Heap) :
  load rf (hdr :: rows) h =
  match rowLoop (typeRecord rf) 1 rows h
          (replicate (List.length rows) None)
          (makeIndexes (Fields (typeRecord rf))) with
  | (h1, Ok (recs, idx)) =>
      (h1, mkRecordFile (Comma rf) (Comment rf) (LineEndStr rf)
             (typeRecord rf) recs idx, Ok tt)
  | (h1, Err e) => (h1, rf, Err e)
  | (h1, Panic q) => (h1, rf, Panic q)
  end.
Proof.
  unfold load.
  replace (Z.of_nat (List.length (hdr :: rows)) - 1)%Z
    with (Z.of_nat (List.length rows)) by (simpl List.length; lia).
  destruct (Z.of_nat (List.length rows) <? 0)%Z eqn:E;
    [apply Z.ltb_lt in E; lia|].
  rewrite Nat2Z.id. reflexivity.
Qed.

(** A load that does not succeed returns the receiver it was given. *)
Lemma load_failure_state rf lines (h : Heap) h' rf' r :
  load rf lines h = (h', rf', r) -> r <> Ok tt -> rf' = rf.
Proof.
  destruct lines as [|hdr rows].
  - rewrite load_nil. intros [= <- <- <-] _. reflexivity.
  - rewrite load_cons.
    destruct (rowLoop _ _ _ _ _ _) as [h1 [[recs idx]|e|q]].
    + intros [= <- <- <-] Hr. destruct Hr. reflexivity.
    + intros [= <- <- <-] _. reflexivity.
    + intros [= <- <- <-] _. reflexivity.
Qed.

Lemma load_frame rf lines (h : Heap) h' rf' r :
  load rf lines h = (h', rf', r) ->
  forall q, q < List.length h -> h' !! q = h !! q.
Proof.
  destruct lines as [|hdr rows].
  - rewrite load_nil. intros [= <- <- <-]. auto.
  - rewrite load_cons.
    destruct (rowLoop _ _ _ _ _ _) as [h1 [[recs idx]|e|q1]] eqn:Hl;
      apply rowLoop_frame in Hl as [_ Hl]; intros [= <- <- <-]; exact Hl.
Qed.

(** Rows after the one that fails are never looked at. *)
Lemma load_error_stops rf hdr xs ys (h : Heap) h' rf' e :
  load rf (hdr :: xs) h = (h', rf', Err e) ->
  load rf (hdr :: xs ++ ys) h = (h', rf', Err e).
Proof.
  rewrite !load_cons, rowLoop_app.
  pose proof (rowLoop_recs (typeRecord rf) xs 1 h
                (replicate (List.length xs) None)
                (replicate (List.length (xs ++ ys)) None)
                (makeIndexes (Fields (typeRecord rf)))) as Hs.
  rewrite !length_replicate, length_app in Hs.
  specialize (Hs ltac:(lia) ltac:(lia) ltac:(lia)).
  rewrite length_app.
  destruct (rowLoop _ 1 xs h (replicate (List.length xs) None) _)
    as [h1 [[recs idx]|e1|q1]]; [discriminate| |discriminate].
  intros [= <- <- <-].
  destruct (rowLoop _ 1 xs h _ _) as [h2 [[recs2 idx2]|e2|q2]];
    simpl in Hs; try contradiction.
  destruct Hs as [-> ->]. reflexivity.
Qed.

(** The prefix of rows that loads alone behaves alike inside a longer
    file. *)
Lemma load_prefix rf hdr xs ys (h : Heap) h1 rf1 :
  load rf (hdr :: xs) h = (h1, rf1, Ok tt) ->
  exists recs1,
    List.length recs1 = List.length (xs ++ ys) /\
    rowLoop (typeRecord rf) 1 (xs ++ ys) h
      (replicate (List.length (xs ++ ys)) None)
      (makeIndexes (Fields (typeRecord rf)))
    = rowLoop (typeRecord rf) (1 + List.length xs) ys h1 recs1 (indexes rf1).
Proof.
  rewrite load_cons, rowLoop_app.
  pose proof (rowLoop_recs (typeRecord rf) xs 1 h
                (replicate (List.length xs) None)
                (replicate (List.length (xs ++ ys)) None)
                (makeIndexes (Fields (typeRecord rf)))) as Hs.
  rewrite !length_replicate, length_app in Hs.
  specialize (Hs ltac:(lia) ltac:(lia) ltac:(lia)).
  rewrite length_app.
  destruct (rowLoop _ 1 xs h (replicate (List.length xs) None) _)
    as [h2 [[recs idx]|e1|q1]]; [|discriminate|discriminate].
  intros [= <- <-].
  destruct (rowLoop _ 1 xs h _ _) as [h3 [[recs3 idx3]|e3|q3]] eqn:Hl;
    simpl in Hs; try contradiction.
  destruct Hs as [-> ->].
  exists recs3. split; [|reflexivity].
  apply rowLoop_length_recs in Hl. rewrite Hl, length_replicate. reflexivity.
Qed.

Lemma readLines_dropped comma comment chunks :
  forallb (dropped comment) chunks = true ->
  readLines comma comment chunks = [].
Proof.
  induction chunks as [|c cs IH]; simpl; [reflexivity|].
  intros H. apply andb_true_iff in H as [Hc Hcs].
  unfold dropped in Hc.
  destruct (String.eqb c ""); [auto|]. simpl in Hc. rewrite Hc. auto.
Qed.

(** The rows are the chunks that are kept, each without its trailing
    newline and cut at the field delimiter. *)
Lemma readLines_filter comma comment chunks :
  readLines comma comment chunks
  = List.map (fun chunk => strings.Split (stripNewline chunk) comma)
      (List.filter (fun chunk => negb (dropped comment chunk)) chunks).
Proof.
  induction chunks as [|c cs IH]; simpl; [reflexivity|].
  unfold dropped at 1. fold (stripNewline c).
  destruct (String.eqb c ""); simpl; [exact IH|].
  destruct (strings.HasPrefix (stripNewline c) comment); simpl;
    [exact IH|].
  rewrite IH. reflexivity.
Qed.

(** C1: when [Read] returns an error, the receiver keeps the records
    and indexes it had, so [NumRecord], [Record], [Indexes] and [Index]
    answer as before, and the records that were allocated before keep
    their content; the error is the first one met: rows that follow the
    failing row change nothing. *)
Theorem Read_error_keeps_store g disk name (h : Heap) rf h' rf' e :
  Read g disk name h rf = (h', rf', Err e) ->
  typeRecord rf' = typeRecord rf
  /\ records rf' = records rf
  /\ indexes rf' = indexes rf
  /\ NumRecord rf' = NumRecord rf
  /\ (forall i, Record_ rf' i = Record_ rf i)
  /\ (forall i, Indexes rf' i = Indexes rf i)
  /\ (forall k, Index_ rf' k = Index_ rf k)
  /\ (forall q, q < List.length h -> h' !! q = h !! q)
  /\ (forall content hdr xs ys,
        disk name = inl content ->
        tokenize (withDefaults g rf) content = hdr :: xs ->
        load (withDefaults g rf) (hdr :: xs ++ ys) h = (h', rf', Err e)).
Proof.
  rewrite Read_unfold. intros H.
  assert (Hrf : rf' = withDefaults g rf /\
                forall q, q < List.length h -> h' !! q = h !! q).
  { destruct (disk name) as [content|msg].
    - split; [eapply load_failure_state; [exact H|discriminate]|].
      eapply load_frame; exact H.
    - injection H as <- <- <-. auto. }
  destruct Hrf as [-> Hh].
  split; [reflexivity|]. split; [reflexivity|]. split; [reflexivity|].
  split; [reflexivity|]. split; [reflexivity|]. split; [reflexivity|].
  split; [reflexivity|]. split; [exact Hh|].
  intros content hdr xs ys Hd Ht. rewrite Hd, Ht in H.
  apply load_error_stops. exact H.
Qed.

(** C2: after a successful [Read] the file gave at least one row, the
    number of records is the number of rows less that first one, and
    the first row is dropped unread: any other row in its place gives
    the same store.  The rows are counted in the file: they are the
    chunks between the line terminators that are neither empty nor a
    comment, each cut at the field delimiter, so the number of records
    is the number of those chunks less one. *)
Theorem NumRecord_is_rows_less_header g disk name (h : Heap) rf h' rf' :
  Read g disk name h rf = (h', rf', Ok tt) ->
  exists content hdr rows,
    let rf0 := withDefaults g rf in
    let kept :=
      List.filter (fun chunk => negb (dropped (Comment rf0) chunk))
        (strings.Split content (LineEndStr rf0)) in
    disk name = inl content
    /\ tokenize rf0 content = hdr :: rows
    /\ NumRecord rf' = List.length (hdr :: rows) - 1
    /\ (forall hdr2, load rf0 (hdr2 :: rows) h = (h', rf', Ok tt))
    /\ hdr :: rows
       = List.map (fun chunk => strings.Split (stripNewline chunk) (Comma rf0))
           kept
    /\ List.length (hdr :: rows) = List.length kept
    /\ NumRecord rf' = List.length kept - 1.
Proof.
  rewrite Read_unfold.
  destruct (disk name) as [content|msg]; [|discriminate].
  destruct (tokenize (withDefaults g rf) content) as [|hdr rows] eqn:Ht.
  { rewrite load_nil. discriminate. }
  intros H. exists content, hdr, rows. cbv zeta.
  assert (Hn : NumRecord rf' = List.length (hdr :: rows) - 1).
  { rewrite load_cons in H.
    destruct (rowLoop _ _ _ _ _ _) as [h1 [[recs idx]|e1|q1]] eqn:Hl;
      [|discriminate|discriminate].
    injection H as <- <-. unfold NumRecord. simpl.
    apply rowLoop_length_recs in Hl. rewrite Hl, length_replicate. lia. }
  assert (Hk : hdr :: rows
               = List.map (fun chunk => strings.Split (stripNewline chunk)
                                          (Comma (withDefaults g rf)))
                   (List.filter
                      (fun chunk =>
                         negb (dropped (Comment (withDefaults g rf)) chunk))
                      (strings.Split content
                         (LineEndStr (withDefaults g rf))))).
  { rewrite <- Ht. unfold tokenize. apply readLines_filter. }
  assert (Hlen : List.length (hdr :: rows)
                 = List.length
                     (List.filter
                        (fun chunk =>
                           negb (dropped (Comment (withDefaults g rf)) chunk))
                        (strings.Split content
                           (LineEndStr (withDefaults g rf))))).
  { rewrite Hk at 1. apply length_map. }
  split; [reflexivity|]. split; [exact Ht|]. split; [exact Hn|].
  split; [intros hdr2; rewrite load_cons in *; exact H|].
  split; [exact Hk|]. split; [exact Hlen|].
  rewrite Hn, Hlen. reflexivity.
Qed.

(** C5: a data row whose token count is not the field count makes the
    load fail, and the receiver keeps its records and indexes; when the
    rows before it load without error, the error is the field-count
    error with the number of that row, counted from 1 after the header,
    the count found and the count expected. *)
Theorem wrong_field_count_fails
    g disk name content (h : Heap) rf hdr pre bad post :
  disk name = inl content ->
  tokenize (withDefaults g rf) content = hdr :: pre ++ bad :: post ->
  List.length bad <> NumField (typeRecord rf) ->
  (forall h' rf', Read g disk name h rf <> (h', rf', Ok tt))
  /\ (forall h1 rf1,
        load (withDefaults g rf) (hdr :: pre) h = (h1, rf1, Ok tt) ->
        Read g disk name h rf =
          (h1 ++ [List.map zeroValue (Fields (typeRecord rf))],
           withDefaults g rf,
           Err (ErrFieldCount (S (List.length pre)) (List.length bad)
                  (NumField (typeRecord rf))))).
Proof.
  intros Hd Ht Hbad. rewrite Read_unfold, Hd, Ht.
  assert (Hrow : forall n (h0 : Heap) recs idx,
    n - 1 < List.length recs ->
    rowLoop (typeRecord (withDefaults g rf)) n (bad :: post) h0 recs idx =
    (h0 ++ [List.map zeroValue (Fields (typeRecord rf))],
     Err (ErrFieldCount n (List.length bad) (NumField (typeRecord rf))))).
  { intros n h0 recs idx Hn. simpl.
    apply Nat.ltb_lt in Hn. rewrite Hn. simpl.
    apply Nat.eqb_neq in Hbad. rewrite Hbad. reflexivity. }
  split.
  - intros h' rf'. rewrite load_cons, rowLoop_app.
    destruct (rowLoop _ 1 pre _ _ _) as [h1 [[recs idx]|e1|q1]] eqn:Hl;
      [|discriminate|discriminate].
    rewrite Hrow; [discriminate|].
    apply rowLoop_length_recs in Hl.
    rewrite Hl, length_replicate, length_app. simpl. lia.
  - intros h1 rf1 Hpre.
    destruct (load_prefix _ _ _ (bad :: post) _ _ _ Hpre) as (recs1 & Hlen & Heq).
    rewrite load_cons, Heq, Hrow; [reflexivity|].
    rewrite Hlen, length_app. simpl. lia.
Qed.

(** C8: [Record(i)] returns the record at position [i] when
    [0 <= i < NumRecord()] and panics with the run-time's index error
    otherwise; in a store that [Read] has filled, position [i] holds the
    record allocated for data row [i+1]. *)
Theorem Record_bounds_checked rf (i : Z) :
  ((0 <= i < Z.of_nat (NumRecord rf))%Z ->
     exists r, records rf !! Z.to_nat i = Some r /\ Record_ rf i = Ok r)
  /\ ((i < 0 \/ Z.of_nat (NumRecord rf) <= i)%Z ->
        Record_ rf i = Panic (IndexOutOfRange i (NumRecord rf)))
  /\ (forall g disk name (h : Heap) rf0 h',
        Read g disk name h rf0 = (h', rf, Ok tt) ->
        (0 <= i < Z.of_nat (NumRecord rf))%Z ->
        Record_ rf i = Ok (Some (List.length h + Z.to_nat i))
        /\ List.length h + Z.to_nat i < List.length h').
Proof.
  unfold Record_, NumRecord.
  split; [|split].
  - intros Hi.
    destruct (lookup_lt_is_Some_2 (records rf) (Z.to_nat i) ltac:(lia))
      as [r Hr].
    exists r. split; [exact Hr|].
    rewrite Hr. simpl.
    destruct (0 <=? i)%Z eqn:E1; [|apply Z.leb_gt in E1; lia].
    destruct (i <? Z.of_nat (List.length (records rf)))%Z eqn:E2;
      [|apply Z.ltb_ge in E2; lia].
    reflexivity.
  - intros Hi.
    destruct (0 <=? i)%Z eqn:E1; simpl; [|reflexivity].
    destruct (i <? Z.of_nat (List.length (records rf)))%Z eqn:E2;
      [|reflexivity].
    apply Z.leb_le in E1. apply Z.ltb_lt in E2. lia.
  - intros g disk name h rf0 h'. rewrite Read_unfold.
    destruct (disk name) as [content|msg]; [|discriminate].
    destruct (tokenize (withDefaults g rf0) content) as [|hdr rows].
    { rewrite load_nil. discriminate. }
    rewrite load_cons.
    destruct (rowLoop _ _ _ _ _ _) as [h1 [[recs idx]|e1|q1]] eqn:Hl;
      [|discriminate|discriminate].
    intros [= <- <-]. simpl. intros Hi.
    pose proof (rowLoop_length_recs _ _ _ _ _ _ _ _ _ Hl) as Hlen.
    rewrite length_replicate in Hlen.
    apply rowLoop_records in Hl as (H1 & H2 & _); [|lia].
    specialize (H2 (Z.to_nat i) ltac:(lia)). simpl in H2.
    rewrite H2. simpl.
    destruct (0 <=? i)%Z eqn:E1; [|apply Z.leb_gt in E1; lia].
    destruct (i <? Z.of_nat (List.length recs))%Z eqn:E2;
      [|apply Z.ltb_ge in E2; lia].
    split; [reflexivity|lia].
Qed.

(** C10: a file all of whose chunks are empty or comments gives no row
    at all, not even a header, and [Read] then panics in
    [make([]interface{}, len(lines)-1)] with length -1: it neither
    returns an error nor succeeds, and the receiver keeps its records
    and indexes. *)
Theorem Read_panics_without_rows g disk name content (h : Heap) rf :
  disk name = inl content ->
  forallb (dropped (Comment (withDefaults g rf)))
    (strings.Split content (LineEndStr (withDefaults g rf))) = true ->
  tokenize (withDefaults g rf) content = []
  /\ Read g disk name h rf
     = (h, withDefaults g rf, Panic MakeSliceLenOutOfRange).
Proof.
  intros Hd Hall.
  assert (Ht : tokenize (withDefaults g rf) content = []).
  { unfold tokenize. apply readLines_dropped. exact Hall. }
  split; [exact Ht|].
  rewrite Read_unfold, Hd, Ht. apply load_nil.
Qed.

(* ===================================================================== *)
(** ** Maps as lists of entries *)
(* ===================================================================== *)

Lemma lookupKey_None (m : Index) k :
  lookupKey m k = None <->
  (forall a ka va, m !! a = Some (ka, va) -> keyEq ka k = false).
Proof.
  induction m as [|[k0 v0] m IH]; simpl.
  - split; [intros _ a ka va Ha; destruct a; discriminate|reflexivity].
  - destruct (keyEq k0 k) eqn:E.
    + split; [discriminate|]. intros H.
      specialize (H 0 k0 v0 eq_refl). congruence.
    + rewrite IH. split.
      * intros H [|a] ka va Ha; simpl in Ha; [congruence|eauto].
      * intros H a ka va Ha. apply (H (S a) ka va Ha).
Qed.

Lemma mapassign_fresh (m : Index) k v :
  lookupKey m k = None -> mapassign m k v = m ++ [(k, v)].
Proof.
  induction m as [|[k0 v0] m IH]; simpl; [reflexivity|].
  destruct (keyEq k0 k); [discriminate|].
  intros H. rewrite IH by exact H. reflexivity.
Qed.

Lemma wellKeyed_nil : wellKeyed [].
Proof. split; intros; destruct a; discriminate. Qed.

Lemma wellKeyed_snoc (m : Index) k v :
  wellKeyed m -> hashable k = true -> lookupKey m k = None ->
  wellKeyed (m ++ [(k, v)]).
Proof.
  intros [Hh Hd] Hk Hn. rewrite lookupKey_None in Hn. split.
  - intros a k1 v1 Ha. apply lookup_app_Some in Ha as [Ha|[_ Ha]]; [eauto|].
    destruct (a - List.length m); simpl in Ha; [congruence|discriminate].
  - intros a c ka va kc vc Hac Ha Hc.
    assert (Hc' := lookup_lt_Some _ _ _ Hc).
    rewrite length_app in Hc'. simpl in Hc'.
    rewrite lookup_app_l in Ha by lia.
    destruct (decide (c < List.length m)) as [Hlt|Hge].
    + rewrite lookup_app_l in Hc by lia. eauto.
    + rewrite lookup_app_r in Hc by lia.
      replace (c - List.length m) with 0 in Hc by lia.
      simpl in Hc. injection Hc as <- <-. eauto.
Qed.

(** A key equal to itself is found under the entry that holds it. *)
Lemma lookupKey_found (m : Index) c k v :
  wellKeyed m -> m !! c = Some (k, v) -> keyEq k k = true ->
  lookupKey m k = Some v.
Proof.
  revert c. induction m as [|[k0 v0] m IH]; intros c [Hh Hd] Hc Hk.
  { destruct c; discriminate. }
  simpl. destruct c as [|c]; simpl in Hc.
  - injection Hc as -> ->. rewrite Hk. reflexivity.
  - rewrite (Hd 0 (S c) k0 v0 k v) by (simpl; auto; lia).
    apply (IH c); [|exact Hc|exact Hk].
    split.
    + intros a k1 v1 Ha. apply (Hh (S a) k1 v1 Ha).
    + intros a c' ka va kc vc Hac Ha Hc'.
      apply (Hd (S a) (S c') ka va kc vc); simpl; auto; lia.
Qed.

(** A key equal to a key of the map is present. *)
Lemma lookupKey_present (m : Index) c k0 v0 k :
  m !! c = Some (k0, v0) -> keyEq k0 k = true -> is_Some (lookupKey m k).
Proof.
  intros Hc Hk. destruct (lookupKey m k) eqn:E; [eauto|].
  rewrite lookupKey_None in E. rewrite (E c k0 v0 Hc) in Hk. discriminate.
Qed.

(* ===================================================================== *)
(** ** Columns *)
(* ===================================================================== *)

Lemma loadField_ext (h h' : Heap) q i f :
  (h' !! q ≫= (.!! i)) = (h !! q ≫= (.!! i)) ->
  loadField h' q i f = loadField h q i f.
Proof. unfold loadField. intros ->. reflexivity. Qed.

Lemma column_ext (h h' : Heap) ps i f :
  (forall q, In q ps -> (h' !! q ≫= (.!! i)) = (h !! q ≫= (.!! i))) ->
  column h' ps i f = column h ps i f.
Proof.
  intros H. unfold column. apply map_ext_in. intros q Hq.
  rewrite (loadField_ext h h' q i f) by auto. reflexivity.
Qed.

Lemma columnsFrom_ext (h h' : Heap) ps i fs :
  (forall q j, In q ps -> i <= j ->
     (h' !! q ≫= (.!! j)) = (h !! q ≫= (.!! j))) ->
  columnsFrom h' ps i fs = columnsFrom h ps i fs.
Proof.
  revert i. induction fs as [|f fs IH]; intros i H; simpl; [reflexivity|].
  rewrite IH by (intros; apply H; auto; lia).
  destruct (indexed f); [|reflexivity].
  rewrite (column_ext h h') by (intros; apply H; auto). reflexivity.
Qed.

Lemma column_snoc (h : Heap) ps p i f :
  column h (ps ++ [p]) i f = column h ps i f ++ [(loadField h p i f, Some p)].
Proof. unfold column. rewrite map_app. reflexivity. Qed.

Lemma columnsFrom_length (h : Heap) ps i fs :
  List.length (columnsFrom h ps i fs) = List.length (List.filter indexed fs).
Proof.
  revert i. induction fs as [|f fs IH]; intros i; simpl; [reflexivity|].
  destruct (indexed f); simpl; rewrite IH; reflexivity.
Qed.

Lemma columnsFrom_app (h : Heap) ps i fs1 fs2 :
  columnsFrom h ps i (fs1 ++ fs2) =
  columnsFrom h ps i fs1 ++ columnsFrom h ps (i + List.length fs1) fs2.
Proof.
  revert i. induction fs1 as [|f fs1 IH]; intros i; simpl.
  { replace (i + 0) with i by lia. reflexivity. }
  rewrite IH. replace (S i + List.length fs1) with (i + S (List.length fs1)) by lia.
  destruct (indexed f); reflexivity.
Qed.

Lemma columnsFrom_nil (h : Heap) i fs :
  columnsFrom h [] i fs = replicate (List.length (List.filter indexed fs)) [].
Proof.
  revert i. induction fs as [|f fs IH]; intros i; simpl; [reflexivity|].
  destruct (indexed f); simpl; rewrite IH; reflexivity.
Qed.

Lemma makeIndexes_replicate (fs : list StructField) :
  makeIndexes fs = replicate (List.length (List.filter isIndexTag fs)) [].
Proof.
  induction fs as [|f fs IH]; simpl; [reflexivity|].
  destruct (isIndexTag f); simpl; rewrite IH; reflexivity.
Qed.

Lemma filter_indexed_le (fs : list StructField) :
  List.length (List.filter indexed fs)
  <= List.length (List.filter isIndexTag fs).
Proof.
  induction fs as [|f fs IH]; simpl; [lia|]. unfold indexed at 1.
  destruct (CanSet f), (isIndexTag f); simpl; lia.
Qed.

(** The maps [Read] starts from: the empty columns of the indexed
    fields, then one empty map for each tagged field that cannot be
    set. *)
Lemma makeIndexes_columns (h : Heap) (fs : list StructField) :
  makeIndexes fs =
  columnsFrom h [] 0 fs
  ++ replicate (List.length (List.filter isIndexTag fs)
                - List.length (List.filter indexed fs)) [].
Proof.
  rewrite makeIndexes_replicate, columnsFrom_nil, <- replicate_add.
  f_equal. pose proof (filter_indexed_le fs). lia.
Qed.

(** The column of the indexed field at position [i] sits at the number
    of indexed fields before it. *)
Lemma columnsFrom_lookup (h : Heap) ps i0 fs i f :
  fs !! i = Some f -> indexed f = true ->
  columnsFrom h ps i0 fs !! List.length (List.filter indexed (take i fs))
  = Some (column h ps (i0 + i) f).
Proof.
  revert i0 i. induction fs as [|f0 fs IH]; intros i0 i Hi Hf.
  { destruct i; discriminate. }
  destruct i as [|i]; simpl in Hi.
  - injection Hi as ->. simpl. rewrite Hf. simpl.
    replace (i0 + 0) with i0 by lia. reflexivity.
  - simpl. replace (i0 + S i) with (S i0 + i) by lia.
    destruct (indexed f0); simpl; apply IH; auto.
Qed.

Lemma slotOf_indexed (fs : list StructField) i :
  (forall j fj, j < i -> fs !! j = Some fj -> isIndexTag fj = true ->
     CanSet fj = true) ->
  slotOf fs i = List.length (List.filter indexed (take i fs)).
Proof.
  unfold slotOf. revert i. induction fs as [|f fs IH]; intros i H.
  { destruct i; reflexivity. }
  destruct i as [|i]; [reflexivity|]. simpl.
  assert (IH' := IH i (fun j fj Hj => H (S j) fj ltac:(lia))).
  unfold indexed at 1.
  destruct (isIndexTag f) eqn:Ht.
  - rewrite (H 0 f ltac:(lia) eq_refl Ht). simpl. rewrite IH'. reflexivity.
  - rewrite andb_false_r. exact IH'.
Qed.

(* ===================================================================== *)
(** ** What the loops do to the indexes *)
(* ===================================================================== *)

(** One row: each indexed field from [i] on gains one entry, the value
    the record of the row holds for it, referring to that record. *)
Lemma fieldLoop_columns n p line ps :
  (forall q, In q ps -> q <> p) ->
  forall fs i iIndex (h : Heap) idx done tail h' idx',
  List.length done = iIndex ->
  idx = done ++ columnsFrom h ps i fs ++ tail ->
  Forall wellKeyed (columnsFrom h ps i fs) ->
  fieldLoop n p (Some p) line fs i iIndex h idx = (h', Ok idx') ->
  idx' = done ++ columnsFrom h' (ps ++ [p]) i fs ++ tail
  /\ Forall wellKeyed (columnsFrom h' (ps ++ [p]) i fs).
Proof.
  intros Hp.
  induction fs as [|f fs IH]; intros i iIndex h idx done tail h' idx' Hd Hidx Hwk;
    simpl.
  { intros [= <- <-]. split; [exact Hidx|constructor]. }
  simpl in Hidx, Hwk.
  destruct (line !! i) as [strField|]; [|discriminate].
  destruct (CanSet f) eqn:Hset; simpl.
  2:{ unfold indexed in *. rewrite Hset in *. simpl in *.
      intros H. eapply IH; eauto. }
  destruct (setField f strField (loadField h p i f)) as [v [e|]];
    [discriminate|].
  set (h1 := storeField h p i v).
  assert (Hps : forall q j, In q ps ->
            (h1 !! q ≫= (.!! j)) = (h !! q ≫= (.!! j))).
  { intros q j Hq. unfold h1. rewrite storeField_other; [reflexivity|].
    apply Hp. exact Hq. }
  assert (Hcols : columnsFrom h1 ps (S i) fs = columnsFrom h ps (S i) fs).
  { apply columnsFrom_ext. intros q j Hq _. apply Hps. exact Hq. }
  unfold indexed in Hidx, Hwk |- *. rewrite Hset in *. simpl in Hidx, Hwk |- *.
  destruct (isIndexTag f) eqn:Htag.
  2:{ intros H. rewrite <- Hcols in Hidx, Hwk. eapply IH; eauto. }
  assert (Hlk : idx !! iIndex = Some (column h ps i f)).
  { subst idx iIndex. apply list_lookup_middle. reflexivity. }
  rewrite Hlk.
  destruct (hashable (loadField h1 p i f)) eqn:Hhash; [|discriminate].
  simpl.
  destruct (lookupKey (column h ps i f) (loadField h1 p i f)) eqn:Hfresh;
    [discriminate|].
  intros H.
  pose proof (fieldLoop_frame _ _ _ _ _ _ _ _ _ _ _ H) as (_ & F2 & F3).
  rewrite mapassign_fresh in H by exact Hfresh.
  apply Forall_cons in Hwk as [Hwk0 Hwk].
  rewrite <- Hcols in Hwk.
  set (newcol := column h ps i f ++ [(loadField h1 p i f, Some p)]) in *.
  eapply (IH _ _ _ _ (done ++ [newcol]) tail) in H; [| |  |exact Hwk].
  - destruct H as [-> Hwk'].
    assert (Hnew : column h' (ps ++ [p]) i f = newcol).
    { rewrite column_snoc. unfold newcol. f_equal.
      - apply column_ext. intros q Hq.
        rewrite F2 by (apply Hp; exact Hq). apply Hps. exact Hq.
      - f_equal. f_equal. apply loadField_ext. apply F3. lia. }
    rewrite Hnew. split.
    + rewrite <- app_assoc. reflexivity.
    + constructor; [|exact Hwk'].
      unfold newcol. apply wellKeyed_snoc; auto.
  - rewrite length_app. simpl. lia.
  - subst idx iIndex. rewrite Hcols.
    rewrite insert_app_r_alt by lia.
    rewrite Nat.sub_diag. simpl. rewrite <- app_assoc. reflexivity.
Qed.

(** The field loop over a list of fields split in two. *)
Lemma fieldLoop_app n p rec line fs1 fs2 i iIndex (h : Heap) idx :
  fieldLoop n p rec line (fs1 ++ fs2) i iIndex h idx =
  match fieldLoop n p rec line fs1 i iIndex h idx with
  | (h1, Ok idx1) =>
      fieldLoop n p rec line fs2 (i + List.length fs1)
        (iIndex + List.length (List.filter indexed fs1)) h1 idx1
  | (h1, Err e) => (h1, Err e)
  | (h1, Panic q) => (h1, Panic q)
  end.
Proof.
  revert i iIndex h idx.
  induction fs1 as [|f fs1 IH]; intros i iIndex h idx; simpl.
  { replace (i + 0) with i by lia. replace (iIndex + 0) with iIndex by lia.
    reflexivity. }
  replace (i + S (List.length fs1)) with (S i + List.length fs1) by lia.
  destruct (line !! i) as [strField|]; [|reflexivity].
  unfold indexed at 1.
  destruct (CanSet f); simpl; [|apply IH].
  destruct (setField f strField (loadField h p i f)) as [v [e|]];
    [reflexivity|].
  destruct (isIndexTag f); simpl; [|apply IH].
  destruct (idx !! iIndex) as [index|]; [|reflexivity].
  destruct (negb (hashable _)); [reflexivity|].
  destruct (lookupKey index _); [reflexivity|].
  rewrite IH.
  replace (S iIndex + List.length (List.filter indexed fs1))
    with (iIndex + S (List.length (List.filter indexed fs1))) by lia.
  reflexivity.
Qed.

(** All rows: the indexes are the columns of the records made so far. *)
Lemma rowLoop_columns t rows :
  forall n (h : Heap) recs idx ps tail h' recs' idx',
  1 <= n ->
  (forall q, In q ps -> q < List.length h) ->
  idx = columnsFrom h ps 0 (Fields t) ++ tail ->
  Forall wellKeyed (columnsFrom h ps 0 (Fields t)) ->
  rowLoop t n rows h recs idx = (h', Ok (recs', idx')) ->
  let ps' := ps ++ seq (List.length h) (List.length rows) in
  idx' = columnsFrom h' ps' 0 (Fields t) ++ tail
  /\ Forall wellKeyed (columnsFrom h' ps' 0 (Fields t)).
Proof.
  induction rows as [|line rows IH];
    intros n h recs idx ps tail h' recs' idx' Hn Hps Hidx Hwk; simpl.
  { intros [= <- <- <-]. rewrite app_nil_r. auto. }
  destruct (n - 1 <? List.length recs) eqn:Hb; simpl; [|discriminate].
  apply Nat.ltb_lt in Hb.
  destruct (negb (List.length line =? NumField t)); [discriminate|].
  rewrite list_lookup_insert_eq by exact Hb. simpl.
  set (h1 := h ++ [List.map zeroValue (Fields t)]).
  assert (Hcols : columnsFrom h1 ps 0 (Fields t) = columnsFrom h ps 0 (Fields t)).
  { apply columnsFrom_ext. intros q j Hq _. unfold h1.
    rewrite lookup_app_l by (apply Hps; exact Hq). reflexivity. }
  destruct (fieldLoop _ _ _ _ _ _ _ _ _) as [h2 [idx2|e|q1]] eqn:Hf;
    [|discriminate|discriminate].
  pose proof (fieldLoop_frame _ _ _ _ _ _ _ _ _ _ _ Hf) as (F1 & _ & _).
  eapply (fieldLoop_columns _ _ _ ps) with (done := []) (tail := tail) in Hf.
  - destruct Hf as [Hidx2 Hwk2]. simpl in Hidx2.
    intros H.
    eapply (IH _ _ _ _ (ps ++ [List.length h]) tail) in H;
      [| lia | | exact Hidx2 | exact Hwk2].
    + assert (E : (ps ++ [List.length h])
                  ++ seq (List.length h2) (List.length rows)
                = ps ++ List.length h :: seq (S (List.length h)) (List.length rows)).
      { rewrite <- app_assoc. simpl. rewrite F1. unfold h1.
        rewrite length_app. simpl.
        replace (List.length h + 1) with (S (List.length h)) by lia.
        reflexivity. }
      rewrite E in H. exact H.
    + intros q Hq. rewrite F1. unfold h1. rewrite length_app. simpl.
      apply in_app_or in Hq as [Hq|[<-|[]]]; [apply Hps in Hq|]; lia.
  - intros q Hq. apply Hps in Hq. lia.
  - reflexivity.
  - simpl. rewrite Hcols. exact Hidx.
  - rewrite Hcols. exact Hwk.
Qed.

(* ===================================================================== *)
(** ** What the records hold *)
(* ===================================================================== *)

(** After the field loop has passed, each field from [i] on that can be
    set holds what the coercer made of its token, starting from the value
    the field had; the others are as they were. *)
Lemma fieldLoop_values n p rec line :
  forall fs i iIndex (h : Heap) idx h' idx' len,
  fieldLoop n p rec line fs i iIndex h idx = (h', Ok idx') ->
  List.length <$> (h !! p) = Some len ->
  i + List.length fs <= len ->
  forall j f, fs !! j = Some f ->
    if CanSet f
    then exists tok, line !! (i + j) = Some tok
           /\ setField f tok (loadField h p (i + j) f)
              = (loadField h' p (i + j) f, None)
    else loadField h' p (i + j) f = loadField h p (i + j) f.
Proof.
  induction fs as [|f0 fs IH]; intros i iIndex h idx h' idx' len Hloop Hp Hlen j f Hj.
  { destruct j; discriminate. }
  simpl in Hloop, Hlen.
  destruct (line !! i) as [strField|] eqn:Hline; [|discriminate].
  destruct (CanSet f0) eqn:Hset0; simpl in Hloop.
  - destruct (setField f0 strField (loadField h p i f0)) as [v [e|]] eqn:Hcoerce;
      [discriminate|].
    set (h1 := storeField h p i v) in *.
    assert (Hrest : exists iIndex1 idx1,
              fieldLoop n p rec line fs (S i) iIndex1 h1 idx1 = (h', Ok idx')).
    { destruct (isIndexTag f0); [|eauto].
      destruct (idx !! iIndex) as [index|]; [|discriminate].
      destruct (negb (hashable _)); [discriminate|].
      destruct (lookupKey index _); [discriminate|]. eauto. }
    destruct Hrest as (iIndex1 & idx1 & Hrest).
    assert (Hp1 : List.length <$> (h1 !! p) = Some len).
    { unfold h1. rewrite storeField_shape. exact Hp. }
    destruct j as [|j]; simpl in Hj.
    + injection Hj as <-. rewrite Hset0. exists strField.
      replace (i + 0) with i by lia. split; [exact Hline|].
      rewrite Hcoerce. f_equal.
      pose proof (fieldLoop_frame _ _ _ _ _ _ _ _ _ _ _ Hrest) as (_ & _ & F3).
      rewrite (loadField_ext h1 h' p i f0) by (apply F3; lia).
      unfold h1. symmetry. apply (loadField_storeField _ _ _ _ _ len); [exact Hp|lia].
    + replace (i + S j) with (S i + j) by lia.
      pose proof (IH _ _ _ _ _ _ len Hrest Hp1 ltac:(lia) j f Hj) as Hf.
      assert (E : loadField h1 p (S i + j) f = loadField h p (S i + j) f).
      { apply loadField_ext. unfold h1. apply storeField_other_field. lia. }
      rewrite E in Hf. exact Hf.
  - destruct j as [|j]; simpl in Hj.
    + injection Hj as <-. rewrite Hset0. replace (i + 0) with i by lia.
      pose proof (fieldLoop_frame _ _ _ _ _ _ _ _ _ _ _ Hloop) as (_ & _ & F3).
      apply loadField_ext. apply F3. lia.
    + replace (i + S j) with (S i + j) by lia.
      apply (IH _ _ _ _ _ _ len Hloop Hp ltac:(lia) j f Hj).
Qed.

Lemma loadField_fresh (h : Heap) (fs : list StructField) i f :
  fs !! i = Some f ->
  loadField (h ++ [List.map zeroValue fs]) (List.length h) i f = zeroValue f.
Proof.
  intros Hi. unfold loadField.
  rewrite list_lookup_middle by reflexivity. simpl.
  assert (E : List.map zeroValue fs !! i = Some (zeroValue f)).
  { revert i Hi. induction fs as [|f0 fs IH]; intros [|i] Hi; simpl in *;
      try discriminate; [injection Hi as ->; reflexivity|auto]. }
  rewrite E. reflexivity.
Qed.

(** All rows: the record of data row [r] holds, in each field that can
    be set, what the coercer made of the row's token from the zero
    value, and the zero value in each other field. *)
Lemma rowLoop_values t rows :
  forall n (h : Heap) recs idx h' recs' idx',
  rowLoop t n rows h recs idx = (h', Ok (recs', idx')) ->
  forall r row i f,
  rows !! r = Some row -> Fields t !! i = Some f ->
  if CanSet f
  then exists tok, row !! i = Some tok
         /\ setField f tok (zeroValue f)
            = (loadField h' (List.length h + r) i f, None)
  else loadField h' (List.length h + r) i f = zeroValue f.
Proof.
  induction rows as [|line rows IH]; intros n h recs idx h' recs' idx' Hloop r row i f Hr Hi.
  { destruct r; discriminate. }
  simpl in Hloop.
  destruct (negb (n - 1 <? List.length recs)); [discriminate|].
  destruct (negb (List.length line =? NumField t)); [discriminate|].
  set (h1 := h ++ [List.map zeroValue (Fields t)]) in *.
  destruct (fieldLoop _ _ _ _ _ _ _ _ _) as [h2 [idx2|e|q1]] eqn:Hf;
    [|discriminate|discriminate].
  pose proof (fieldLoop_frame _ _ _ _ _ _ _ _ _ _ _ Hf) as (F1 & _ & _).
  assert (Hlen1 : List.length h1 = S (List.length h)).
  { unfold h1. rewrite length_app. simpl. lia. }
  destruct r as [|r]; simpl in Hr.
  - injection Hr as <-. replace (List.length h + 0) with (List.length h) by lia.
    pose proof (rowLoop_frame _ _ _ _ _ _ _ _ Hloop) as [_ Hkeep].
    assert (E : loadField h' (List.length h) i f = loadField h2 (List.length h) i f).
    { unfold loadField. rewrite Hkeep by lia. reflexivity. }
    rewrite E.
    assert (Hp : List.length <$> (h1 !! List.length h)
                 = Some (List.length (Fields t))).
    { unfold h1. rewrite list_lookup_middle by reflexivity. simpl.
      rewrite length_map. reflexivity. }
    pose proof (fieldLoop_values _ _ _ _ _ _ _ _ _ _ _ _ Hf Hp ltac:(simpl; lia)
                  i f Hi) as Hv.
    simpl in Hv. unfold h1 in Hv. rewrite (loadField_fresh h _ i f Hi) in Hv.
    exact Hv.
  - replace (List.length h + S r) with (List.length h2 + r) by lia.
    apply (IH _ _ _ _ _ _ _ Hloop r row i f Hr Hi).
Qed.

(* ===================================================================== *)
(** ** The loaded store *)
(* ===================================================================== *)

Lemma Indexes_in_range rf s :
  s < List.length (indexes rf) ->
  Indexes rf (Z.of_nat s) = Ok (indexes rf !! s).
Proof.
  intros Hs. unfold Indexes.
  destruct (Z.of_nat (List.length (indexes rf)) <=? Z.of_nat s)%Z eqn:E1;
    [apply Z.leb_le in E1; lia|].
  destruct (Z.of_nat s <? 0)%Z eqn:E2; [apply Z.ltb_lt in E2; lia|].
  rewrite Nat2Z.id. reflexivity.
Qed.

Lemma Record_in_range rf r :
  r < List.length (records rf) ->
  Record_ rf (Z.of_nat r) = Ok (mjoin (records rf !! r)).
Proof.
  intros Hr. unfold Record_.
  destruct (0 <=? Z.of_nat r)%Z eqn:E1; [|apply Z.leb_gt in E1; lia].
  destruct (Z.of_nat r <? Z.of_nat (List.length (records rf)))%Z eqn:E2;
    [|apply Z.ltb_ge in E2; lia].
  rewrite Nat2Z.id. reflexivity.
Qed.

Lemma column_lookup (h : Heap) ps i f a :
  column h ps i f !! a
  = (fun p => (loadField h p i f, Some p)) <$> (ps !! a).
Proof.
  unfold column. revert a. induction ps as [|p ps IH]; intros a.
  - destruct a; reflexivity.
  - destruct a as [|a]; simpl; [reflexivity|apply IH].
Qed.

(** After a successful load from the rows [hdr :: rows]: row [r] of the
    data rows owns the record at address [length h + r], and the indexes
    are the columns of these records, followed by the maps that stay
    empty. *)
Lemma load_columns rf hdr rows (h : Heap) h' rf' :
  load rf (hdr :: rows) h = (h', rf', Ok tt) ->
  let fs := Fields (typeRecord rf) in
  let ps := seq (List.length h) (List.length rows) in
  typeRecord rf' = typeRecord rf
  /\ List.length h' = List.length h + List.length rows
  /\ List.length (records rf') = List.length rows
  /\ (forall r, r < List.length rows ->
        records rf' !! r = Some (Some (List.length h + r)))
  /\ indexes rf' =
       columnsFrom h' ps 0 fs
       ++ replicate (List.length (List.filter isIndexTag fs)
                     - List.length (List.filter indexed fs)) []
  /\ Forall wellKeyed (columnsFrom h' ps 0 fs).
Proof.
  rewrite load_cons.
  destruct (rowLoop _ _ _ _ _ _) as [h1 [[recs idx]|e1|q1]] eqn:Hl;
    [|discriminate|discriminate].
  intros [= <- <-]. simpl.
  pose proof (rowLoop_length_recs _ _ _ _ _ _ _ _ _ Hl) as Hlen.
  rewrite length_replicate in Hlen.
  pose proof (rowLoop_records _ _ _ _ _ _ _ _ _ (le_n 1) Hl) as (H1 & H2 & _).
  eapply (rowLoop_columns _ _ _ _ _ _ []) in Hl.
  - simpl in Hl. destruct Hl as [Hidx Hwk].
    split; [reflexivity|]. split; [exact H1|]. split; [exact Hlen|].
    split; [intros r Hr; apply (H2 r Hr)|].
    split; [exact Hidx|exact Hwk].
  - lia.
  - intros q [].
  - apply makeIndexes_columns.
  - rewrite columnsFrom_nil. apply Forall_replicate. apply wellKeyed_nil.
Qed.

(** After a successful load each record holds what the coercer made
    of the tokens of its row. *)
Lemma load_values rf hdr rows (h : Heap) h' rf' :
  load rf (hdr :: rows) h = (h', rf', Ok tt) ->
  forall r row i f,
  rows !! r = Some row -> Fields (typeRecord rf) !! i = Some f ->
  if CanSet f
  then exists tok, row !! i = Some tok
         /\ setField f tok (zeroValue f)
            = (loadField h' (List.length h + r) i f, None)
  else loadField h' (List.length h + r) i f = zeroValue f.
Proof.
  rewrite load_cons.
  destruct (rowLoop _ _ _ _ _ _) as [h1 [[recs idx]|e1|q1]] eqn:Hl;
    [|discriminate|discriminate].
  intros [= <- <-]. eapply rowLoop_values. exact Hl.
Qed.

(** C3, as amended: after a successful [Read], for a field that is
    tagged [index] and can be set, with every tagged field declared
    before it settable as well.  Each record holds in the field what the
    coercer made of the token of its row, and the index in the field's
    slot maps that value to a reference to that very record, provided
    the value equals itself (every value but a floating-point NaN);
    [Index] does so for the field of slot 0.  A hashable key that equals
    the value of no record is absent. *)
Theorem index_finds_record g disk name (h : Heap) rf h' rf' :
  Read g disk name h rf = (h', rf', Ok tt) ->
  forall i f,
  Fields (typeRecord rf) !! i = Some f ->
  isIndexTag f = true ->
  CanSet f = true ->
  (forall j fj, j < i -> Fields (typeRecord rf) !! j = Some fj ->
     isIndexTag fj = true -> CanSet fj = true) ->
  let slot := slotOf (Fields (typeRecord rf)) i in
  (exists content hdr rows,
     disk name = inl content
     /\ tokenize (withDefaults g rf) content = hdr :: rows
     /\ NumRecord rf' = List.length rows
     /\ forall r row tok,
          rows !! r = Some row -> row !! i = Some tok ->
          setField f tok (zeroValue f)
          = (loadField h' (List.length h + r) i f, None))
  /\ exists index,
    Indexes rf' (Z.of_nat slot) = Ok (Some index)
    /\ (forall r, r < NumRecord rf' ->
          let p := List.length h + r in
          let key := loadField h' p i f in
          Record_ rf' (Z.of_nat r) = Ok (Some p)
          /\ hashable key = true
          /\ (keyEq key key = true ->
                mapaccess (Some index) key = Ok (Some p)
                /\ (slot = 0 -> Index_ rf' key = Ok (Some p))))
    /\ (forall k,
          hashable k = true ->
          (forall r, r < NumRecord rf' ->
             keyEq (loadField h' (List.length h + r) i f) k = false) ->
          mapaccess (Some index) k = Ok None
          /\ (slot = 0 -> Index_ rf' k = Ok None)).
Proof.
  rewrite Read_unfold.
  destruct (disk name) as [content|msg]; [|discriminate].
  destruct (tokenize (withDefaults g rf) content) as [|hdr rows] eqn:Htok.
  { rewrite load_nil. discriminate. }
  intros Hload i f Hi Htag Hset Hbefore slot.
  pose proof (load_values _ _ _ _ _ _ Hload) as Hvals.
  apply load_columns in Hload. simpl in Hload.
  destruct Hload as (_ & Hlen & Hrecs & Hrec & Hidx & Hwk).
  split.
  { exists content, hdr, rows.
    split; [reflexivity|]. split; [exact Htok|]. split; [exact Hrecs|].
    intros r row tok Hr Ht.
    specialize (Hvals r row i f Hr Hi). rewrite Hset in Hvals.
    destruct Hvals as (tok0 & Ht0 & Hv). congruence. }
  set (fs := Fields (typeRecord rf)) in *.
  set (ps := seq (List.length h) (List.length rows)) in *.
  assert (Hind : indexed f = true) by (unfold indexed; rewrite Hset, Htag; reflexivity).
  assert (Hslot : slot = List.length (List.filter indexed (take i fs)))
    by (apply slotOf_indexed; exact Hbefore).
  pose proof (columnsFrom_lookup h' ps 0 fs i f Hi Hind) as Hcol.
  rewrite <- Hslot in Hcol. simpl in Hcol.
  assert (Hlk : indexes rf' !! slot = Some (column h' ps i f)).
  { rewrite Hidx. rewrite lookup_app_l; [exact Hcol|].
    eapply lookup_lt_Some. exact Hcol. }
  assert (Hwkc : wellKeyed (column h' ps i f)).
  { eapply Forall_lookup_1; [exact Hwk|exact Hcol]. }
  assert (Hent : forall r, r < List.length rows ->
            column h' ps i f !! r
            = Some (loadField h' (List.length h + r) i f,
                    Some (List.length h + r))).
  { intros r Hr. rewrite column_lookup. unfold ps.
    rewrite lookup_seq_lt by exact Hr. reflexivity. }
  assert (Hzero : forall k, slot = 0 ->
            Index_ rf' k = mapaccess (Some (column h' ps i f)) k).
  { intros k H0. unfold Index_.
    change 0%Z with (Z.of_nat 0). rewrite Indexes_in_range.
    - rewrite <- H0, Hlk. reflexivity.
    - rewrite <- H0. eapply lookup_lt_Some. exact Hlk. }
  exists (column h' ps i f). split; [|split].
  - rewrite Indexes_in_range by (eapply lookup_lt_Some; exact Hlk).
    rewrite Hlk. reflexivity.
  - unfold NumRecord. rewrite Hrecs. intros r Hr.
    set (p := List.length h + r). set (key := loadField h' p i f).
    assert (Hkey : hashable key = true).
    { destruct Hwkc as [Hh _]. eapply Hh. apply Hent. exact Hr. }
    split; [|split; [exact Hkey|]].
    + rewrite Record_in_range by lia. rewrite Hrec by exact Hr. reflexivity.
    + intros Hrefl.
      assert (Hm : mapaccess (Some (column h' ps i f)) key = Ok (Some p)).
      { unfold mapaccess. rewrite Hkey. simpl.
        rewrite (lookupKey_found _ r key (Some p) Hwkc (Hent r Hr) Hrefl).
        reflexivity. }
      split; [exact Hm|]. intros H0. rewrite Hzero by exact H0. exact Hm.
  - unfold NumRecord. rewrite Hrecs. intros k Hk Hno.
    assert (Hm : mapaccess (Some (column h' ps i f)) k = Ok None).
    { unfold mapaccess. rewrite Hk. simpl.
      assert (Hn : lookupKey (column h' ps i f) k = None).
      { apply lookupKey_None. intros a ka va Ha.
        assert (Hlt : a < List.length rows).
        { apply lookup_lt_Some in Ha. unfold column, ps in Ha.
          rewrite length_map, length_seq in Ha. exact Ha. }
        rewrite (Hent a Hlt) in Ha. injection Ha as <- <-.
        apply Hno. exact Hlt. }
      rewrite Hn. reflexivity. }
    split; [exact Hm|]. intros H0. rewrite Hzero by exact H0. exact Hm.
Qed.

(* ===================================================================== *)
(** ** Duplicate keys *)
(* ===================================================================== *)

(** C4, as amended.  In a store that [Read] has filled, no two records
    hold equal ([==]) values in a field that is tagged [index] and can be
    set: a file with such a pair does not load.  When the rows before
    row [n] load, the fields of row [n] before field [i] pass, and the
    value row [n] gives field [i] equals the one an earlier row gave it,
    [Read] returns the duplicate error with that row number and column,
    and the receiver keeps its records and indexes. *)
Theorem duplicate_key_fails g disk name (h : Heap) rf :
  (forall h' rf' i f a c,
     Read g disk name h rf = (h', rf', Ok tt) ->
     Fields (typeRecord rf) !! i = Some f ->
     isIndexTag f = true -> CanSet f = true ->
     a < c -> c < NumRecord rf' ->
     keyEq (loadField h' (List.length h + a) i f)
           (loadField h' (List.length h + c) i f) = false)
  /\ (forall content hdr pre row post i f tok v h1 rf1 h2 idx2 m,
        let t := typeRecord rf in
        let n := S (List.length pre) in
        let p := List.length h1 in
        disk name = inl content ->
        tokenize (withDefaults g rf) content = hdr :: pre ++ row :: post ->
        Fields t !! i = Some f ->
        isIndexTag f = true -> CanSet f = true ->
        List.length row = NumField t ->
        row !! i = Some tok ->
        load (withDefaults g rf) (hdr :: pre) h = (h1, rf1, Ok tt) ->
        fieldLoop n p (Some p) row (take i (Fields t)) 0 0
          (h1 ++ [List.map zeroValue (Fields t)]) (indexes rf1)
          = (h2, Ok idx2) ->
        setField f tok (loadField h2 p i f) = (v, None) ->
        hashable v = true ->
        m < List.length pre ->
        keyEq (loadField h1 (List.length h + m) i f) v = true ->
        Read g disk name h rf
        = (storeField h2 p i v, withDefaults g rf,
           Err (ErrDuplicateIndex n i))).
Proof.
  split.
  - intros h' rf' i f a c. rewrite Read_unfold.
    destruct (disk name) as [content|msg]; [|discriminate].
    destruct (tokenize (withDefaults g rf) content) as [|hdr rows].
    { rewrite load_nil. discriminate. }
    intros Hload Hi Htag Hset Hac Hc.
    apply load_columns in Hload. simpl in Hload.
    destruct Hload as (_ & _ & Hrecs & _ & _ & Hwk).
    unfold NumRecord in Hc. rewrite Hrecs in Hc.
    assert (Hind : indexed f = true)
      by (unfold indexed; rewrite Hset, Htag; reflexivity).
    pose proof (columnsFrom_lookup h'
                  (seq (List.length h) (List.length rows)) 0 _ i f Hi Hind)
      as Hcol.
    simpl in Hcol.
    pose proof (Forall_lookup_1 _ _ _ _ Hwk Hcol) as [_ Hd].
    eapply (Hd a c); [exact Hac| |];
      rewrite column_lookup, lookup_seq_lt by lia; reflexivity.
  - intros content hdr pre row post i f tok v h1 rf1 h2 idx2 m t n p
      Hd Ht Hi Htag Hset Hrow Htok Hpre Hfield Hcoerce Hhash Hm Heq.
    subst t. change (typeRecord (withDefaults g rf)) with (typeRecord rf) in *.
    rewrite Read_unfold, Hd, Ht.
    destruct (load_prefix _ _ _ (row :: post) _ _ _ Hpre)
      as (recs1 & Hlen & Hsplit).
    rewrite load_cons, Hsplit.
    apply load_columns in Hpre. simpl in Hpre.
    destruct Hpre as (_ & Hlen1 & _ & _ & Hidx & Hwk).
    set (fs := Fields (typeRecord rf)) in *.
    set (ps := seq (List.length h) (List.length pre)) in *.
    set (tail := replicate _ _) in Hidx.
    set (hh := h1 ++ [List.map zeroValue fs]) in *.
    assert (Hps : forall q, In q ps -> q < List.length h1).
    { intros q Hq. unfold ps in Hq. apply in_seq in Hq. lia. }
    assert (Hilt : i < List.length fs) by (eapply lookup_lt_Some; exact Hi).
    assert (Htake : List.length (take i fs) = i) by (rewrite length_take; lia).
    assert (Hfs : take i fs ++ f :: drop (S i) fs = fs)
      by (apply take_drop_middle; exact Hi).
    assert (Hind : indexed f = true)
      by (unfold indexed; rewrite Hset, Htag; reflexivity).
    (* the indexes when field [i] of the row is reached *)
    assert (Hcols : indexes rf1 =
              [] ++ columnsFrom hh ps 0 (take i fs)
              ++ (column h1 ps i f :: columnsFrom h1 ps (S i) (drop (S i) fs)
                  ++ tail)).
    { rewrite Hidx. rewrite <- Hfs at 1.
      rewrite columnsFrom_app, Htake. simpl. rewrite Hind.
      rewrite <- app_assoc. simpl. f_equal.
      symmetry. apply columnsFrom_ext. intros q j Hq _. unfold hh.
      rewrite lookup_app_l by (apply Hps; exact Hq). reflexivity. }
    assert (Hwk' : Forall wellKeyed (columnsFrom hh ps 0 (take i fs))).
    { assert (E : columnsFrom hh ps 0 (take i fs)
                  = columnsFrom h1 ps 0 (take i fs)).
      { apply columnsFrom_ext. intros q j Hq _. unfold hh.
        rewrite lookup_app_l by (apply Hps; exact Hq). reflexivity. }
      rewrite E. rewrite <- Hfs, columnsFrom_app in Hwk.
      apply Forall_app in Hwk as [Hwk _]. exact Hwk. }
    pose proof (fieldLoop_shape _ _ _ _ _ _ _ _ _ _ _ Hfield p) as Hshape.
    pose proof (fieldLoop_columns n p row ps
                  ltac:(intros q Hq; apply Hps in Hq; unfold p; lia)
                  _ _ _ _ _ _ _ _ _ eq_refl Hcols Hwk' Hfield) as [Hidx2 _].
    simpl in Hidx2.
    assert (Hslot : idx2 !! List.length (List.filter indexed (take i fs))
                    = Some (column h1 ps i f)).
    { rewrite Hidx2. apply list_lookup_middle. symmetry.
      apply columnsFrom_length. }
    assert (Hkey : loadField (storeField h2 p i v) p i f = v).
    { apply (loadField_storeField _ _ _ _ _ (List.length fs)); [|exact Hilt].
      rewrite Hshape. unfold hh, p.
      rewrite list_lookup_middle by reflexivity. simpl.
      rewrite length_map. reflexivity. }
    assert (Hdup : is_Some (lookupKey (column h1 ps i f) v)).
    { apply (lookupKey_present _ m (loadField h1 (List.length h + m) i f)
               (Some (List.length h + m))); [|exact Heq].
      rewrite column_lookup. unfold ps. rewrite lookup_seq_lt by exact Hm.
      reflexivity. }
    (* the row loop at row [n] *)
    simpl rowLoop. fold fs. fold hh. fold p. rewrite !Nat.sub_0_r.
    assert (Hb : (List.length pre <? List.length recs1) = true).
    { apply Nat.ltb_lt. rewrite Hlen, length_app. simpl. lia. }
    rewrite Hb. simpl negb.
    assert (Hcnt : (List.length row =? NumField (typeRecord rf)) = true).
    { apply Nat.eqb_eq. exact Hrow. }
    rewrite Hcnt. simpl negb. cbv iota.
    rewrite list_lookup_insert_eq by (apply Nat.ltb_lt; exact Hb).
    simpl mjoin.
    pose proof (fieldLoop_app n p (Some p) row
                  (take i fs) (f :: drop (S i) fs) 0 0 hh (indexes rf1))
      as Happ.
    rewrite Hfs in Happ. fold n. rewrite Happ, Hfield.
    rewrite Htake. simpl.
    rewrite Htok, Hset. simpl. rewrite Hcoerce, Htag, Hslot, Hkey, Hhash.
    simpl. destruct Hdup as [x Hx]. rewrite Hx. reflexivity.
Qed.

(* ===================================================================== *)
(** ** [strconv.ParseUint] and [strconv.ParseInt] with base 0 *)
(* ===================================================================== *)

Section Strconv.
Import strconv numeral.
Local Open Scope Z_scope.

Lemma digitOf_valid base c :
  validDigit base c = true ->
  digitOf true (byteOf c) = Digit (digitVal c)
  /\ 0 <= digitVal c < base.
Proof.
  unfold validDigit, digitVal, digitOf. simpl.
  destruct (byteOf c =? 95) eqn:E.
  - apply Z.eqb_eq in E. rewrite E. simpl. discriminate.
  - rewrite andb_false_r. simpl.
    destruct ((48 <=? byteOf c) && (byteOf c <=? 57)) eqn:E1.
    + intros H. apply Z.ltb_lt in H. apply andb_true_iff in E1 as [E1 _].
      apply Z.leb_le in E1. split; [reflexivity|lia].
    + destruct ((97 <=? lower (byteOf c)) && (lower (byteOf c) <=? 122)) eqn:E2;
        [|discriminate].
      intros H. apply Z.ltb_lt in H. apply andb_true_iff in E2 as [E2 _].
      apply Z.leb_le in E2. split; [reflexivity|lia].
Qed.

Lemma digitsValue_mono base s acc :
  1 <= base -> 0 <= acc -> acc <= digitsValue base s acc.
Proof.
  intros Hb. revert acc. induction s as [|c r IH]; intros acc Hacc; simpl; [lia|].
  assert (0 <= digitVal c).
  { unfold digitVal, digitOf. rewrite andb_false_r.
    destruct ((48 <=? byteOf c) && (byteOf c <=? 57)) eqn:E1.
    - apply andb_true_iff in E1 as [E1 _]. apply Z.leb_le in E1. lia.
    - destruct ((97 <=? lower (byteOf c)) && (lower (byteOf c) <=? 122)) eqn:E2;
        [|lia].
      apply andb_true_iff in E2 as [E2 _]. apply Z.leb_le in E2. lia. }
  etransitivity; [|apply IH; nia]. nia.
Qed.

(** The digit loop on digits of the base: the number they write, or a
    range error as soon as it passes [maxVal]. *)
Lemma parseDigits_value base maxVal s n u :
  2 <= base <= 36 -> 0 <= n <= maxVal -> maxVal <= maxUint64 ->
  validDigits base s = true ->
  parseDigits true base (maxUint64 / base + 1) maxVal s n u =
  if digitsValue base s n <=? maxVal
  then inl (digitsValue base s n, u) else inr ErrRange.
Proof.
  intros Hb. revert n. induction s as [|c r IH]; intros n Hn Hmax Hv; simpl.
  { destruct (n <=? maxVal) eqn:E; [reflexivity|apply Z.leb_gt in E; lia]. }
  simpl in Hv. apply andb_true_iff in Hv as [Hc Hr].
  destruct (digitOf_valid base c Hc) as [-> Hd].
  destruct (base <=? digitVal c) eqn:E0; [apply Z.leb_le in E0; lia|].
  assert (Hmono := digitsValue_mono base r (n * base + digitVal c)
                     ltac:(lia) ltac:(nia)).
  assert (Hdiv1 : base * (maxUint64 / base) <= maxUint64)
    by (apply Z.mul_div_le; lia).
  assert (Hdiv2 : maxUint64 < base * Z.succ (maxUint64 / base))
    by (apply Z.mul_succ_div_gt; lia).
  assert (Hm64 : maxUint64 = 2 ^ 64 - 1) by reflexivity.
  destruct (maxUint64 / base + 1 <=? n) eqn:E1.
  { apply Z.leb_le in E1.
    destruct (_ <=? maxVal) eqn:E; [|reflexivity].
    apply Z.leb_le in E. nia. }
  apply Z.leb_gt in E1.
  assert (Hnb : 0 <= n * base <= maxUint64) by nia.
  rewrite (Z.mod_small (n * base)) by lia.
  destruct (n * base + digitVal c <? 2 ^ 64) eqn:E2.
  - apply Z.ltb_lt in E2.
    rewrite (Z.mod_small (n * base + digitVal c)) by lia.
    destruct (n * base + digitVal c <? n * base) eqn:E3;
      [apply Z.ltb_lt in E3; lia|].
    simpl. destruct (maxVal <? n * base + digitVal c) eqn:E4.
    + apply Z.ltb_lt in E4.
      destruct (_ <=? maxVal) eqn:E; [|reflexivity].
      apply Z.leb_le in E. lia.
    + apply Z.ltb_ge in E4. apply IH; [lia|lia|exact Hr].
  - apply Z.ltb_ge in E2.
    assert (Hw : (n * base + digitVal c) mod 2 ^ 64
                 = n * base + digitVal c - 2 ^ 64).
    { symmetry. apply (Z.mod_unique _ _ 1); lia. }
    rewrite Hw.
    destruct (n * base + digitVal c - 2 ^ 64 <? n * base) eqn:E3;
      [|apply Z.ltb_ge in E3; lia].
    simpl. destruct (_ <=? maxVal) eqn:E; [|reflexivity].
    apply Z.leb_le in E. lia.
Qed.

Lemma parseDigits_range base0 base cutoff maxVal s n u v u' :
  0 <= n <= maxVal ->
  parseDigits base0 base cutoff maxVal s n u = inl (v, u') ->
  0 <= v <= maxVal.
Proof.
  revert n u. induction s as [|c r IH]; intros n u Hn; simpl.
  { intros [= <- <-]. exact Hn. }
  destruct (digitOf base0 (byteOf c)) as [|d|]; [apply IH; exact Hn| |discriminate].
  destruct (base <=? d); [discriminate|].
  destruct (cutoff <=? n); [discriminate|].
  destruct (_ || _) eqn:E; [discriminate|].
  apply orb_false_iff in E as [_ E]. apply Z.ltb_ge in E.
  apply IH. split; [|exact E].
  apply Z.mod_pos_bound. lia.
Qed.

(** A byte that is no digit stops the digit loop with an error. *)
Lemma parseDigits_foreign base cutoff maxVal c s n u :
  contains c s = true ->
  digitOf true (byteOf c) = NotDigit ->
  exists e, parseDigits true base cutoff maxVal s n u = inr e.
Proof.
  intros Hc Hf. revert n u. induction s as [|c0 r IH]; intros n u; simpl in *;
    [discriminate|].
  destruct (Ascii.eqb c0 c) eqn:E.
  - apply Ascii.eqb_eq in E. subst c0. rewrite Hf. eauto.
  - simpl in Hc. destruct (digitOf true (byteOf c0)) as [|d|]; [apply IH; auto| |eauto].
    destruct (base <=? d); [eauto|].
    destruct (cutoff <=? n); [eauto|].
    destruct (_ || _); [eauto|]. apply IH; auto.
Qed.

Lemma width_bounds bitSize :
  width bitSize ->
  (bitSize =? 0)%nat = false /\ (64 <? bitSize)%nat = false
  /\ 0 < 2 ^ (Z.of_nat bitSize - 1)
  /\ 2 ^ Z.of_nat bitSize = 2 * 2 ^ (Z.of_nat bitSize - 1)
  /\ 2 ^ Z.of_nat bitSize - 1 <= maxUint64.
Proof.
  intros [->|[->|[->| ->]]]; repeat split; try reflexivity;
    vm_compute; congruence.
Qed.

(** [ParseUint] on a plain numeral: the base its prefix selects, then
    the number its digits write, if it fits the width. *)
Lemma ParseUint_basePrefix s base digits bitSize :
  width bitSize ->
  s <> EmptyString ->
  basePrefix s = (base, digits) ->
  validDigits base digits = true ->
  ParseUint s bitSize = unsignedAt bitSize (digitsValue base digits 0).
Proof.
  intros Hw Hs Hp Hv.
  destruct (width_bounds bitSize Hw) as (W0 & W1 & W2 & W3 & W4).
  assert (Hbase : 2 <= base <= 36).
  { destruct s as [|c0 r]; [congruence|]. simpl in Hp.
    destruct (byteOf c0 =? 48); [|injection Hp as <- _; lia].
    destruct r as [|c1 [|c2 r2]]; try (injection Hp as <- _; lia).
    destruct (lower (byteOf c1) =? 98); [injection Hp as <- _; lia|].
    destruct (lower (byteOf c1) =? 111); [injection Hp as <- _; lia|].
    destruct (lower (byteOf c1) =? 120); injection Hp as <- _; lia. }
  unfold ParseUint, parseUint0.
  destruct s as [|c0 r]; [congruence|].
  rewrite Hp, W0, W1.
  rewrite parseDigits_value by (auto; lia).
  unfold unsignedAt.
  destruct (digitsValue base digits 0 <=? 2 ^ Z.of_nat bitSize - 1) eqn:E.
  - apply Z.leb_le in E.
    destruct (_ <? 2 ^ Z.of_nat bitSize) eqn:E'; [reflexivity|].
    apply Z.ltb_ge in E'. lia.
  - apply Z.leb_gt in E.
    destruct (_ <? 2 ^ Z.of_nat bitSize) eqn:E'; [|reflexivity].
    apply Z.ltb_lt in E'. lia.
Qed.

Lemma validDigit_octal c :
  validDigit 8 c = true ->
  (lower (byteOf c) =? 98) = false /\ (lower (byteOf c) =? 111) = false
  /\ (lower (byteOf c) =? 120) = false.
Proof.
  destruct c as [[] [] [] [] [] [] [] []]; vm_compute; intros H;
    try discriminate; repeat split.
Qed.

(** Leading [0x]: hexadecimal. *)
Lemma ParseUint_hex ds bitSize :
  width bitSize -> ds <> EmptyString -> validDigits 16 ds = true ->
  ParseUint (String zeroChar (String xChar ds)) bitSize
  = unsignedAt bitSize (digitsValue 16 ds 0).
Proof.
  intros Hw Hne Hv.
  apply (ParseUint_basePrefix _ 16 ds bitSize Hw); [discriminate| |exact Hv].
  destruct ds as [|c r]; [congruence|]. reflexivity.
Qed.

(** Leading [0b]: binary. *)
Lemma ParseUint_binary ds bitSize :
  width bitSize -> ds <> EmptyString -> validDigits 2 ds = true ->
  ParseUint (String zeroChar (String bChar ds)) bitSize
  = unsignedAt bitSize (digitsValue 2 ds 0).
Proof.
  intros Hw Hne Hv.
  apply (ParseUint_basePrefix _ 2 ds bitSize Hw); [discriminate| |exact Hv].
  destruct ds as [|c r]; [congruence|]. reflexivity.
Qed.

(** Leading [0o]: octal. *)
Lemma ParseUint_octal_o ds bitSize :
  width bitSize -> ds <> EmptyString -> validDigits 8 ds = true ->
  ParseUint (String zeroChar (String oChar ds)) bitSize
  = unsignedAt bitSize (digitsValue 8 ds 0).
Proof.
  intros Hw Hne Hv.
  apply (ParseUint_basePrefix _ 8 ds bitSize Hw); [discriminate| |exact Hv].
  destruct ds as [|c r]; [congruence|]. reflexivity.
Qed.

(** Leading [0]: octal. *)
Lemma ParseUint_octal ds bitSize :
  width bitSize -> validDigits 8 ds = true ->
  ParseUint (String zeroChar ds) bitSize
  = unsignedAt bitSize (digitsValue 8 ds 0).
Proof.
  intros Hw Hv.
  apply (ParseUint_basePrefix _ 8 ds bitSize Hw); [discriminate| |exact Hv].
  destruct ds as [|c1 [|c2 r2]]; try reflexivity.
  simpl in Hv. apply andb_true_iff in Hv as [Hc _].
  destruct (validDigit_octal c1 Hc) as (E1 & E2 & E3).
  unfold basePrefix.
  change (byteOf zeroChar =? 48) with true. cbv iota.
  rewrite E1, E2, E3. reflexivity.
Qed.

(** No leading [0]: decimal. *)
Lemma ParseUint_decimal c r bitSize :
  width bitSize -> c <> zeroChar -> validDigits 10 (String c r) = true ->
  ParseUint (String c r) bitSize
  = unsignedAt bitSize (digitsValue 10 (String c r) 0).
Proof.
  intros Hw Hc Hv.
  apply (ParseUint_basePrefix _ 10 (String c r) bitSize Hw);
    [discriminate| |exact Hv].
  unfold basePrefix.
  destruct (byteOf c =? 48) eqn:E; [|reflexivity].
  exfalso. apply Hc. apply Z.eqb_eq in E. unfold byteOf in E.
  rewrite <- (ascii_nat_embedding c).
  replace (nat_of_ascii c) with 48%nat by lia. reflexivity.
Qed.

Lemma ParseUint_range s bitSize v :
  width bitSize -> ParseUint s bitSize = inl v ->
  0 <= v < 2 ^ Z.of_nat bitSize.
Proof.
  intros Hw. destruct (width_bounds bitSize Hw) as (W0 & W1 & W2 & W3 & W4).
  unfold ParseUint, parseUint0. destruct s as [|c0 r]; [discriminate|].
  destruct (basePrefix (String c0 r)) as [base digits].
  rewrite W0, W1.
  destruct (parseDigits _ _ _ _ _ _ _) as [[n u]|e] eqn:E; [|discriminate].
  apply parseDigits_range in E; [|lia].
  destruct (u && _); [discriminate|]. intros [= <-]. lia.
Qed.

Lemma underscoreOK_sign c s :
  isSign c = true ->
  match s with String c1 _ => isSign c1 = false | EmptyString => True end ->
  underscoreOK (String c s) = underscoreOK s.
Proof.
  intros Hc Hs. unfold underscoreOK. rewrite Hc.
  destruct s as [|c1 r]; [reflexivity|]. rewrite Hs. reflexivity.
Qed.

(** [ParseInt] is [ParseUint] on what follows the sign, then the range
    check of the sign. *)
Lemma ParseInt_sign s bitSize :
  width bitSize ->
  match s with String c1 _ => isSign c1 = false | EmptyString => True end ->
  ParseInt s bitSize = signedAt bitSize false (ParseUint s bitSize)
  /\ ParseInt (String minusChar s) bitSize
     = signedAt bitSize true (ParseUint s bitSize)
  /\ ParseInt (String plusChar s) bitSize
     = signedAt bitSize false (ParseUint s bitSize).
Proof.
  intros Hw Hs. destruct (width_bounds bitSize Hw) as (W0 & _).
  assert (Hu : forall c, isSign c = true ->
            parseUint0 (String c s) s bitSize = ParseUint s bitSize).
  { intros c Hc. unfold ParseUint, parseUint0.
    destruct s as [|c0 r]; [reflexivity|].
    destruct (basePrefix (String c0 r)) as [base digits].
    destruct (_ <? _)%nat; [reflexivity|].
    destruct (parseDigits _ _ _ _ _ _ _) as [[n u]|e]; [|reflexivity].
    rewrite (underscoreOK_sign c (String c0 r) Hc Hs). reflexivity. }
  split; [|split].
  - destruct s as [|c r]; [reflexivity|]. unfold ParseInt.
    rewrite Hs.
    assert (E : (byteOf c =? 45) = false).
    { unfold isSign in Hs. apply orb_false_iff in Hs as [_ Hs]. exact Hs. }
    rewrite E. fold (ParseUint (String c r) bitSize).
    unfold signedAt. destruct (ParseUint _ _) as [un|e]; [|reflexivity].
    rewrite W0. simpl.
    destruct (2 ^ (Z.of_nat bitSize - 1) <=? un) eqn:E1;
      destruct (un <? 2 ^ (Z.of_nat bitSize - 1)) eqn:E2; try reflexivity;
      [apply Z.leb_le in E1; apply Z.ltb_lt in E2; lia
      |apply Z.leb_gt in E1; apply Z.ltb_ge in E2; lia].
  - unfold ParseInt. change (isSign minusChar) with true.
    change (byteOf minusChar =? 45) with true. cbv iota.
    rewrite (Hu minusChar eq_refl).
    unfold signedAt. destruct (ParseUint _ _) as [un|e]; [|reflexivity].
    rewrite W0. simpl.
    destruct (2 ^ (Z.of_nat bitSize - 1) <? un) eqn:E1;
      destruct (un <=? 2 ^ (Z.of_nat bitSize - 1)) eqn:E2; try reflexivity;
      [apply Z.ltb_lt in E1; apply Z.leb_le in E2; lia
      |apply Z.ltb_ge in E1; apply Z.leb_gt in E2; lia].
  - unfold ParseInt. change (isSign plusChar) with true.
    change (byteOf plusChar =? 45) with false. cbv iota.
    rewrite (Hu plusChar eq_refl).
    unfold signedAt. destruct (ParseUint _ _) as [un|e]; [|reflexivity].
    rewrite W0. simpl.
    destruct (2 ^ (Z.of_nat bitSize - 1) <=? un) eqn:E1;
      destruct (un <? 2 ^ (Z.of_nat bitSize - 1)) eqn:E2; try reflexivity;
      [apply Z.leb_le in E1; apply Z.ltb_lt in E2; lia
      |apply Z.leb_gt in E1; apply Z.ltb_ge in E2; lia].
Qed.

Lemma parseUint0_range s0 s bitSize v :
  width bitSize -> parseUint0 s0 s bitSize = inl v ->
  0 <= v < 2 ^ Z.of_nat bitSize.
Proof.
  intros Hw. destruct (width_bounds bitSize Hw) as (W0 & W1 & W2 & W3 & W4).
  unfold parseUint0. destruct s as [|c0 r]; [discriminate|].
  destruct (basePrefix (String c0 r)) as [base digits].
  rewrite W0, W1.
  destruct (parseDigits _ _ _ _ _ _ _) as [[n u]|e] eqn:E; [|discriminate].
  apply parseDigits_range in E; [|lia].
  destruct (u && _); [discriminate|]. intros [= <-]. lia.
Qed.

(** What [ParseInt] returns fits the signed width. *)
Lemma ParseInt_range s bitSize v :
  width bitSize -> ParseInt s bitSize = inl v ->
  - 2 ^ (Z.of_nat bitSize - 1) <= v < 2 ^ (Z.of_nat bitSize - 1).
Proof.
  intros Hw. destruct (width_bounds bitSize Hw) as (W0 & W1 & W2 & W3 & W4).
  unfold ParseInt. destruct s as [|c r]; [discriminate|].
  destruct (parseUint0 _ _ _) as [un|e] eqn:E; [|discriminate].
  apply parseUint0_range in E; [|exact Hw].
  rewrite W0.
  destruct (byteOf c =? 45); simpl.
  - destruct (2 ^ (Z.of_nat bitSize - 1) <? un) eqn:E1; [discriminate|].
    apply Z.ltb_ge in E1. intros [= <-]. lia.
  - destruct (2 ^ (Z.of_nat bitSize - 1) <=? un) eqn:E1; [discriminate|].
    apply Z.leb_gt in E1. intros [= <-]. lia.
Qed.

Lemma basePrefix_contains c s :
  digitOf true (byteOf c) = NotDigit ->
  contains c s = true -> contains c (snd (basePrefix s)) = true.
Proof.
  intros Hf. destruct s as [|c0 r]; [discriminate|].
  unfold basePrefix.
  destruct (byteOf c0 =? 48) eqn:E0; [|auto].
  assert (H0 : Ascii.eqb c0 c = false).
  { destruct (Ascii.eqb c0 c) eqn:E; [|reflexivity].
    apply Ascii.eqb_eq in E. subst c0. apply Z.eqb_eq in E0.
    unfold digitOf in Hf. rewrite E0 in Hf. discriminate. }
  simpl. rewrite H0. simpl.
  destruct r as [|c1 [|c2 r2]]; auto.
  assert (H1 : (lower (byteOf c1) =? 98) = true
               \/ (lower (byteOf c1) =? 111) = true
               \/ (lower (byteOf c1) =? 120) = true ->
               Ascii.eqb c1 c = false).
  { intros H. destruct (Ascii.eqb c1 c) eqn:E; [|reflexivity].
    apply Ascii.eqb_eq in E. subst c1. exfalso. revert Hf H. clear.
    destruct c as [[] [] [] [] [] [] [] []]; vm_compute;
      intros Hf [H|[H|H]]; discriminate. }
  destruct (lower (byteOf c1) =? 98) eqn:E1.
  { simpl. rewrite H1 by auto. auto. }
  destruct (lower (byteOf c1) =? 111) eqn:E2.
  { simpl. rewrite H1 by auto. auto. }
  destruct (lower (byteOf c1) =? 120) eqn:E3.
  { simpl. rewrite H1 by auto. auto. }
  auto.
Qed.

(** A token with a byte that is no digit, letter, underscore or sign is
    refused by both parsers. *)
Lemma parse_foreign c s bitSize :
  width bitSize -> foreign c = true -> contains c s = true ->
  (exists e, ParseUint s bitSize = inr e)
  /\ (exists e, ParseInt s bitSize = inr e).
Proof.
  intros Hw Hf Hc. destruct (width_bounds bitSize Hw) as (W0 & W1 & _).
  assert (Hnd : digitOf true (byteOf c) = NotDigit).
  { unfold foreign in Hf. destruct (digitOf true (byteOf c)); congruence. }
  assert (Hns : isSign c = false).
  { unfold foreign in Hf. rewrite Hnd in Hf. apply negb_true_iff. exact Hf. }
  assert (Hu : forall s0 s1, contains c s1 = true ->
            exists e, parseUint0 s0 s1 bitSize = inr e).
  { intros s0 s1 H1. unfold parseUint0.
    destruct s1 as [|c0 r]; [eauto|].
    pose proof (basePrefix_contains c (String c0 r) Hnd H1) as Hd.
    destruct (basePrefix (String c0 r)) as [base digits]. simpl in Hd.
    rewrite W0, W1.
    destruct (parseDigits_foreign base (maxUint64 / base + 1)
                (2 ^ Z.of_nat bitSize - 1) c digits 0 false Hd Hnd) as [e ->].
    eauto. }
  split; [apply Hu; exact Hc|].
  unfold ParseInt. destruct s as [|c0 r]; [eauto|].
  assert (Hc' : contains c (if isSign c0 then r else String c0 r) = true).
  { destruct (isSign c0) eqn:E; [|exact Hc].
    simpl in Hc. destruct (Ascii.eqb c0 c) eqn:E'; [|exact Hc].
    apply Ascii.eqb_eq in E'. congruence. }
  destruct (Hu (String c0 r) _ Hc') as [e ->]. eauto.
Qed.

(** A byte among the digits that is no digit of the base stops the
    digit loop with an error. *)
Lemma parseDigits_badDigit base cutoff maxVal c s n u :
  contains c s = true ->
  badDigit base c = true ->
  exists e, parseDigits true base cutoff maxVal s n u = inr e.
Proof.
  intros Hc Hb. unfold badDigit, validDigit in Hb.
  apply andb_true_iff in Hb as [Hv Hu]. apply negb_true_iff in Hu.
  assert (Hd : digitOf true (byteOf c) = digitOf false (byteOf c)).
  { unfold digitOf. rewrite Hu. reflexivity. }
  assert (Hnu : digitOf false (byteOf c) <> Underscore).
  { unfold digitOf. rewrite andb_false_r.
    destruct (_ && _); [discriminate|]. destruct (_ && _); discriminate. }
  revert n u. induction s as [|c0 r IH]; intros n u;
    cbn [contains parseDigits] in *; [discriminate|].
  destruct (Ascii.eqb c0 c) eqn:E.
  - apply Ascii.eqb_eq in E. subst c0. rewrite Hd.
    destruct (digitOf false (byteOf c)) as [|d|]; [congruence| |eauto].
    apply negb_true_iff, Z.ltb_ge in Hv.
    apply Z.leb_le in Hv. rewrite Hv. eauto.
  - simpl in Hc.
    destruct (digitOf true (byteOf c0)) as [|d|]; [apply IH; auto| |eauto].
    destruct (base <=? d); [eauto|].
    destruct (cutoff <=? n); [eauto|].
    destruct (_ || _); [eauto|]. apply IH; auto.
Qed.

(** A token one of whose digits, after the sign and the base prefix, is
    no digit of the base the prefix selects is refused, at any width:
    a letter in a decimal numeral, an [8] or [9] after a leading [0],
    a [2] after [0b]. *)
Lemma parseUint0_badDigit c s0 s bitSize :
  contains c (snd (basePrefix s)) = true ->
  badDigit (fst (basePrefix s)) c = true ->
  exists e, parseUint0 s0 s bitSize = inr e.
Proof.
  intros Hc Hb. unfold parseUint0. destruct s as [|c0 r]; [eauto|].
  destruct (basePrefix (String c0 r)) as [base digits]. simpl in Hc, Hb.
  destruct (Nat.ltb 64 _); [eauto|].
  destruct (parseDigits_badDigit base (maxUint64 / base + 1)
              (2 ^ Z.of_nat (if Nat.eqb bitSize 0 then IntSize else bitSize) - 1)
              c digits 0 false Hc Hb) as [e ->].
  eauto.
Qed.

Lemma ParseInt_badDigit c s bitSize :
  contains c (snd (basePrefix (magnitude s))) = true ->
  badDigit (fst (basePrefix (magnitude s))) c = true ->
  exists e, ParseInt s bitSize = inr e.
Proof.
  intros Hc Hb. unfold ParseInt. destruct s as [|c0 r]; [eauto|].
  unfold magnitude in Hc, Hb.
  destruct (parseUint0_badDigit c (String c0 r) _ bitSize Hc Hb) as [e ->].
  eauto.
Qed.

End Strconv.

(* ===================================================================== *)
(** ** The field coercer on numeric fields *)
(* ===================================================================== *)

Section Coercer.
Import numeral.

Lemma substring_all (s : string) : String.substring 0 (String.length s) s = s.
Proof. induction s as [|c r IH]; simpl; [reflexivity|]. rewrite IH. reflexivity. Qed.

Lemma prefix_empty (s : string) : String.prefix "" s = true.
Proof. destruct s; reflexivity. Qed.

Lemma stripAny_space c r :
  asciiSpace c = true -> strings.stripAny strings.spaceRunes (String c r) = Some r.
Proof.
  intros Hc.
  assert (E : String.substring 0 (String.length r - 0) r = r).
  { rewrite Nat.sub_0_r. apply substring_all. }
  revert Hc.
  destruct c as [[] [] [] [] [] [] [] []]; vm_compute asciiSpace;
    intros Hc; try discriminate;
    unfold strings.stripAny, strings.spaceRunes; simpl;
    rewrite prefix_empty, E; reflexivity.
Qed.

Lemma trimLeft_allSpace s fuel :
  allSpace s = true -> String.length s <= fuel ->
  strings.trimLeftBy strings.spaceRunes fuel s = "".
Proof.
  revert s. induction fuel as [|fuel IH]; intros s Hs Hlen.
  - destruct s; [reflexivity|simpl in Hlen; lia].
  - destruct s as [|c r]; [reflexivity|].
    simpl in Hs. apply andb_true_iff in Hs as [Hc Hr].
    cbn [strings.trimLeftBy]. rewrite (stripAny_space c r Hc).
    apply IH; [exact Hr|simpl in Hlen; lia].
Qed.

(** A token of ASCII white space only, the empty token among them, is
    blank for [TrimSpace]. *)
Lemma TrimSpace_allSpace s :
  allSpace s = true -> strings.TrimSpace s = "".
Proof.
  intros Hs. unfold strings.TrimSpace.
  rewrite trimLeft_allSpace by (auto; lia). reflexivity.
Qed.

Lemma Bits_width k :
  isInt k = true \/ isUint k = true -> width (Bits k).
Proof.
  unfold width. destruct k; simpl; intros [H|H]; try discriminate; auto.
Qed.

Lemma wrapSigned_id bits v :
  width bits ->
  (- 2 ^ (Z.of_nat bits - 1) <= v < 2 ^ (Z.of_nat bits - 1))%Z ->
  wrapSigned bits v = v.
Proof.
  intros Hw Hv. destruct (width_bounds bits Hw) as (_ & _ & W2 & W3 & _).
  unfold wrapSigned. rewrite Z.mod_small by lia. lia.
Qed.

Lemma wrapUnsigned_id bits v :
  (0 <= v < 2 ^ Z.of_nat bits)%Z -> wrapUnsigned bits v = v.
Proof. intros Hv. unfold wrapUnsigned. apply Z.mod_small. exact Hv. Qed.

Lemma blankToZero_blank tok :
  strings.TrimSpace tok = "" -> blankToZero tok = "0".
Proof. intros H. unfold blankToZero. rewrite H. reflexivity. Qed.

Lemma blankToZero_other tok :
  strings.TrimSpace tok <> "" -> blankToZero tok = tok.
Proof.
  intros H. unfold blankToZero.
  destruct (String.eqb _ "") eqn:E; [|reflexivity].
  apply String.eqb_eq in E. contradiction.
Qed.

Lemma setField_int f tok cur :
  isInt (FieldKind f) = true ->
  setField f tok cur =
  match strconv.ParseInt (blankToZero tok) (Bits (FieldKind f)) with
  | inl v => (VInt v, None)
  | inr e => (cur, Some (NumErr e))
  end.
Proof.
  intros Hk. unfold setField.
  assert (Kind_eqb (FieldKind f) Bool = false) as -> by (destruct (FieldKind f); auto; discriminate).
  rewrite Hk.
  destruct (strconv.ParseInt _ _) as [v|e] eqn:E; [|reflexivity].
  rewrite wrapSigned_id; [reflexivity|apply Bits_width; auto|].
  eapply ParseInt_range; [apply Bits_width; auto|exact E].
Qed.

Lemma setField_uint f tok cur :
  isUint (FieldKind f) = true ->
  setField f tok cur =
  match strconv.ParseUint (blankToZero tok) (Bits (FieldKind f)) with
  | inl v => (VUint v, None)
  | inr e => (cur, Some (NumErr e))
  end.
Proof.
  intros Hk. unfold setField.
  assert (Kind_eqb (FieldKind f) Bool = false) as -> by (destruct (FieldKind f); auto; discriminate).
  assert (isInt (FieldKind f) = false) as -> by (destruct (FieldKind f); auto; discriminate).
  rewrite Hk.
  destruct (strconv.ParseUint _ _) as [v|e] eqn:E; [|reflexivity].
  rewrite wrapUnsigned_id; [reflexivity|].
  eapply ParseUint_range; [apply Bits_width; auto|exact E].
Qed.

Lemma setField_float f tok cur :
  isFloat (FieldKind f) = true ->
  setField f tok cur =
  match ParseFloat (blankToZero tok) (Bits (FieldKind f)) with
  | inl v => (VFloat v, None)
  | inr e => (cur, Some (NumErr e))
  end.
Proof.
  intros Hk. unfold setField.
  assert (Kind_eqb (FieldKind f) Bool = false) as -> by (destruct (FieldKind f); auto; discriminate).
  assert (isInt (FieldKind f) = false) as -> by (destruct (FieldKind f); auto; discriminate).
  assert (isUint (FieldKind f) = false) as -> by (destruct (FieldKind f); auto; discriminate).
  rewrite Hk. reflexivity.
Qed.

Lemma ParseInt_zero bits : width bits -> strconv.ParseInt "0" bits = inl 0%Z.
Proof. intros [->|[->|[->| ->]]]; reflexivity. Qed.

Lemma ParseUint_zero bits : width bits -> strconv.ParseUint "0" bits = inl 0%Z.
Proof. intros [->|[->|[->| ->]]]; reflexivity. Qed.

(** The body of the field loop on a field that can be set and whose
    token does not coerce. *)
Lemma fieldLoop_coercion_error n p rec line f fs i iIndex (h : Heap) idx tok v e :
  line !! i = Some tok ->
  CanSet f = true ->
  setField f tok (loadField h p i f) = (v, Some e) ->
  fieldLoop n p rec line (f :: fs) i iIndex h idx
  = (storeField h p i v, Err (ErrParseField n i e)).
Proof. intros Ht Hs Hc. simpl. rewrite Ht, Hs. simpl. rewrite Hc. reflexivity. Qed.

(** C6, as amended: for a numeric field that can be set.  A blank token
    (empty, or white space only) gives zero: the integer 0, and for a
    floating-point field what [ParseFloat] reads from ["0"].  Any other
    token of an integer field goes through [ParseInt] or [ParseUint]
    with base 0 at the width of the field: after [0x] the digits are
    hexadecimal, after [0b] binary, after [0o] or a plain leading [0]
    octal, otherwise decimal, a sign may lead for a signed field, and
    the value stored fits the width.  A
    number too large for the width, a token with a byte that cannot
    be part of a numeral, or a token with a digit that is no digit of
    its base (a letter in a decimal numeral, a [9] after a leading [0])
    is an error.  Any other token of a floating-point field goes
    through [ParseFloat] at the width of the field, and what
    [ParseFloat] refuses is an error.  The loop returns the error with
    the number of the row and the column of the field. *)
Theorem numeric_field_coercion (f : StructField) (tok : string) (cur : Value) :
  CanSet f = true ->
  let k := FieldKind f in
  let bits := Bits k in
  (* blank tokens *)
  (strings.TrimSpace tok = "" ->
     (isInt k = true -> setField f tok cur = (VInt 0, None))
     /\ (isUint k = true -> setField f tok cur = (VUint 0, None))
     /\ (isFloat k = true ->
           setField f tok cur = setField f "0" cur
           /\ (ParseFloat "0" bits = inl FloatZero ->
                 setField f tok cur = (VFloat FloatZero, None))))
  /\ (allSpace tok = true -> strings.TrimSpace tok = "")
  (* other tokens *)
  /\ (strings.TrimSpace tok <> "" ->
        (isInt k = true ->
           match strconv.ParseInt tok bits with
           | inl v =>
               setField f tok cur = (VInt v, None)
               /\ (- 2 ^ (Z.of_nat bits - 1) <= v < 2 ^ (Z.of_nat bits - 1))%Z
           | inr e => setField f tok cur = (cur, Some (NumErr e))
           end)
        /\ (isUint k = true ->
              match strconv.ParseUint tok bits with
              | inl v =>
                  setField f tok cur = (VUint v, None)
                  /\ (0 <= v < 2 ^ Z.of_nat bits)%Z
              | inr e => setField f tok cur = (cur, Some (NumErr e))
              end)
        /\ (forall c, foreign c = true -> contains c tok = true ->
              isInt k = true \/ isUint k = true ->
              exists e, setField f tok cur = (cur, Some (NumErr e)))
        /\ (isFloat k = true ->
              match ParseFloat tok bits with
              | inl v => setField f tok cur = (VFloat v, None)
              | inr e => setField f tok cur = (cur, Some (NumErr e))
              end)
        /\ (forall c, isUint k = true ->
              contains c (snd (strconv.basePrefix tok)) = true ->
              badDigit (fst (strconv.basePrefix tok)) c = true ->
              exists e, setField f tok cur = (cur, Some (NumErr e)))
        /\ (forall c, isInt k = true ->
              contains c (snd (strconv.basePrefix (magnitude tok))) = true ->
              badDigit (fst (strconv.basePrefix (magnitude tok))) c = true ->
              exists e, setField f tok cur = (cur, Some (NumErr e))))
  (* the radix prefixes and the sign *)
  /\ (isInt k = true \/ isUint k = true ->
        (forall ds, ds <> EmptyString -> validDigits 16 ds = true ->
           strconv.ParseUint (String zeroChar (String xChar ds)) bits
           = unsignedAt bits (digitsValue 16 ds 0))
        /\ (forall ds, ds <> EmptyString -> validDigits 2 ds = true ->
              strconv.ParseUint (String zeroChar (String bChar ds)) bits
              = unsignedAt bits (digitsValue 2 ds 0))
        /\ (forall ds, ds <> EmptyString -> validDigits 8 ds = true ->
              strconv.ParseUint (String zeroChar (String oChar ds)) bits
              = unsignedAt bits (digitsValue 8 ds 0))
        /\ (forall ds, validDigits 8 ds = true ->
              strconv.ParseUint (String zeroChar ds) bits
              = unsignedAt bits (digitsValue 8 ds 0))
        /\ (forall c r, c <> zeroChar -> validDigits 10 (String c r) = true ->
              strconv.ParseUint (String c r) bits
              = unsignedAt bits (digitsValue 10 (String c r) 0))
        /\ (forall s,
              match s with
              | String c1 _ => strconv.isSign c1 = false
              | EmptyString => True
              end ->
              strconv.ParseInt s bits
              = signedAt bits false (strconv.ParseUint s bits)
              /\ strconv.ParseInt (String minusChar s) bits
                 = signedAt bits true (strconv.ParseUint s bits)
              /\ strconv.ParseInt (String plusChar s) bits
                 = signedAt bits false (strconv.ParseUint s bits)))
  (* the error carries the row and the column *)
  /\ (forall n p rec line fs i iIndex (h : Heap) idx v e,
        line !! i = Some tok ->
        setField f tok (loadField h p i f) = (v, Some e) ->
        fieldLoop n p rec line (f :: fs) i iIndex h idx
        = (storeField h p i v, Err (ErrParseField n i e))).
Proof.
  intros Hset k bits. split; [|split; [|split; [|split]]].
  - intros Hblank. split; [|split].
    + intros Hk. rewrite setField_int by exact Hk.
      rewrite blankToZero_blank by exact Hblank.
      rewrite ParseInt_zero by (apply Bits_width; auto). reflexivity.
    + intros Hk. rewrite setField_uint by exact Hk.
      rewrite blankToZero_blank by exact Hblank.
      rewrite ParseUint_zero by (apply Bits_width; auto). reflexivity.
    + intros Hk. rewrite !setField_float by exact Hk.
      rewrite blankToZero_blank by exact Hblank.
      assert (E : blankToZero "0" = "0") by reflexivity. rewrite E.
      split; [reflexivity|]. fold k. fold bits. intros ->. reflexivity.
  - apply TrimSpace_allSpace.
  - intros Hnb. split; [|split; [|split; [|split; [|split]]]].
    + intros Hk. rewrite setField_int by exact Hk.
      rewrite blankToZero_other by exact Hnb. fold k. fold bits.
      destruct (strconv.ParseInt tok bits) as [v|e] eqn:E; [|reflexivity].
      split; [reflexivity|].
      eapply ParseInt_range; [apply Bits_width; auto|exact E].
    + intros Hk. rewrite setField_uint by exact Hk.
      rewrite blankToZero_other by exact Hnb. fold k. fold bits.
      destruct (strconv.ParseUint tok bits) as [v|e] eqn:E; [|reflexivity].
      split; [reflexivity|].
      eapply ParseUint_range; [apply Bits_width; auto|exact E].
    + intros c Hf Hc Hk.
      destruct (parse_foreign c tok bits (Bits_width k Hk) Hf Hc)
        as [[e1 H1] [e2 H2]].
      destruct Hk as [Hk|Hk].
      * rewrite setField_int by exact Hk.
        rewrite blankToZero_other by exact Hnb. fold k. fold bits.
        rewrite H2. eauto.
      * rewrite setField_uint by exact Hk.
        rewrite blankToZero_other by exact Hnb. fold k. fold bits.
        rewrite H1. eauto.
    + intros Hk. rewrite setField_float by exact Hk.
      rewrite blankToZero_other by exact Hnb. fold k. fold bits.
      destruct (ParseFloat tok bits); reflexivity.
    + intros c Hk Hc Hb. rewrite setField_uint by exact Hk.
      rewrite blankToZero_other by exact Hnb.
      destruct (parseUint0_badDigit c tok tok (Bits (FieldKind f)) Hc Hb)
        as [e He].
      unfold strconv.ParseUint. rewrite He. eauto.
    + intros c Hk Hc Hb. rewrite setField_int by exact Hk.
      rewrite blankToZero_other by exact Hnb.
      destruct (ParseInt_badDigit c tok (Bits (FieldKind f)) Hc Hb)
        as [e He].
      rewrite He. eauto.
  - intros Hk. pose proof (Bits_width k Hk) as Hw. fold bits in Hw.
    split; [|split; [|split; [|split; [|split]]]].
    + intros ds. apply ParseUint_hex. exact Hw.
    + intros ds. apply ParseUint_binary. exact Hw.
    + intros ds. apply ParseUint_octal_o. exact Hw.
    + intros ds. apply ParseUint_octal. exact Hw.
    + intros c r. apply ParseUint_decimal. exact Hw.
    + intros s. apply ParseInt_sign. exact Hw.
  - intros n p rec line fs i iIndex h idx v e Ht Hc.
    eapply fieldLoop_coercion_error; eauto.
Qed.

End Coercer.

(* ===================================================================== *)
(** ** [New]: which shapes it accepts, and what it returns *)
(* ===================================================================== *)

Lemma Kind_eqb_eq (a c : Kind) : Kind_eqb a c = true <-> a = c.
Proof. split; [destruct a, c; simpl; congruence|intros ->; destruct c; reflexivity]. Qed.

Lemma checkFields_None (fs : list StructField) (i : nat) :
  checkFields i fs = None <-> forallb fieldAccepted fs = true.
Proof.
  revert i. induction fs as [|f fs IH]; intros i; simpl; [tauto|].
  unfold fieldAccepted at 1.
  destruct (validKind (FieldKind f)); simpl; [|split; discriminate].
  destruct (isIndexTag f && notIndexable (FieldKind f)); simpl;
    [split; discriminate|apply IH].
Qed.

Lemma checkFields_app (pre post : list StructField) (i : nat) :
  forallb fieldAccepted pre = true ->
  checkFields i (pre ++ post) = checkFields (i + List.length pre) post.
Proof.
  revert i. induction pre as [|f pre IH]; intros i H; simpl.
  { replace (i + 0) with i by lia. reflexivity. }
  simpl in H. apply andb_true_iff in H as [Hf Hpre].
  unfold fieldAccepted in Hf. apply andb_true_iff in Hf as [Hv Hi].
  rewrite Hv. simpl. apply negb_true_iff in Hi. rewrite Hi.
  rewrite IH by exact Hpre. f_equal. lia.
Qed.

(** X1: [New] succeeds exactly on a struct type all of whose fields have
    a listed kind and none of whose tagged fields is a struct, slice or
    map; the store it returns is bound to that type and has no
    configuration, no record and no index. *)
Theorem New_accepts_iff (t : RType) (rf : RecordFile) :
  New (Some t) = Ok rf <->
  TypeKind t = Struct
  /\ forallb fieldAccepted (Fields t) = true
  /\ rf = mkRecordFile "" "" "" t [] [].
Proof.
  unfold New. split.
  - destruct (Kind_eqb (TypeKind t) Struct) eqn:Hk; simpl; [|discriminate].
    apply Kind_eqb_eq in Hk.
    destruct (checkFields 0 (Fields t)) as [e|] eqn:Hc; [discriminate|].
    apply checkFields_None in Hc. intros [= <-]. auto.
  - intros (Hk & Hf & ->). apply Kind_eqb_eq in Hk. rewrite Hk. simpl.
    apply (checkFields_None _ 0) in Hf. rewrite Hf. reflexivity.
Qed.

(** X2: the error of [New].  A nil value or a type that is no struct
    gives the not-a-struct error whatever its fields.  Otherwise the
    first field in declaration order that is not accepted decides: a
    kind outside the list gives the invalid-type error with the field's
    name and kind, even if the field is tagged, and a tagged struct,
    slice or map gives the index error with the kind, the position of the
    field and its name. *)
Theorem New_first_error (t : RType) (pre post : list StructField)
    (f : StructField) :
  New None = Err ErrNotStruct
  /\ (TypeKind t <> Struct -> New (Some t) = Err ErrNotStruct)
  /\ (TypeKind t = Struct ->
      Fields t = pre ++ f :: post ->
      forallb fieldAccepted pre = true ->
      (validKind (FieldKind f) = false ->
         New (Some t) = Err (ErrInvalidType (Name f) (FieldKind f)))
      /\ (validKind (FieldKind f) = true ->
          isIndexTag f = true -> notIndexable (FieldKind f) = true ->
          New (Some t)
          = Err (ErrCouldNotIndex (FieldKind f) (List.length pre) (Name f)))).
Proof.
  split; [reflexivity|]. split.
  - intros Hk. unfold New.
    destruct (Kind_eqb (TypeKind t) Struct) eqn:E; [|reflexivity].
    apply Kind_eqb_eq in E. contradiction.
  - intros Hk Hfs Hpre. unfold New. apply Kind_eqb_eq in Hk. rewrite Hk. simpl.
    rewrite Hfs, checkFields_app by exact Hpre. simpl. split.
    + intros ->. reflexivity.
    + intros -> -> ->. reflexivity.
Qed.

(** X3: a store fresh from [New] is empty, and it stays so when a [Read]
    returns an error: [NumRecord] is 0, [Record] panics at every
    position, [Indexes] gives the nil map at every slot from 0 on, and
    [Index] gives nil for every key, without hashing it. *)
Theorem New_store_is_empty (t : RType) (rf : RecordFile) :
  New (Some t) = Ok rf ->
  forall rf',
  (rf' = rf \/
   exists g disk name (h h' : Heap) e,
     Read g disk name h rf = (h', rf', Err e)) ->
  typeRecord rf' = t
  /\ NumRecord rf' = 0
  /\ (forall i, Record_ rf' i = Panic (IndexOutOfRange i 0))
  /\ (forall i, (0 <= i)%Z -> Indexes rf' i = Ok None)
  /\ (forall k, Index_ rf' k = Ok None).
Proof.
  intros Hnew rf' Hrf'.
  unfold New in Hnew.
  destruct (negb (Kind_eqb (TypeKind t) Struct)); [discriminate|].
  destruct (checkFields 0 (Fields t)); [discriminate|].
  injection Hnew as <-.
  assert (H : typeRecord rf' = t /\ records rf' = [] /\ indexes rf' = []).
  { destruct Hrf' as [->|(g & disk & name & h & h' & e & Hread)]; [auto|].
    rewrite Read_unfold in Hread.
    destruct (disk name) as [content|msg].
    - apply load_failure_state in Hread; [|discriminate]. subst rf'. auto.
    - injection Hread as _ <- _. auto. }
  destruct H as (Ht & Hr & Hi).
  split; [exact Ht|]. unfold Index_. unfold NumRecord, Record_, Indexes.
  rewrite Hr, Hi. simpl.
  split; [reflexivity|]. split.
  - intros i. change (Z.of_nat 0) with 0%Z.
    destruct (0 <=? i)%Z eqn:E1; [|reflexivity].
    destruct (i <? 0)%Z eqn:E2; [|reflexivity].
    apply Z.leb_le in E1. apply Z.ltb_lt in E2. lia.
  - split; [|reflexivity].
    intros i Hi0. change (Z.of_nat 0) with 0%Z.
    destruct (0 <=? i)%Z eqn:E; [reflexivity|].
    apply Z.leb_gt in E. lia.
Qed.

(* ===================================================================== *)
(** ** [Read]: configuration, panics, what a success leaves *)
(* ===================================================================== *)

Lemma load_config rf lines (h : Heap) h' rf' r :
  load rf lines h = (h', rf', r) ->
  Comma rf' = Comma rf /\ Comment rf' = Comment rf
  /\ LineEndStr rf' = LineEndStr rf /\ typeRecord rf' = typeRecord rf.
Proof.
  destruct lines as [|hdr rows].
  - rewrite load_nil. intros [= <- <- <-]. auto.
  - rewrite load_cons.
    destruct (rowLoop _ _ _ _ _ _) as [h1 [[recs idx]|e|q]];
      intros [= <- <- <-]; auto.
Qed.

(** X4: whatever its outcome, [Read] leaves in the receiver the
    separators it used: each one that was unset is now the package's
    value, the others and the record type are as before.  A separator
    that is set this way is what every later [Read] of the store uses,
    whatever the package variables are by then. *)
Theorem Read_configuration g disk name (h : Heap) rf h' rf' r :
  Read g disk name h rf = (h', rf', r) ->
  Comma rf' = (if String.eqb (Comma rf) "" then pkgComma g else Comma rf)
  /\ Comment rf' = (if String.eqb (Comment rf) "" then pkgComment g else Comment rf)
  /\ LineEndStr rf'
     = (if String.eqb (LineEndStr rf) "" then pkgLineEndStr g else LineEndStr rf)
  /\ typeRecord rf' = typeRecord rf
  /\ (forall g2 disk2 name2 (h2 : Heap) h'' rf'' r2,
        Read g2 disk2 name2 h2 rf' = (h'', rf'', r2) ->
        (Comma rf' <> "" -> Comma rf'' = Comma rf')
        /\ (Comment rf' <> "" -> Comment rf'' = Comment rf')
        /\ (LineEndStr rf' <> "" -> LineEndStr rf'' = LineEndStr rf')).
Proof.
  assert (Hcfg : forall g0 disk0 name0 (h0 : Heap) rf0 h1 rf1 r1,
    Read g0 disk0 name0 h0 rf0 = (h1, rf1, r1) ->
    Comma rf1 = Comma (withDefaults g0 rf0)
    /\ Comment rf1 = Comment (withDefaults g0 rf0)
    /\ LineEndStr rf1 = LineEndStr (withDefaults g0 rf0)
    /\ typeRecord rf1 = typeRecord rf0).
  { intros g0 disk0 name0 h0 rf0 h1 rf1 r1. rewrite Read_unfold.
    destruct (disk0 name0) as [content|msg].
    - intros H. apply load_config in H. exact H.
    - intros [= <- <- <-]. auto. }
  intros H. destruct (Hcfg _ _ _ _ _ _ _ _ H) as (H1 & H2 & H3 & H4).
  split; [exact H1|]. split; [exact H2|]. split; [exact H3|]. split; [exact H4|].
  intros g2 disk2 name2 h2 h'' rf'' r2 H'.
  destruct (Hcfg _ _ _ _ _ _ _ _ H') as (K1 & K2 & K3 & _).
  assert (Hne : forall s d : string, s <> "" ->
            (if String.eqb s "" then d else s) = s).
  { intros s d Hs. destruct (String.eqb s "") eqn:E; [|reflexivity].
    apply String.eqb_eq in E. contradiction. }
  simpl in K1, K2, K3.
  split; [|split]; intros Hs; [rewrite K1|rewrite K2|rewrite K3];
    apply Hne; exact Hs.
Qed.

Lemma fieldLoop_length_idx n p rec line fs i iIndex (h : Heap) idx h' idx' :
  fieldLoop n p rec line fs i iIndex h idx = (h', Ok idx') ->
  List.length idx' = List.length idx.
Proof.
  revert i iIndex h idx.
  induction fs as [|f fs IH]; intros i iIndex h idx; simpl.
  { intros [= <- <-]. reflexivity. }
  destruct (line !! i) as [strField|]; [|discriminate].
  destruct (negb (CanSet f)); [apply IH|].
  destruct (setField f strField (loadField h p i f)) as [v [e|]]; [discriminate|].
  destruct (isIndexTag f); [|apply IH].
  destruct (idx !! iIndex) as [index|]; [|discriminate].
  destruct (negb (hashable _)); [discriminate|].
  destruct (lookupKey index _); [discriminate|].
  intros H. apply IH in H. rewrite H. apply length_insert.
Qed.

Lemma zeroValue_hashable f :
  isPrimitive (FieldKind f) = true -> hashable (zeroValue f) = true.
Proof.
  unfold isPrimitive, zeroValue.
  destruct (Kind_eqb (FieldKind f) Bool); [reflexivity|].
  destruct (isInt (FieldKind f)); [reflexivity|].
  destruct (isUint (FieldKind f)); [reflexivity|].
  destruct (isFloat (FieldKind f)); [reflexivity|].
  destruct (Kind_eqb (FieldKind f) String_); [reflexivity|discriminate].
Qed.

(** What the coercer stores in a field of a primitive kind is a boolean,
    a number or a string. *)
Lemma setField_hashable f tok cur v :
  isPrimitive (FieldKind f) = true ->
  setField f tok cur = (v, None) -> hashable v = true.
Proof.
  unfold isPrimitive, setField.
  destruct (Kind_eqb (FieldKind f) Bool).
  { intros _. destruct (strconv.ParseBool tok); intros [= <-]; reflexivity. }
  destruct (isInt (FieldKind f)).
  { intros _. destruct (strconv.ParseInt _ _); intros [= <-]; reflexivity. }
  destruct (isUint (FieldKind f)).
  { intros _. destruct (strconv.ParseUint _ _); intros [= <-]; reflexivity. }
  destruct (isFloat (FieldKind f)).
  { intros _. destruct (ParseFloat _ _); intros [= <-]; reflexivity. }
  destruct (Kind_eqb (FieldKind f) String_); [|discriminate].
  intros _ [= <-]. reflexivity.
Qed.

Lemma loadField_store_cases (h : Heap) p i v f :
  loadField (storeField h p i v) p i f = v
  \/ loadField (storeField h p i v) p i f = zeroValue f.
Proof.
  unfold loadField, storeField. rewrite list_lookup_alter_eq.
  destruct (h !! p) as [rv|]; simpl; [|auto].
  destruct (decide (i < List.length rv)) as [Hi|Hi].
  - rewrite list_lookup_insert_eq by exact Hi. auto.
  - rewrite (lookup_ge_None_2 (<[i:=v]> rv) i) by (rewrite length_insert; lia).
    auto.
Qed.

(** The field loop indexes its slices within their bounds; it panics
    only when it hashes the value of a field that is no boolean, number
    or string. *)
Lemma fieldLoop_panic n p rec line fs i iIndex (h : Heap) idx h' q :
  fieldLoop n p rec line fs i iIndex h idx = (h', Panic q) ->
  List.length line = i + List.length fs ->
  iIndex + List.length (List.filter indexed fs) <= List.length idx ->
  q = UnhashableKey
  /\ exists f, In f fs /\ indexed f = true /\ isPrimitive (FieldKind f) = false.
Proof.
  revert i iIndex h idx.
  induction fs as [|f fs IH]; intros i iIndex h idx; simpl.
  { discriminate. }
  intros Hloop Hline Hidx.
  assert (Hnext : forall iIndex1 (h1 : Heap) idx1,
    fieldLoop n p rec line fs (S i) iIndex1 h1 idx1 = (h', Panic q) ->
    iIndex1 + List.length (List.filter indexed fs) <= List.length idx1 ->
    q = UnhashableKey
    /\ exists f0, (f = f0 \/ In f0 fs) /\ indexed f0 = true
                  /\ isPrimitive (FieldKind f0) = false).
  { intros iIndex1 h1 idx1 H1 H2.
    destruct (IH _ _ _ _ H1 ltac:(lia) H2) as (Hq & f0 & Hin & Hf0).
    split; [exact Hq|]. exists f0. auto. }
  destruct (lookup_lt_is_Some_2 line i ltac:(lia)) as [strField Hs].
  rewrite Hs in Hloop. unfold indexed in Hidx at 1.
  destruct (CanSet f) eqn:Hset; simpl in Hloop, Hidx.
  2:{ eapply Hnext; eauto. }
  destruct (setField f strField (loadField h p i f)) as [v [e|]] eqn:Hc;
    [discriminate|].
  destruct (isIndexTag f) eqn:Htag; simpl in Hidx.
  2:{ eapply Hnext; eauto. }
  destruct (lookup_lt_is_Some_2 idx iIndex ltac:(lia)) as [index Hi].
  rewrite Hi in Hloop.
  destruct (hashable (loadField (storeField h p i v) p i f)) eqn:Hh;
    simpl in Hloop.
  - destruct (lookupKey index _); [discriminate|].
    eapply Hnext; [exact Hloop|]. rewrite length_insert. lia.
  - injection Hloop as _ <-. split; [reflexivity|].
    exists f. split; [auto|]. split; [unfold indexed; rewrite Hset, Htag; reflexivity|].
    destruct (isPrimitive (FieldKind f)) eqn:Hp; [|reflexivity].
    destruct (loadField_store_cases h p i v f) as [E|E]; rewrite E in Hh.
    + rewrite (setField_hashable _ _ _ _ Hp Hc) in Hh. discriminate.
    + rewrite (zeroValue_hashable _ Hp) in Hh. discriminate.
Qed.

Lemma rowLoop_panic t rows n (h : Heap) recs idx h' q :
  rowLoop t n rows h recs idx = (h', Panic q) ->
  1 <= n ->
  n - 1 + List.length rows <= List.length recs ->
  List.length (List.filter indexed (Fields t)) <= List.length idx ->
  q = UnhashableKey
  /\ exists f, In f (Fields t) /\ indexed f = true
               /\ isPrimitive (FieldKind f) = false.
Proof.
  revert n h recs idx.
  induction rows as [|line rows IH]; intros n h recs idx; simpl; [discriminate|].
  intros Hloop Hn Hrecs Hidx.
  assert (Hb : (n - 1 <? List.length recs) = true) by (apply Nat.ltb_lt; lia).
  rewrite Hb in Hloop. simpl in Hloop.
  destruct (List.length line =? NumField t) eqn:Hcnt; simpl in Hloop;
    [|discriminate].
  apply Nat.eqb_eq in Hcnt.
  destruct (fieldLoop _ _ _ _ _ _ _ _ _) as [h1 [idx1|e|q1]] eqn:Hf;
    [| discriminate |].
  - apply fieldLoop_length_idx in Hf.
    eapply IH; [exact Hloop|lia|rewrite length_insert; lia|lia].
  - injection Hloop as _ <-.
    eapply fieldLoop_panic; [exact Hf|exact Hcnt|simpl; exact Hidx].
Qed.

(** X5: on a store that [New] made, whatever [Read]s and assignments
    to its separators came since, [Read] panics in two cases only.  With
    no row at all, not even a header, [make] gets the length -1.
    Otherwise the panic is the one of hashing a map key, and the record
    type has a field that is tagged, can be set and is an array, the
    one kind [New] lets an index have whose values are no booleans,
    numbers or strings.  In particular no slice index of the loops
    ([lines[n]], [line[i]], [records[n-1]], [indexes[iIndex]]) is ever
    out of range. *)
Theorem Read_panics_only g disk name (h : Heap) rf rf0 h' rf' q :
  New (Some (typeRecord rf)) = Ok rf0 ->
  Read g disk name h rf = (h', rf', Panic q) ->
  exists content,
    disk name = inl content
    /\ ((q = MakeSliceLenOutOfRange
         /\ tokenize (withDefaults g rf) content = [])
        \/ (q = UnhashableKey
            /\ tokenize (withDefaults g rf) content <> []
            /\ exists f, In f (Fields (typeRecord rf))
                 /\ CanSet f = true /\ isIndexTag f = true
                 /\ isPrimitive (FieldKind f) = false
                 /\ FieldKind f = Array)).
Proof.
  intros Hnew.
  assert (Hacc : forallb fieldAccepted (Fields (typeRecord rf)) = true).
  { unfold New in Hnew. destruct (negb _); [discriminate|].
    destruct (checkFields 0 (Fields (typeRecord rf))) eqn:Hc; [discriminate|].
    apply checkFields_None in Hc. exact Hc. }
  rewrite Read_unfold.
  destruct (disk name) as [content|msg]; [|discriminate].
  intros Hload. exists content. split; [reflexivity|].
  destruct (tokenize (withDefaults g rf) content) as [|hdr rows].
  { rewrite load_nil in Hload. injection Hload as _ _ <-. auto. }
  right. rewrite load_cons in Hload.
  destruct (rowLoop _ _ _ _ _ _) as [h1 [[recs idx]|e|q1]] eqn:Hl;
    try discriminate.
  injection Hload as _ _ <-.
  apply rowLoop_panic in Hl.
  - destruct Hl as (-> & f & Hin & Hind & Hprim).
    split; [reflexivity|]. split; [discriminate|].
    exists f. unfold indexed in Hind. apply andb_true_iff in Hind as [Hset Htag].
    split; [exact Hin|]. split; [exact Hset|]. split; [exact Htag|].
    split; [exact Hprim|].
    assert (Hf : fieldAccepted f = true).
    { rewrite forallb_forall in Hacc. apply Hacc. exact Hin. }
    revert Hf. unfold fieldAccepted. rewrite Htag. revert Hprim. clear.
    destruct (FieldKind f); cbn; intros H1 H2;
      first [reflexivity|discriminate H1|discriminate H2].
  - lia.
  - rewrite length_replicate. simpl. lia.
  - rewrite makeIndexes_replicate, length_replicate. apply filter_indexed_le.
Qed.

Lemma lookup_map {A B : Type} (f : A -> B) (l : list A) (i : nat) :
  List.map f l !! i = f <$> (l !! i).
Proof.
  revert i. induction l as [|x l IH]; intros [|i]; simpl; auto.
Qed.

Lemma rowLoop_ok_lengths t rows n (h : Heap) recs idx h' recs' idx' :
  rowLoop t n rows h recs idx = (h', Ok (recs', idx')) ->
  forall r row, rows !! r = Some row -> List.length row = NumField t.
Proof.
  revert n h recs idx.
  induction rows as [|line rows IH]; intros n h recs idx Hloop r row Hr.
  { destruct r; discriminate. }
  simpl in Hloop.
  destruct (negb (n - 1 <? List.length recs)); [discriminate|].
  destruct (List.length line =? NumField t) eqn:Hcnt; simpl in Hloop;
    [|discriminate].
  destruct (fieldLoop _ _ _ _ _ _ _ _ _) as [h1 [idx1|e|q1]];
    [|discriminate|discriminate].
  destruct r as [|r]; simpl in Hr.
  - injection Hr as <-. apply Nat.eqb_eq. exact Hcnt.
  - eapply IH; eauto.
Qed.

(** X6: a successful [Read] replaces the content of the store.  The
    file gave a header and data rows, and the records are as many new
    records as there are data rows, at consecutive fresh addresses in
    row order: [Record(r)] is the record made from data row [r], whose
    fields that can be set hold what the coercer made of the tokens of
    that row.  Every record that existed before keeps its content; and
    the store that results does not depend on the records and indexes
    the receiver had. *)
Theorem Read_success_replaces g disk name (h : Heap) rf h' rf' :
  Read g disk name h rf = (h', rf', Ok tt) ->
  List.length h' = List.length h + NumRecord rf'
  /\ (forall q, q < List.length h -> h' !! q = h !! q)
  /\ records rf' = List.map Some (seq (List.length h) (NumRecord rf'))
  /\ (forall recs idx,
        Read g disk name h
          (mkRecordFile (Comma rf) (Comment rf) (LineEndStr rf)
             (typeRecord rf) recs idx)
        = (h', rf', Ok tt))
  /\ exists content hdr rows,
       disk name = inl content
       /\ tokenize (withDefaults g rf) content = hdr :: rows
       /\ NumRecord rf' = List.length rows
       /\ forall r row,
            rows !! r = Some row ->
            Record_ rf' (Z.of_nat r) = Ok (Some (List.length h + r))
            /\ List.length row = NumField (typeRecord rf)
            /\ forall i f,
                 Fields (typeRecord rf) !! i = Some f -> CanSet f = true ->
                 exists tok,
                   row !! i = Some tok
                   /\ setField f tok (zeroValue f)
                      = (loadField h' (List.length h + r) i f, None).
Proof.
  rewrite Read_unfold.
  destruct (disk name) as [content|msg] eqn:Hd; [|discriminate].
  destruct (tokenize (withDefaults g rf) content) as [|hdr rows] eqn:Htok.
  { rewrite load_nil. discriminate. }
  intros Hload.
  pose proof (load_frame _ _ _ _ _ _ Hload) as Hframe.
  pose proof (load_columns _ _ _ _ _ _ Hload) as (_ & Hlen & Hrecs & Hrec & _).
  pose proof (load_values _ _ _ _ _ _ Hload) as Hvals.
  unfold NumRecord. rewrite Hrecs.
  split; [exact Hlen|]. split; [exact Hframe|]. split; [|split].
  - apply list_eq. intros r.
    destruct (decide (r < List.length rows)) as [Hr|Hr].
    + rewrite Hrec by exact Hr.
      rewrite lookup_map, lookup_seq_lt by exact Hr. reflexivity.
    + rewrite lookup_ge_None_2 by lia.
      rewrite lookup_ge_None_2; [reflexivity|].
      rewrite length_map, length_seq. lia.
  - intros recs idx. rewrite Read_unfold, Hd.
    unfold tokenize in *. simpl in *. rewrite Htok.
    rewrite load_cons in *. simpl in *.
    destruct (rowLoop _ _ _ _ _ _) as [h1 [[recs1 idx1]|e|q1]];
      [exact Hload|discriminate|discriminate].
  - exists content, hdr, rows.
    split; [reflexivity|]. split; [exact Htok|]. split; [reflexivity|].
    intros r row Hrow.
    pose proof (lookup_lt_Some _ _ _ Hrow) as Hr.
    split; [|split].
    + rewrite Record_in_range by lia. rewrite Hrec by exact Hr. reflexivity.
    + rewrite load_cons in Hload.
      destruct (rowLoop _ _ _ _ _ _) as [h1 [[recs1 idx1]|e|q1]] eqn:Hl;
        [|discriminate|discriminate].
      exact (rowLoop_ok_lengths _ _ _ _ _ _ _ _ _ Hl r row Hrow).
    + intros i f Hi Hset.
      specialize (Hvals r row i f Hrow Hi). simpl in Hvals.
      change (typeRecord (withDefaults g rf)) with (typeRecord rf) in Hvals.
      rewrite Hset in Hvals. exact Hvals.
Qed.

(* ===================================================================== *)
(** ** The loaded store: indexes and records *)
(* ===================================================================== *)

Lemma columnsFrom_lookup_inv (h : Heap) ps i0 fs s c :
  columnsFrom h ps i0 fs !! s = Some c ->
  exists i f, fs !! i = Some f /\ indexed f = true
              /\ c = column h ps (i0 + i) f.
Proof.
  revert i0 s. induction fs as [|f0 fs IH]; intros i0 s; simpl.
  { destruct s; discriminate. }
  destruct (indexed f0) eqn:Hind.
  - destruct s as [|s]; simpl.
    + intros [= <-]. exists 0, f0. replace (i0 + 0) with i0 by lia. auto.
    + intros H. destruct (IH _ _ H) as (i & f & Hi & Hf & ->).
      exists (S i), f. replace (i0 + S i) with (S i0 + i) by lia. auto.
  - intros H. destruct (IH _ _ H) as (i & f & Hi & Hf & ->).
    exists (S i), f. replace (i0 + S i) with (S i0 + i) by lia. auto.
Qed.

(** X7: the indexes of a loaded store.  There is one map per tagged
    field, so [Indexes] gives nil exactly from that number on.  The maps
    of the tagged fields that can be set come first, each with one entry
    per record; the remaining maps are empty.  Entry number [a] of a map
    refers to record number [a], and its key is the value that record
    holds in a field that is tagged and can be set. *)
Theorem loaded_index_shape g disk name (h : Heap) rf h' rf' :
  Read g disk name h rf = (h', rf', Ok tt) ->
  let fs := Fields (typeRecord rf) in
  List.length (indexes rf') = List.length (List.filter isIndexTag fs)
  /\ (forall i, (0 <= i)%Z ->
        (Indexes rf' i = Ok None
         <-> (Z.of_nat (List.length (List.filter isIndexTag fs)) <= i)%Z))
  /\ (forall slot index,
        indexes rf' !! slot = Some index ->
        if slot <? List.length (List.filter indexed fs)
        then List.length index = NumRecord rf'
        else index = [])
  /\ (forall slot index a k v,
        indexes rf' !! slot = Some index ->
        index !! a = Some (k, v) ->
        a < NumRecord rf'
        /\ v = Some (List.length h + a)
        /\ records rf' !! a = Some v
        /\ exists i f, fs !! i = Some f /\ CanSet f = true
             /\ isIndexTag f = true
             /\ k = loadField h' (List.length h + a) i f).
Proof.
  rewrite Read_unfold.
  destruct (disk name) as [content|msg]; [|discriminate].
  destruct (tokenize (withDefaults g rf) content) as [|hdr rows].
  { rewrite load_nil. discriminate. }
  intros Hload fs.
  apply load_columns in Hload. simpl in Hload. fold fs in Hload.
  destruct Hload as (_ & _ & Hrecs & Hrec & Hidx & _).
  set (ps := seq (List.length h) (List.length rows)) in *.
  pose proof (filter_indexed_le fs) as Hle.
  assert (Hlen : List.length (indexes rf')
                 = List.length (List.filter isIndexTag fs)).
  { rewrite Hidx, length_app, columnsFrom_length, length_replicate. lia. }
  assert (Hcol : forall slot index,
            indexes rf' !! slot = Some index ->
            (slot < List.length (List.filter indexed fs)
             /\ exists i f, fs !! i = Some f /\ indexed f = true
                  /\ index = column h' ps i f)
            \/ (List.length (List.filter indexed fs) <= slot /\ index = [])).
  { intros slot index Hs. rewrite Hidx in Hs.
    apply lookup_app_Some in Hs as [Hs|[Hge Hs]].
    - left. split.
      + apply lookup_lt_Some in Hs. rewrite columnsFrom_length in Hs. exact Hs.
      + destruct (columnsFrom_lookup_inv _ _ _ _ _ _ Hs) as (i & f & H1 & H2 & H3).
        exists i, f. auto.
    - right. rewrite columnsFrom_length in Hge. split; [exact Hge|].
      apply lookup_replicate in Hs as [-> _]. reflexivity. }
  unfold NumRecord. rewrite Hrecs.
  split; [exact Hlen|]. split; [|split].
  - intros i Hi. unfold Indexes. rewrite Hlen.
    destruct (Z.of_nat (List.length (List.filter isIndexTag fs)) <=? i)%Z eqn:E.
    + apply Z.leb_le in E. tauto.
    + apply Z.leb_gt in E.
      destruct (i <? 0)%Z eqn:E0; [apply Z.ltb_lt in E0; lia|].
      destruct (lookup_lt_is_Some_2 (indexes rf') (Z.to_nat i) ltac:(lia))
        as [index Hs].
      rewrite Hs. split; [discriminate|lia].
  - intros slot index Hs.
    destruct (Hcol _ _ Hs) as [(Hlt & i & f & _ & _ & ->)|(Hge & ->)].
    + apply Nat.ltb_lt in Hlt. rewrite Hlt.
      unfold column, ps. rewrite length_map, length_seq. reflexivity.
    + destruct (slot <? _) eqn:E; [apply Nat.ltb_lt in E; lia|reflexivity].
  - intros slot index a k v Hs Ha.
    destruct (Hcol _ _ Hs) as [(_ & i & f & Hi & Hind & ->)|(_ & ->)];
      [|destruct a; discriminate].
    rewrite column_lookup in Ha.
    destruct (ps !! a) as [p|] eqn:Hp; [|discriminate].
    unfold ps in Hp. apply lookup_seq in Hp as [-> Hlt].
    simpl in Ha. injection Ha as <- <-.
    unfold indexed in Hind. apply andb_true_iff in Hind as [Hset Htag].
    split; [exact Hlt|]. split; [reflexivity|].
    split; [apply Hrec; exact Hlt|].
    exists i, f. auto.
Qed.

Lemma setField_string f tok cur :
  FieldKind f = String_ -> setField f tok cur = (VString tok, None).
Proof. intros Hk. unfold setField. rewrite Hk. reflexivity. Qed.

Lemma setField_bool f tok cur :
  FieldKind f = Bool ->
  setField f tok cur =
  match strconv.ParseBool tok with
  | inl b => (VBool b, None)
  | inr e => (cur, Some (NumErr e))
  end.
Proof. intros Hk. unfold setField. rewrite Hk. reflexivity. Qed.

Lemma setField_composite f tok :
  isComposite (FieldKind f) = true ->
  setField f tok (zeroValue f) =
  (VComposite (fst (Unmarshal tok (CompositeZero f))),
   option_map JsonErr (snd (Unmarshal tok (CompositeZero f)))).
Proof.
  intros Hk. unfold setField, zeroValue.
  destruct (FieldKind f); try discriminate; simpl;
    destruct (Unmarshal tok (CompositeZero f)); reflexivity.
Qed.

(** X8: the records of a loaded store.  Every data row had as many
    tokens as the type has fields.  A field that cannot be set holds its
    zero value in every record.  A field that can be set holds what its
    kind makes of the token in its column: the token itself for a
    string, untrimmed; the boolean [ParseBool] reads; the number
    [ParseInt], [ParseUint] or [ParseFloat] reads at the width of the
    field, from ["0"] when the token is blank; and for a struct, array,
    slice or map what [json.Unmarshal] decodes into the zero value. *)
Theorem loaded_record_fields g disk name (h : Heap) rf h' rf' :
  Read g disk name h rf = (h', rf', Ok tt) ->
  exists content hdr rows,
    disk name = inl content
    /\ tokenize (withDefaults g rf) content = hdr :: rows
    /\ NumRecord rf' = List.length rows
    /\ forall r row i f,
         rows !! r = Some row ->
         Fields (typeRecord rf) !! i = Some f ->
         let k := FieldKind f in
         let v := loadField h' (List.length h + r) i f in
         List.length row = NumField (typeRecord rf)
         /\ (CanSet f = false -> v = zeroValue f)
         /\ (CanSet f = true ->
             exists tok, row !! i = Some tok
               /\ (k = String_ -> v = VString tok)
               /\ (k = Bool ->
                   exists b, strconv.ParseBool tok = inl b /\ v = VBool b)
               /\ (isInt k = true ->
                   exists z, strconv.ParseInt (blankToZero tok) (Bits k) = inl z
                             /\ v = VInt z)
               /\ (isUint k = true ->
                   exists z, strconv.ParseUint (blankToZero tok) (Bits k) = inl z
                             /\ v = VUint z)
               /\ (isFloat k = true ->
                   exists x, ParseFloat (blankToZero tok) (Bits k) = inl x
                             /\ v = VFloat x)
               /\ (isComposite k = true ->
                   exists c, Unmarshal tok (CompositeZero f) = (c, None)
                             /\ v = VComposite c)).
Proof.
  rewrite Read_unfold.
  destruct (disk name) as [content|msg]; [|discriminate].
  destruct (tokenize (withDefaults g rf) content) as [|hdr rows] eqn:Htok.
  { rewrite load_nil. discriminate. }
  intros Hload. exists content, hdr, rows.
  split; [reflexivity|]. split; [exact Htok|].
  pose proof (load_values _ _ _ _ _ _ Hload) as Hvals.
  pose proof (load_columns _ _ _ _ _ _ Hload) as (_ & _ & Hrecs & _).
  split; [exact Hrecs|].
  intros r row i f Hr Hi k v.
  split.
  { rewrite load_cons in Hload.
    destruct (rowLoop _ _ _ _ _ _) as [h1 [[recs idx]|e1|q1]] eqn:Hl;
      [|discriminate|discriminate].
    apply (rowLoop_ok_lengths _ _ _ _ _ _ _ _ _ Hl r row Hr). }
  specialize (Hvals r row i f Hr Hi). simpl in Hvals. fold v in Hvals.
  destruct (CanSet f); [|split; [auto|discriminate]].
  split; [discriminate|]. intros _.
  destruct Hvals as (tok & Ht & Hv). exists tok. split; [exact Ht|].
  split; [|split; [|split; [|split; [|split]]]]; intros Hk.
  - rewrite setField_string in Hv by exact Hk. congruence.
  - rewrite setField_bool in Hv by exact Hk.
    destruct (strconv.ParseBool tok) as [b|e]; [|discriminate].
    exists b. split; [reflexivity|congruence].
  - rewrite setField_int in Hv by exact Hk. fold k in Hv.
    destruct (strconv.ParseInt _ _) as [z|e]; [|discriminate].
    exists z. split; [reflexivity|congruence].
  - rewrite setField_uint in Hv by exact Hk. fold k in Hv.
    destruct (strconv.ParseUint _ _) as [z|e]; [|discriminate].
    exists z. split; [reflexivity|congruence].
  - rewrite setField_float in Hv by exact Hk. fold k in Hv.
    destruct (ParseFloat _ _) as [x|e]; [|discriminate].
    exists x. split; [reflexivity|congruence].
  - rewrite setField_composite in Hv by exact Hk.
    destruct (Unmarshal tok (CompositeZero f)) as [c [e|]]; [discriminate|].
    exists c. split; [reflexivity|]. simpl in Hv. congruence.
Qed.

(* ===================================================================== *)
(** ** The tokenizer loses nothing *)
(* ===================================================================== *)

Lemma append_nil_r (s : string) : (s ++ "")%string = s.
Proof. induction s as [|c r IH]; simpl; [reflexivity|rewrite IH; reflexivity]. Qed.

Lemma append_assoc (a c d : string) :
  ((a ++ c) ++ d)%string = (a ++ (c ++ d))%string.
Proof. induction a as [|x r IH]; simpl; [reflexivity|rewrite IH; reflexivity]. Qed.

Lemma length_append (a c : string) :
  String.length (a ++ c) = String.length a + String.length c.
Proof. induction a as [|x r IH]; simpl; [reflexivity|rewrite IH; reflexivity]. Qed.

(** A prefix splits the string in two. *)
Lemma prefix_sdrop (p s : string) :
  String.prefix p s = true ->
  s = (p ++ sdrop (String.length p) s)%string
  /\ String.length p <= String.length s.
Proof.
  revert s. induction p as [|a p IH]; intros s.
  { intros _. destruct s; simpl; split; auto; lia. }
  destruct s as [|c r]; simpl; [discriminate|].
  destruct (ascii_dec a c) as [->|]; [|discriminate].
  intros H. destruct (IH r H) as [E Hl]. split; [|lia].
  f_equal. exact E.
Qed.

Lemma Join_cons (x : string) (rest : list string) (sep : string) :
  rest <> [] -> Join (x :: rest) sep = (x ++ sep ++ Join rest sep)%string.
Proof. destruct rest; [congruence|reflexivity]. Qed.

Lemma splitFrom_not_nil sep k cur s : strings.splitFrom sep k cur s <> [].
Proof.
  revert k cur. induction s as [|c r IH]; intros k cur;
    cbn [strings.splitFrom]; [intros H; discriminate H|].
  destruct k; [|apply IH].
  destruct (String.prefix sep (String c r));
    [intros H; discriminate H|apply IH].
Qed.

Lemma splitFrom_Join sep s :
  sep <> EmptyString ->
  forall k cur, k <= String.length s ->
  Join (strings.splitFrom sep k cur s) sep = (cur ++ sdrop k s)%string.
Proof.
  intros Hsep. induction s as [|c r IH]; intros k cur Hk;
    cbn [strings.splitFrom].
  { destruct k; simpl; rewrite append_nil_r; reflexivity. }
  destruct k as [|k]; [|apply IH; simpl in Hk; lia].
  destruct (String.prefix sep (String c r)) eqn:Hp.
  - destruct (prefix_sdrop _ _ Hp) as [E Hl].
    destruct sep as [|a sep']; [congruence|]. simpl in Hl.
    rewrite Join_cons by apply splitFrom_not_nil.
    rewrite IH by (simpl; lia). simpl.
    rewrite Nat.sub_0_r. simpl in E. rewrite <- E. reflexivity.
  - rewrite IH by lia. simpl. rewrite append_assoc. reflexivity.
Qed.

(** Joining the pieces of [Split] with a separator that is not empty
    gives the string back. *)
Lemma Split_Join s sep :
  sep <> EmptyString -> Join (strings.Split s sep) sep = s.
Proof.
  intros Hsep. unfold strings.Split. destruct sep as [|a sep']; [congruence|].
  rewrite splitFrom_Join; [reflexivity|discriminate|lia].
Qed.

(** X9: with a line terminator and a field delimiter that are not
    empty, [ReadData] loses no byte but what it drops on purpose.  The
    chunks, joined by the line terminator, are the file content.  The
    rows are, in order, those of the chunks that are not empty and not a
    comment, and the tokens of each row, joined by the field delimiter,
    are its chunk without the one newline that may end it. *)
Theorem tokenizer_lossless rf (content : string) :
  LineEndStr rf <> "" ->
  Comma rf <> "" ->
  Join (strings.Split content (LineEndStr rf)) (LineEndStr rf) = content
  /\ Forall2
       (fun row chunk => Join row (Comma rf) = stripNewline chunk)
       (tokenize rf content)
       (List.filter (fun chunk => negb (dropped (Comment rf) chunk))
          (strings.Split content (LineEndStr rf))).
Proof.
  intros Hend Hcomma.
  split; [apply Split_Join; exact Hend|].
  unfold tokenize. rewrite readLines_filter.
  induction (strings.Split content (LineEndStr rf)) as [|chunk chunks IH];
    simpl; [constructor|].
  destruct (dropped (Comment rf) chunk); simpl; [exact IH|].
  constructor; [apply Split_Join; exact Hcomma|exact IH].
Qed.
(* ===================================================================== *)
(** ** Where an error of [Read] points *)
(* ===================================================================== *)

(** A key that is found equals the key of an entry. *)
Lemma lookupKey_Some (m : Index) k x :
  lookupKey m k = Some x ->
  exists a k0, m !! a = Some (k0, x) /\ keyEq k0 k = true.
Proof.
  induction m as [|[k0 v0] m IH]; simpl; [discriminate|].
  destruct (keyEq k0 k) eqn:E.
  - intros [= <-]. exists 0, k0. auto.
  - intros H. destruct (IH H) as (a & k1 & Ha & Hk). exists (S a), k1. auto.
Qed.

(** The field loop leaves alone the fields after those it runs over. *)
Lemma fieldLoop_above n p rec line fs i iIndex (h : Heap) idx h' r :
  fieldLoop n p rec line fs i iIndex h idx = (h', r) ->
  forall j, i + List.length fs <= j ->
    (h' !! p ≫= (.!! j)) = (h !! p ≫= (.!! j)).
Proof.
  revert i iIndex h idx.
  induction fs as [|f fs IH]; intros i iIndex h idx; simpl.
  { intros [= <- <-]. reflexivity. }
  intros Hloop j Hj.
  assert (Hstore : forall v, (storeField h p i v !! p ≫= (.!! j))
                             = (h !! p ≫= (.!! j))).
  { intros v. apply storeField_other_field. lia. }
  assert (Hnext : forall iIndex1 (h1 : Heap) idx1,
    fieldLoop n p rec line fs (S i) iIndex1 h1 idx1 = (h', r) ->
    (h1 !! p ≫= (.!! j)) = (h !! p ≫= (.!! j)) ->
    (h' !! p ≫= (.!! j)) = (h !! p ≫= (.!! j))).
  { intros iIndex1 h1 idx1 H1 H2. rewrite <- H2.
    eapply IH; [exact H1|lia]. }
  destruct (line !! i) as [strField|]; [|injection Hloop as <- _; reflexivity].
  destruct (negb (CanSet f)); [eapply Hnext; eauto|].
  destruct (setField f strField (loadField h p i f)) as [v [e|]].
  { injection Hloop as <- _. apply Hstore. }
  destruct (isIndexTag f); [|eapply Hnext; eauto].
  destruct (idx !! iIndex) as [index|];
    [|injection Hloop as <- _; apply Hstore].
  destruct (negb (hashable _)); [injection Hloop as <- _; apply Hstore|].
  destruct (lookupKey index _);
    [injection Hloop as <- _; apply Hstore|eapply Hnext; eauto].
Qed.

(** An error of the field loop comes from a field that can be set, once
    the fields before it have passed: its token does not coerce, or the
    field is tagged and its value is already a key of its index. *)
Lemma fieldLoop_error n p rec line fs i iIndex (h : Heap) idx h' e :
  fieldLoop n p rec line fs i iIndex h idx = (h', Err e) ->
  exists j f tok h2 idx2 v,
    fs !! j = Some f /\ CanSet f = true
    /\ line !! (i + j) = Some tok
    /\ fieldLoop n p rec line (take j fs) i iIndex h idx = (h2, Ok idx2)
    /\ ((exists fe,
           setField f tok (loadField h2 p (i + j) f) = (v, Some fe)
           /\ e = ErrParseField n (i + j) fe)
        \/ (isIndexTag f = true
            /\ setField f tok (loadField h2 p (i + j) f) = (v, None)
            /\ e = ErrDuplicateIndex n (i + j)
            /\ exists index x,
                 idx2 !! (iIndex + List.length (List.filter indexed (take j fs)))
                 = Some index
                 /\ lookupKey index
                      (loadField (storeField h2 p (i + j) v) p (i + j) f)
                    = Some x)).
Proof.
  revert i iIndex h idx.
  induction fs as [|f0 fs IH]; intros i iIndex h idx;
    cbn [fieldLoop]; [discriminate|].
  destruct (line !! i) as [strField|] eqn:Hline; [|discriminate].
  assert (Hhere : forall v,
    fieldLoop n p rec line (take 0 (f0 :: fs)) i iIndex h idx = (h, Ok idx)
    /\ line !! (i + 0) = Some strField
    /\ iIndex + List.length (List.filter indexed (take 0 (f0 :: fs))) = iIndex
    /\ loadField h p (i + 0) f0 = loadField h p i f0
    /\ loadField (storeField h p (i + 0) v) p (i + 0) f0
       = loadField (storeField h p i v) p i f0).
  { intros v. rewrite !Nat.add_0_r. simpl.
    repeat split; first [reflexivity|exact Hline|lia]. }
  destruct (CanSet f0) eqn:Hset; cbn [negb].
  - destruct (setField f0 strField (loadField h p i f0)) as [v [fe|]] eqn:Hc.
    { intros [= <- <-]. destruct (Hhere v) as (H1 & H2 & _ & H4 & _).
      exists 0, f0, strField, h, idx, v.
      split; [reflexivity|]. split; [exact Hset|]. split; [exact H2|].
      split; [exact H1|]. left. exists fe. rewrite H4, Nat.add_0_r. auto. }
    destruct (isIndexTag f0) eqn:Htag.
    + destruct (idx !! iIndex) as [index|] eqn:Hidx; [|discriminate].
      destruct (hashable (loadField (storeField h p i v) p i f0)) eqn:Hh;
        cbn [negb]; [|discriminate].
      destruct (lookupKey index (loadField (storeField h p i v) p i f0))
        as [x|] eqn:Hlk.
      { intros [= <- <-]. destruct (Hhere v) as (H1 & H2 & H3 & H4 & H5).
        exists 0, f0, strField, h, idx, v.
        split; [reflexivity|]. split; [exact Hset|]. split; [exact H2|].
        split; [exact H1|]. right. rewrite H4, H5, H3, Nat.add_0_r.
        split; [exact Htag|]. split; [exact Hc|]. split; [reflexivity|].
        exists index, x. auto. }
      intros H.
      destruct (IH _ _ _ _ H) as (j & f & tok & h2 & idx2 & v2 & Hj & Hs
                                  & Ht & Hrun & Hcase).
      exists (S j), f, tok, h2, idx2, v2.
      replace (i + S j) with (S i + j) by lia.
      split; [exact Hj|]. split; [exact Hs|]. split; [exact Ht|]. split.
      * cbn [take fieldLoop]. rewrite Hline, Hset. cbn [negb].
        rewrite Hc, Htag, Hidx, Hh. cbn [negb]. rewrite Hlk. exact Hrun.
      * cbn [take List.filter]. unfold indexed at 1. rewrite Hset, Htag.
        cbn [andb List.length].
        replace (iIndex + S (List.length (List.filter indexed (take j fs))))
          with (S iIndex + List.length (List.filter indexed (take j fs)))
          by lia.
        exact Hcase.
    + intros H.
      destruct (IH _ _ _ _ H) as (j & f & tok & h2 & idx2 & v2 & Hj & Hs
                                  & Ht & Hrun & Hcase).
      exists (S j), f, tok, h2, idx2, v2.
      replace (i + S j) with (S i + j) by lia.
      split; [exact Hj|]. split; [exact Hs|]. split; [exact Ht|]. split.
      * cbn [take fieldLoop]. rewrite Hline, Hset. cbn [negb].
        rewrite Hc, Htag. exact Hrun.
      * cbn [take List.filter]. unfold indexed at 1. rewrite Hset, Htag.
        cbn [andb]. exact Hcase.
  - intros H.
    destruct (IH _ _ _ _ H) as (j & f & tok & h2 & idx2 & v2 & Hj & Hs
                                & Ht & Hrun & Hcase).
    exists (S j), f, tok, h2, idx2, v2.
    replace (i + S j) with (S i + j) by lia.
    split; [exact Hj|]. split; [exact Hs|]. split; [exact Ht|]. split.
    * cbn [take fieldLoop]. rewrite Hline, Hset. cbn [negb]. exact Hrun.
    * cbn [take List.filter]. unfold indexed at 1. rewrite Hset.
      cbn [andb]. exact Hcase.
Qed.

(** An error of the row loop comes from the first row that does not
    pass: the rows before it run without error, and the row has the
    wrong number of tokens or the loop over its fields fails on its
    fresh record. *)
Lemma rowLoop_error t rows n (h : Heap) recs idx h' e :
  rowLoop t n rows h recs idx = (h', Err e) ->
  exists k row h1 recs1 idx1,
    rows !! k = Some row
    /\ rowLoop t n (take k rows) h recs idx = (h1, Ok (recs1, idx1))
    /\ ((List.length row <> NumField t
         /\ e = ErrFieldCount (n + k) (List.length row) (NumField t))
        \/ (List.length row = NumField t
            /\ fieldLoop (n + k) (List.length h1) (Some (List.length h1)) row
                 (Fields t) 0 0 (h1 ++ [List.map zeroValue (Fields t)]) idx1
               = (h', Err e))).
Proof.
  revert n h recs idx.
  induction rows as [|line rows IH]; intros n h recs idx; simpl; [discriminate|].
  destruct (n - 1 <? List.length recs) eqn:Hb; cbn [negb]; [|discriminate].
  destruct (List.length line =? NumField t) eqn:Hcnt; simpl.
  2:{ intros [= <- <-]. apply Nat.eqb_neq in Hcnt.
      exists 0, line, h, recs, idx. replace (n + 0) with n by lia.
      split; [reflexivity|]. split; [reflexivity|]. left. auto. }
  apply Nat.eqb_eq in Hcnt.
  rewrite list_lookup_insert_eq by (apply Nat.ltb_lt; exact Hb).
  cbn [mjoin].
  destruct (fieldLoop _ _ _ _ _ _ _ _ _) as [h1 [idx1|e1|q1]] eqn:Hf;
    [| |discriminate].
  - intros H.
    destruct (IH _ _ _ _ H) as (k & row & h2 & recs2 & idx2 & Hk & Hpre & Hcase).
    exists (S k), row, h2, recs2, idx2.
    replace (n + S k) with (S n + k) by lia.
    split; [exact Hk|]. split; [|exact Hcase].
    simpl. rewrite Hb.
    assert (E : (List.length line =? NumField t) = true)
      by (apply Nat.eqb_eq; exact Hcnt).
    rewrite E. simpl.
    rewrite list_lookup_insert_eq by (apply Nat.ltb_lt; exact Hb).
    cbn [mjoin]. rewrite Hf. exact Hpre.
  - intros [= <- <-].
    exists 0, line, h, recs, idx. replace (n + 0) with n by lia.
    split; [reflexivity|]. split; [reflexivity|]. right.
    split; [exact Hcnt|exact Hf].
Qed.

(** X10: what an error of [Read] says.  It is the error of opening or
    reading the file, or it names a data row [n], counted from 1 after
    the header, that exists and is the first row to fail: the rows
    before it load alone without error.  Either row [n] has the wrong
    number of tokens and the error gives the number found and the number
    of fields; or it has the right number and the error names a column
    that is a field that can be set.  Then either the token of row [n]
    in that column does not coerce, and the error carries what the
    coercer reported; or the field is tagged, the token coerces, and the
    value it gives equals ([==]) the value that the record of an earlier
    data row holds in that field.  [Read] never returns one of the
    errors of [New]. *)
Theorem Read_error_location g disk name (h : Heap) rf h' rf' e :
  Read g disk name h rf = (h', rf', Err e) ->
  (exists msg, disk name = inr msg /\ e = ErrIO msg)
  \/ (exists content hdr rows n row h1 rf1,
        let t := typeRecord rf in
        disk name = inl content
        /\ tokenize (withDefaults g rf) content = hdr :: rows
        /\ errorRow e = Some n
        /\ 1 <= n
        /\ rows !! (n - 1) = Some row
        /\ load (withDefaults g rf) (hdr :: take (n - 1) rows) h
           = (h1, rf1, Ok tt)
        /\ ((List.length row <> NumField t
             /\ e = ErrFieldCount n (List.length row) (NumField t))
            \/ (List.length row = NumField t
                /\ exists i f tok,
                     Fields t !! i = Some f /\ CanSet f = true
                     /\ errorCol e = Some i
                     /\ row !! i = Some tok
                     /\ ((exists fe,
                            snd (setField f tok (zeroValue f)) = Some fe
                            /\ e = ErrParseField n i fe)
                         \/ (isIndexTag f = true
                             /\ e = ErrDuplicateIndex n i
                             /\ exists v m,
                                  setField f tok (zeroValue f) = (v, None)
                                  /\ m < n - 1
                                  /\ keyEq (loadField h1 (List.length h + m) i f)
                                       v = true))))).
Proof.
  rewrite Read_unfold.
  destruct (disk name) as [content|msg].
  2:{ intros [= <- <- <-]. left. eauto. }
  destruct (tokenize (withDefaults g rf) content) as [|hdr rows] eqn:Htok.
  { rewrite load_nil. discriminate. }
  rewrite load_cons.
  destruct (rowLoop _ _ _ _ _ _) as [h0 [[recs idx]|e1|q1]] eqn:Hl;
    [discriminate| |discriminate].
  intros [= <- <- <-]. right.
  destruct (rowLoop_error _ _ _ _ _ _ _ _ Hl)
    as (k & row & h1 & recs1 & idx1 & Hk & Hpre & Hcase).
  pose proof (lookup_lt_Some _ _ _ Hk) as Hklt.
  assert (Htk : List.length (take k rows) = k) by (rewrite length_take; lia).
  (* the rows before the failing one load alone *)
  assert (Hload : exists rf1,
            load (withDefaults g rf) (hdr :: take k rows) h = (h1, rf1, Ok tt)
            /\ indexes rf1 = idx1).
  { rewrite load_cons.
    pose proof (rowLoop_recs (typeRecord (withDefaults g rf)) (take k rows) 1 h
                  (replicate (List.length rows) None)
                  (replicate (List.length (take k rows)) None)
                  (makeIndexes (Fields (typeRecord (withDefaults g rf))))) as Hs.
    rewrite !length_replicate in Hs.
    specialize (Hs ltac:(lia) ltac:(lia) ltac:(lia)).
    rewrite Hpre in Hs.
    destruct (rowLoop _ 1 (take k rows) h
                (replicate (List.length (take k rows)) None) _)
      as [h3 [[recs3 idx3]|e3|q3]]; simpl in Hs; try contradiction.
    destruct Hs as [<- <-]. eexists. split; reflexivity. }
  destruct Hload as (rf1 & Hload & Hidx1).
  exists content, hdr, rows, (1 + k), row, h1, rf1. simpl.
  rewrite Nat.sub_0_r.
  split; [reflexivity|]. split; [exact Htok|].
  destruct Hcase as [[Hlen ->]|[Hlen Hfield]].
  { split; [reflexivity|]. split; [lia|]. split; [exact Hk|].
    split; [exact Hload|]. left. auto. }
  change (typeRecord (withDefaults g rf)) with (typeRecord rf) in *.
  set (fs := Fields (typeRecord rf)) in *.
  set (p := List.length h1) in *.
  set (hh := h1 ++ [List.map zeroValue fs]) in *.
  destruct (fieldLoop_error _ _ _ _ _ _ _ _ _ _ _ Hfield)
    as (j & f & tok & h2 & idx2 & v & Hj & Hset & Htokj & Hrun & Hcase).
  simpl in Htokj, Hcase.
  (* field [j] of the fresh record is still zero when it is reached *)
  assert (Hjlt : j < List.length fs) by (eapply lookup_lt_Some; exact Hj).
  assert (Htake : List.length (take j fs) = j) by (rewrite length_take; lia).
  assert (Hzero : loadField h2 p j f = zeroValue f).
  { rewrite (loadField_ext hh h2).
    - apply loadField_fresh. exact Hj.
    - eapply fieldLoop_above; [exact Hrun|]. rewrite Htake. lia. }
  rewrite Hzero in Hcase.
  destruct Hcase as [(fe & Hc & ->)|(Htag & Hc & -> & index & x & Hslot & Hlk)].
  { split; [reflexivity|]. split; [lia|]. split; [exact Hk|].
    split; [exact Hload|]. right. split; [exact Hlen|].
    exists j, f, tok. split; [exact Hj|]. split; [exact Hset|].
    split; [reflexivity|]. split; [exact Htokj|]. left.
    exists fe. rewrite Hc. auto. }
  split; [reflexivity|]. split; [lia|]. split; [exact Hk|].
  split; [exact Hload|]. right. split; [exact Hlen|].
  exists j, f, tok. split; [exact Hj|]. split; [exact Hset|].
  split; [reflexivity|]. split; [exact Htokj|]. right.
  split; [exact Htag|]. split; [reflexivity|].
  (* the index of the field holds the values of the earlier rows *)
  pose proof (load_columns _ _ _ _ _ _ Hload) as Hcolumns. simpl in Hcolumns.
  change (typeRecord (withDefaults g rf)) with (typeRecord rf) in Hcolumns.
  fold fs in Hcolumns. rewrite Htk, Hidx1 in Hcolumns.
  destruct Hcolumns as (_ & Hlen1 & _ & _ & Hidx & Hwk).
  set (ps := seq (List.length h) k) in *.
  set (tail := replicate _ _) in Hidx.
  assert (Hps : forall q, In q ps -> q < List.length h1).
  { intros q Hq. unfold ps in Hq. apply in_seq in Hq. lia. }
  assert (Hfs : take j fs ++ f :: drop (S j) fs = fs)
    by (apply take_drop_middle; exact Hj).
  assert (Hind : indexed f = true)
    by (unfold indexed; rewrite Hset, Htag; reflexivity).
  assert (Hcols : idx1 =
            [] ++ columnsFrom hh ps 0 (take j fs)
            ++ (column h1 ps j f :: columnsFrom h1 ps (S j) (drop (S j) fs)
                ++ tail)).
  { rewrite Hidx. rewrite <- Hfs at 1.
    rewrite columnsFrom_app, Htake. simpl. rewrite Hind.
    rewrite <- app_assoc. simpl. f_equal.
    symmetry. apply columnsFrom_ext. intros q j0 Hq _. unfold hh.
    rewrite lookup_app_l by (apply Hps; exact Hq). reflexivity. }
  assert (Hwk' : Forall wellKeyed (columnsFrom hh ps 0 (take j fs))).
  { assert (E : columnsFrom hh ps 0 (take j fs)
                = columnsFrom h1 ps 0 (take j fs)).
    { apply columnsFrom_ext. intros q j0 Hq _. unfold hh.
      rewrite lookup_app_l by (apply Hps; exact Hq). reflexivity. }
    rewrite E. rewrite <- Hfs, columnsFrom_app in Hwk.
    apply Forall_app in Hwk as [Hwk _]. exact Hwk. }
  pose proof (fieldLoop_shape _ _ _ _ _ _ _ _ _ _ _ Hrun p) as Hshape.
  pose proof (fieldLoop_columns (S k) p row ps
                ltac:(intros q Hq; apply Hps in Hq; unfold p; lia)
                _ _ _ _ _ _ _ _ _ eq_refl Hcols Hwk' Hrun) as [Hidx2 _].
  simpl in Hidx2.
  assert (Hslot2 : idx2 !! List.length (List.filter indexed (take j fs))
                   = Some (column h1 ps j f)).
  { rewrite Hidx2. apply list_lookup_middle. symmetry.
    apply columnsFrom_length. }
  rewrite Hslot2 in Hslot. injection Hslot as <-.
  assert (Hkey : loadField (storeField h2 p j v) p j f = v).
  { apply (loadField_storeField _ _ _ _ _ (List.length fs)); [|exact Hjlt].
    rewrite Hshape. unfold hh, p.
    rewrite list_lookup_middle by reflexivity. simpl.
    rewrite length_map. reflexivity. }
  rewrite Hkey in Hlk.
  destruct (lookupKey_Some _ _ _ Hlk) as (a & k0 & Ha & Heq).
  rewrite column_lookup in Ha.
  destruct (ps !! a) as [q|] eqn:Hq; [|discriminate].
  pose proof (lookup_lt_Some _ _ _ Hq) as Halt.
  unfold ps in Halt, Hq. rewrite length_seq in Halt.
  rewrite lookup_seq_lt in Hq by exact Halt. injection Hq as <-.
  simpl in Ha. injection Ha as <- _.
  exists v, a. split; [exact Hc|]. split; [exact Halt|exact Heq].
Qed.

(* ===================================================================== *)
(** ** Blank tokens, and signs in unsigned fields *)
(* ===================================================================== *)

Section Blank.
Import numeral.

Lemma contains_append c (a d : string) :
  contains c (a ++ d) = contains c a || contains c d.
Proof.
  induction a as [|x r IH]; simpl; [reflexivity|].
  rewrite IH. apply orb_assoc.
Qed.

Lemma contains_rev c (s : string) : contains c (strings.rev s) = contains c s.
Proof.
  induction s as [|x r IH]; simpl; [reflexivity|].
  rewrite contains_append, IH. simpl. rewrite orb_false_r. apply orb_comm.
Qed.

Lemma rev_empty (s : string) : strings.rev s = "" -> s = "".
Proof.
  destruct s as [|x r]; [reflexivity|]. simpl.
  destruct (strings.rev r); discriminate.
Qed.

Lemma substring_sdrop k (s : string) :
  String.substring k (String.length s - k) s = sdrop k s.
Proof.
  revert s. induction k as [|k IH]; intros s.
  - rewrite Nat.sub_0_r. rewrite substring_all. destruct s; reflexivity.
  - destruct s as [|c r]; [reflexivity|]. simpl. apply IH.
Qed.

Lemma stripAny_Some ps (s s' : string) :
  strings.stripAny ps s = Some s' ->
  exists p, In p ps /\ s = (p ++ s')%string.
Proof.
  induction ps as [|p ps IH]; simpl; [discriminate|].
  destruct (String.prefix p s) eqn:Hp.
  - intros [= <-]. exists p. split; [auto|].
    rewrite substring_sdrop. apply prefix_sdrop. exact Hp.
  - intros H. destruct (IH H) as (q & Hq & E). exists q. auto.
Qed.

(** What [trimLeftBy] removes is made of the strings it may strip. *)
Lemma trimLeftBy_split ps fuel (s t : string) :
  strings.trimLeftBy ps fuel s = t ->
  exists pre, s = (pre ++ t)%string
    /\ forall c, contains c pre = true ->
         List.existsb (fun p => contains c p) ps = true.
Proof.
  revert s. induction fuel as [|fuel IH]; intros s; simpl.
  { intros <-. exists ""%string. split; [reflexivity|discriminate]. }
  destruct (strings.stripAny ps s) as [s'|] eqn:Hs.
  - intros H. destruct (IH _ H) as (pre & E & Hpre).
    destruct (stripAny_Some _ _ _ Hs) as (p & Hp & E').
    exists (p ++ pre)%string. split.
    + rewrite append_assoc, <- E. exact E'.
    + intros c Hc. rewrite contains_append in Hc.
      apply orb_true_iff in Hc as [Hc|Hc]; [|auto].
      apply existsb_exists. exists p. auto.
  - intros <-. exists ""%string. split; [reflexivity|discriminate].
Qed.

Lemma existsb_contains_rev c ps :
  List.existsb (fun p => contains c p) (List.map strings.rev ps)
  = List.existsb (fun p => contains c p) ps.
Proof.
  induction ps as [|p ps IH]; simpl; [reflexivity|].
  rewrite contains_rev, IH. reflexivity.
Qed.

(** A blank token has only bytes of white-space runes. *)
Lemma TrimSpace_blank_bytes (s : string) c :
  strings.TrimSpace s = "" -> contains c s = true -> spaceByte c = true.
Proof.
  unfold strings.TrimSpace, spaceByte. intros Ht Hc.
  apply rev_empty in Ht.
  destruct (trimLeftBy_split _ _ _ _ Ht) as (pre2 & E2 & H2).
  destruct (trimLeftBy_split strings.spaceRunes (String.length s) s _ eq_refl)
    as (pre1 & E1 & H1).
  rewrite append_nil_r in E2.
  rewrite E1, contains_append in Hc.
  apply orb_true_iff in Hc as [Hc|Hc]; [apply H1; exact Hc|].
  rewrite <- contains_rev, E2 in Hc.
  rewrite <- existsb_contains_rev. apply H2. exact Hc.
Qed.

Lemma spaceByte_ascii c :
  (strconv.byteOf c <? 128)%Z = true -> spaceByte c = asciiSpace c.
Proof.
  destruct c as [[] [] [] [] [] [] [] []]; vm_compute; intros H;
    first [reflexivity|discriminate H].
Qed.

(** X11: which tokens count as blank.  A token whose [TrimSpace] is
    empty has no byte outside the encodings of the white-space runes;
    so a token of ASCII bytes is blank exactly when each byte is a tab,
    line feed, vertical tab, form feed, carriage return or space, and
    only then does a numeric field read it as ["0"]: every other ASCII
    token reaches the parser unchanged, untrimmed. *)
Theorem blank_token_ascii (tok : string) :
  allAscii tok = true ->
  (strings.TrimSpace tok = "" <-> allSpace tok = true)
  /\ blankToZero tok = (if allSpace tok then "0"%string else tok).
Proof.
  intros Hascii.
  assert (Hiff : strings.TrimSpace tok = "" <-> allSpace tok = true).
  { split; [|apply TrimSpace_allSpace].
    intros Ht.
    assert (Hall : forall c, contains c tok = true -> spaceByte c = true)
      by (intros c; apply TrimSpace_blank_bytes; exact Ht).
    clear Ht. induction tok as [|x r IH]; [reflexivity|].
    simpl in Hascii. apply andb_true_iff in Hascii as [Hx Hr].
    simpl. apply andb_true_iff. split.
    - rewrite <- spaceByte_ascii by exact Hx.
      apply Hall. simpl. rewrite Ascii.eqb_refl. reflexivity.
    - apply IH; [exact Hr|].
      intros c Hc. apply Hall. simpl. rewrite Hc. apply orb_true_r. }
  split; [exact Hiff|].
  unfold blankToZero.
  destruct (allSpace tok) eqn:Ha.
  - rewrite (proj2 Hiff eq_refl). reflexivity.
  - destruct (String.eqb (strings.TrimSpace tok) "") eqn:E; [|reflexivity].
    apply String.eqb_eq in E. apply Hiff in E. discriminate.
Qed.

Lemma sign_char c :
  strconv.isSign c = true -> c = plusChar \/ c = minusChar.
Proof.
  destruct c as [[] [] [] [] [] [] [] []]; vm_compute; intros H;
    first [discriminate H|left; reflexivity|right; reflexivity].
Qed.

(** X12: an unsigned field takes no sign.  For a field of an unsigned
    integer kind, a token that begins with [+] or [-] does not coerce,
    whatever follows the sign: the error is the syntax error of
    [ParseUint], and the field keeps its value. *)
Theorem unsigned_field_rejects_sign (f : StructField) c (r : string)
    (cur : Value) :
  isUint (FieldKind f) = true ->
  strconv.isSign c = true ->
  setField f (String c r) cur = (cur, Some (NumErr ErrSyntax)).
Proof.
  intros Hk Hc.
  assert (Hnb : strings.TrimSpace (String c r) <> "").
  { intros Ht.
    assert (Hs : spaceByte c = true).
    { apply (TrimSpace_blank_bytes _ c Ht). simpl. rewrite Ascii.eqb_refl.
      reflexivity. }
    destruct (sign_char c Hc) as [-> | ->]; vm_compute in Hs; discriminate. }
  rewrite setField_uint by exact Hk.
  rewrite blankToZero_other by exact Hnb.
  assert (Hp : strconv.ParseUint (String c r) (Bits (FieldKind f))
               = inr ErrSyntax).
  { destruct (width_bounds _ (Bits_width (FieldKind f) (or_intror Hk)))
      as (W0 & W1 & _).
    unfold strconv.ParseUint, strconv.parseUint0.
    destruct (sign_char c Hc) as [-> | ->];
      unfold strconv.basePrefix; cbn [strconv.byteOf];
      (change (strconv.byteOf plusChar =? 48)%Z with false
       || change (strconv.byteOf minusChar =? 48)%Z with false);
      cbv iota; rewrite W0, W1; reflexivity. }
  rewrite Hp. reflexivity.
Qed.

End Blank.

(* ===================================================================== *)
(** ** An unset comment marker *)
(* ===================================================================== *)

Lemma readLines_no_marker comma chunks : readLines comma "" chunks = [].
Proof.
  induction chunks as [|c cs IH]; simpl; [reflexivity|].
  destruct (String.eqb c ""); [exact IH|].
  unfold strings.HasPrefix. rewrite prefix_empty. exact IH.
Qed.

(** X13: the comment marker must be set.  Every string starts with the
    empty string, so with an empty marker every chunk counts as a
    comment: [ReadData] called on a store whose marker is unset, as it
    is after [New], returns no row for any file it can read, and [Read],
    when the package's marker is empty as well, panics on every such
    file and leaves the records and indexes of the receiver alone. *)
Theorem unset_comment_marker_drops_all g disk name content (h : Heap) rf :
  Comment rf = "" ->
  disk name = inl content ->
  ReadData rf disk name = Ok []
  /\ (pkgComment g = "" ->
      Read g disk name h rf
      = (h, withDefaults g rf, Panic MakeSliceLenOutOfRange)).
Proof.
  intros Hc Hd. split.
  - unfold ReadData, tokenize. rewrite Hd, Hc, readLines_no_marker. reflexivity.
  - intros Hg. rewrite Read_unfold, Hd.
    unfold tokenize. simpl. rewrite Hc. simpl. rewrite Hg.
    rewrite readLines_no_marker. apply load_nil.
Qed.
End Proofs.

(* ===================================================================== *)
(** ** The theorems on the examples *)
(* ===================================================================== *)

#[local] Existing Instance exampleLib.

(** [struct { Key []int "index" }]: an indexed slice is refused. *)
Lemma New_rejects_indexed_struct_slice_map_witness :
  exists e, New (Some (mkType Struct [mkField "Key" "" Slice "index"]))
            = Err e /\ classify e = SchemaError.
Proof.
  apply (New_rejects_indexed_struct_slice_map
           (mkType Struct [mkField "Key" "" Slice "index"])
           (mkField "Key" "" Slice "index")).
  - simpl. left. reflexivity.
  - reflexivity.
  - right. left. reflexivity.
Defined.

(** C7 as stated fails for arrays: [struct { Key [2]int "index" }] is
    accepted. *)
Lemma New_accepts_indexed_array :
  New (Some (mkType Struct [mkField "Key" "" Array "index"]))
  = Ok (newStore (mkType Struct [mkField "Key" "" Array "index"])).
Proof. reflexivity. Qed.

(** The person file gives two records; reading the file with the
    duplicate age into that store fails and leaves the two records. *)
Lemma Read_error_keeps_store_witness :
  records (snd (fst (readFile dupFile personHeap (loaded personType personFile))))
  = records (loaded personType personFile).
Proof.
  edestruct (Read_error_keeps_store initialPackage (oneFile dupFile)
               "data.txt" personHeap (loaded personType personFile))
    as (_ & Hrec & _).
  - vm_compute. reflexivity.
  - exact Hrec.
Defined.

(** The person file has five chunks, of which three are kept: the
    header and two data rows, so the store holds two records. *)
Lemma NumRecord_is_rows_less_header_witness :
  List.length
    (List.filter (fun chunk => negb (dropped "#" chunk))
       (strings.Split personFile eol)) = 3
  /\ NumRecord (loaded personType personFile) = 2.
Proof.
  assert (Hread : Read initialPackage (oneFile personFile) "data.txt" []
                    (newStore personType)
                  = (personHeap, loaded personType personFile, Ok tt))
    by (vm_compute; reflexivity).
  destruct (NumRecord_is_rows_less_header _ _ _ _ _ _ _ Hread)
    as (content & hdr & rows & Hd & _ & _ & _ & _ & _ & Hn).
  injection Hd as <-. split; [vm_compute; reflexivity|].
  rewrite Hn. vm_compute. reflexivity.
Defined.

(** The spec's example: looking up age 30 gives the record of alice,
    the first record. *)
Lemma index_finds_record_witness :
  Index_ (loaded personType personFile) (VInt 30) = Ok (Some 0).
Proof.
  assert (Hread : Read initialPackage (oneFile personFile) "data.txt" []
                    (newStore personType)
                  = (personHeap, loaded personType personFile, Ok tt))
    by (vm_compute; reflexivity).
  destruct (index_finds_record _ _ _ _ _ _ _ Hread 1 ageField
              eq_refl eq_refl eq_refl) as (_ & index & _ & Hrec & _).
  - intros [|[|j]] fj Hj; [|lia|lia].
    intros [= <-]. discriminate.
  - destruct (Hrec 0) as (_ & _ & Hkey); [vm_compute; lia|].
    destruct (Hkey eq_refl) as [_ Hzero].
    exact (Hzero eq_refl).
Defined.

(** The spec's variant with two rows of age 30. *)
Lemma duplicate_key_fails_witness :
  snd (readFile dupFile [] (newStore personType)) = Err (ErrDuplicateIndex 2 1).
Proof.
  unfold readFile.
  erewrite (proj2 (duplicate_key_fails initialPackage (oneFile dupFile)
                    "data.txt" [] (newStore personType))
              dupFile ["Name"; "Age"] [["alice"; "30"]] ["carol"; "30"] []
              1 ageField "30" (VInt 30) _ _ _ _ 0).
  - reflexivity.
  - reflexivity.
  - vm_compute. reflexivity.
  - reflexivity.
  - reflexivity.
  - reflexivity.
  - reflexivity.
  - reflexivity.
  - vm_compute. reflexivity.
  - vm_compute. reflexivity.
  - vm_compute. reflexivity.
  - reflexivity.
  - simpl. lia.
  - reflexivity.
Defined.

(** The spec's variant with the short row [dave]. *)
Lemma wrong_field_count_fails_witness :
  snd (readFile shortFile [] (newStore personType)) = Err (ErrFieldCount 2 1 2).
Proof.
  assert (Htok : tokenize (withDefaults initialPackage (newStore personType))
                   shortFile
                 = ["Name"; "Age"] :: [["alice"; "30"]] ++ ["dave"] :: [])
    by (vm_compute; reflexivity).
  assert (Hbad : List.length ["dave"] <> NumField (typeRecord (newStore personType)))
    by (vm_compute; discriminate).
  unfold readFile.
  erewrite (proj2 (wrong_field_count_fails initialPackage (oneFile shortFile)
                     "data.txt" shortFile [] (newStore personType)
                     ["Name"; "Age"] [["alice"; "30"]] ["dave"] []
                     eq_refl Htok Hbad)).
  - reflexivity.
  - vm_compute. reflexivity.
Defined.

(** A token of two spaces in an [int8] field gives 0. *)
Lemma numeric_field_coercion_witness :
  setField (mkField "N" "" Int8 "") "  " (VInt 7) = (VInt 0, None).
Proof.
  destruct (numeric_field_coercion (mkField "N" "" Int8 "") "  " (VInt 7)
              eq_refl) as [Hblank _].
  destruct (Hblank eq_refl) as [Hint _].
  exact (Hint eq_refl).
Defined.

(** Position 5 of a store of two records. *)
Lemma Record_bounds_checked_witness :
  Record_ (loaded personType personFile) 5 = Panic (IndexOutOfRange 5 2).
Proof.
  apply (proj1 (proj2 (Record_bounds_checked (loaded personType personFile) 5))).
  right. vm_compute. discriminate.
Defined.

(** A file that holds one comment line only. *)
Lemma Read_panics_without_rows_witness :
  readFile commentFile [] (newStore personType)
  = ([], withDefaults initialPackage (newStore personType),
     Panic MakeSliceLenOutOfRange).
Proof.
  apply (proj2 (Read_panics_without_rows initialPackage (oneFile commentFile)
                  "data.txt" commentFile [] (newStore personType)
                  eq_refl eq_refl)).
Defined.

(** C3 as stated fails for an indexed field that cannot be set: the
    file loads, the record keeps the zero value in the field, and the
    field's index stays empty, so neither that value nor the token's
    value 5 is found. *)
Lemma hidden_index_field_not_found :
  New (Some hiddenKeyType) = Ok (newStore hiddenKeyType)
  /\ readFile hiddenKeyFile [] (newStore hiddenKeyType)
     = ([[VInt 0]; [VInt 0]], loaded hiddenKeyType hiddenKeyFile, Ok tt)
  /\ Indexes (loaded hiddenKeyType hiddenKeyFile) 0 = Ok (Some [])
  /\ Index_ (loaded hiddenKeyType hiddenKeyFile) (VInt 0) = Ok None
  /\ Index_ (loaded hiddenKeyType hiddenKeyFile) (VInt 5) = Ok None.
Proof. vm_compute. repeat split; reflexivity. Qed.

(** C4 as stated fails for an indexed field that cannot be set: two
    rows with the same token 5 load without error. *)
Lemma hidden_index_field_duplicate_loads :
  tokenize (withDefaults initialPackage (newStore hiddenKeyType)) hiddenKeyFile
  = [["id"]; ["5"]; ["5"]]
  /\ snd (readFile hiddenKeyFile [] (newStore hiddenKeyType)) = Ok tt
  /\ NumRecord (loaded hiddenKeyType hiddenKeyFile) = 2.
Proof. vm_compute. repeat split; reflexivity. Qed.

(** C6 as stated fails for a numeric field that cannot be set: the
    token [abc] is no number, yet the file loads and the field keeps 0. *)
Lemma hidden_numeric_field_not_parsed :
  New (Some hiddenNumType) = Ok (newStore hiddenNumType)
  /\ strconv.ParseInt "abc" 8 = inr ErrSyntax
  /\ tokenize (withDefaults initialPackage (newStore hiddenNumType)) hiddenNumFile
     = [["n"]; ["abc"]]
  /\ readFile hiddenNumFile [] (newStore hiddenNumType)
     = ([[VInt 0]], loaded hiddenNumType hiddenNumFile, Ok tt).
Proof. vm_compute. repeat split; reflexivity. Qed.

(** C9 on the code: [Indexes] tests [i >= len(rf.indexes)] only, so a
    negative slot reaches [rf.indexes[i]] and panics, where a slot past
    the end gives the nil map.  And a tagged field that cannot be set
    keeps its map but does not advance the slot counter of the row loop:
    with [id] unexported before [Name], slot 0 holds the index of
    [Name] and slot 1, the slot of [Name], stays empty. *)
Theorem Indexes_slot_defects :
  Indexes (loaded personType personFile) (-1)
  = Panic (IndexOutOfRange (-1) 1)
  /\ Indexes (loaded personType personFile) 1 = Ok None
  /\ Indexes (loaded personType personFile) 0
     = Ok (Some [(VInt 30, Some 0); (VInt 25, Some 1)])
  /\ slotOf (Fields shiftedType) 1 = 1
  /\ Indexes (loaded shiftedType shiftedFile) 0
     = Ok (Some [(VString "bob", Some 0)])
  /\ Indexes (loaded shiftedType shiftedFile) 1 = Ok (Some []).
Proof. vm_compute. repeat split; reflexivity. Qed.

(* ===================================================================== *)
(** ** The further theorems on the examples *)
(* ===================================================================== *)

(** The person type is accepted. *)
Lemma New_accepts_iff_witness :
  New (Some personType) = Ok (newStore personType).
Proof.
  apply (proj2 (New_accepts_iff personType (newStore personType))).
  repeat split.
Defined.

(** [struct { Name string; P *int; Key []int "index" }]: the pointer
    field is the first that is not accepted. *)
Lemma New_first_error_witness :
  New (Some (mkType Struct [mkField "Name" "" String_ "";
                            mkField "P" "" Pointer "";
                            mkField "Key" "" Slice "index"]))
  = Err (ErrInvalidType "P" Pointer).
Proof.
  apply (proj1 (proj2 (proj2
           (New_first_error
              (mkType Struct [mkField "Name" "" String_ "";
                              mkField "P" "" Pointer "";
                              mkField "Key" "" Slice "index"])
              [mkField "Name" "" String_ ""]
              [mkField "Key" "" Slice "index"]
              (mkField "P" "" Pointer "")))
         eq_refl eq_refl eq_refl) eq_refl).
Defined.

(** A store that only saw the file with the duplicate is empty. *)
Lemma New_store_is_empty_witness :
  Index_ (snd (fst (readFile dupFile [] (newStore personType)))) (VInt 30)
  = Ok None.
Proof.
  refine (proj2 (proj2 (proj2 (proj2
            (New_store_is_empty personType (newStore personType) eq_refl
               (snd (fst (readFile dupFile [] (newStore personType)))) _))))
            (VInt 30)).
  right. exists initialPackage, (oneFile dupFile), "data.txt"%string, [].
  eexists. eexists. vm_compute. reflexivity.
Defined.

(** After a first [Read] with the package as initialised the field
    delimiter is [~]; a second [Read] under a package whose delimiter is
    [;] still uses [~]. *)
Lemma Read_configuration_witness :
  Comma (snd (fst (Read (mkPackage ";" "#" eol) (oneFile personFile)
                     "data.txt" personHeap (loaded personType personFile))))
  = "~"%string.
Proof.
  assert (H1 : Read initialPackage (oneFile personFile) "data.txt" []
                 (newStore personType)
               = (personHeap, loaded personType personFile, Ok tt))
    by (vm_compute; reflexivity).
  destruct (Read_configuration _ _ _ _ _ _ _ _ H1) as (_ & _ & _ & _ & Hnext).
  destruct (Read (mkPackage ";" "#" eol) (oneFile personFile) "data.txt"
              personHeap (loaded personType personFile))
    as [[h2 rf2] r2] eqn:H2.
  destruct (Hnext _ _ _ _ _ _ _ H2) as (Hc & _).
  simpl. rewrite Hc; [reflexivity|]. vm_compute. discriminate.
Defined.

(** The file that holds one comment only, read into the store [New]
    made for the person type: the panic is the one of [make]. *)
Lemma Read_panics_only_witness :
  New (Some personType) = Ok (newStore personType)
  /\ exists content,
    oneFile commentFile "data.txt" = inl content
    /\ ((MakeSliceLenOutOfRange = MakeSliceLenOutOfRange
         /\ tokenize (withDefaults initialPackage (newStore personType)) content
            = [])
        \/ (MakeSliceLenOutOfRange = UnhashableKey
            /\ tokenize (withDefaults initialPackage (newStore personType)) content
               <> []
            /\ exists f, In f (Fields (typeRecord (newStore personType)))
                 /\ CanSet f = true /\ isIndexTag f = true
                 /\ isPrimitive (FieldKind f) = false
                 /\ FieldKind f = Array)).
Proof.
  split; [reflexivity|].
  apply (Read_panics_only initialPackage (oneFile commentFile) "data.txt" []
           (newStore personType) (newStore personType) []
           (withDefaults initialPackage (newStore personType))
           MakeSliceLenOutOfRange).
  - reflexivity.
  - vm_compute. reflexivity.
Defined.

(** Reading the person file again into the loaded store: the two new
    records are at addresses 2 and 3. *)
Lemma Read_success_replaces_witness :
  records (snd (fst (readFile personFile personHeap
                       (loaded personType personFile))))
  = [Some 2; Some 3].
Proof.
  destruct (readFile personFile personHeap (loaded personType personFile))
    as [[h2 rf2] r2] eqn:H2.
  assert (Hr : r2 = Ok tt /\ NumRecord rf2 = 2).
  { vm_compute in H2. injection H2 as _ <- <-. split; reflexivity. }
  destruct Hr as [-> Hn].
  destruct (Read_success_replaces _ _ _ _ _ _ _ H2) as (_ & _ & Hrecs & _).
  simpl. rewrite Hrecs, Hn. reflexivity.
Defined.

Lemma loaded_index_shape_witness :
  List.length (indexes (loaded personType personFile)) = 1.
Proof.
  apply (proj1 (loaded_index_shape initialPackage (oneFile personFile)
                  "data.txt" [] (newStore personType) personHeap
                  (loaded personType personFile) ltac:(vm_compute; reflexivity))).
Defined.

(** The name of the second record of the person file is the token
    [bob]. *)
Lemma loaded_record_fields_witness :
  loadField personHeap 1 0 (mkField "Name" "" String_ "") = VString "bob".
Proof.
  assert (H1 : Read initialPackage (oneFile personFile) "data.txt" []
                 (newStore personType)
               = (personHeap, loaded personType personFile, Ok tt))
    by (vm_compute; reflexivity).
  destruct (loaded_record_fields _ _ _ _ _ _ _ H1)
    as (content & hdr & rows & Hd & Htok & _ & Hfields).
  injection Hd as <-.
  assert (Hrows : rows = [["alice"; "30"]; ["bob"; "25"]]%string).
  { vm_compute in Htok. injection Htok as _ <-. reflexivity. }
  subst rows.
  destruct (Hfields 1 ["bob"; "25"]%string 0 (mkField "Name" "" String_ "")
              eq_refl eq_refl) as (_ & _ & Hset).
  destruct (Hset eq_refl) as (tok & Htk & Hstr & _).
  injection Htk as <-. exact (Hstr eq_refl).
Defined.

(** The file with the duplicate: the error names row 2 and column 1,
    and the value of that token equals the age of an earlier record. *)
Lemma Read_error_location_witness :
  (exists msg, oneFile dupFile "data.txt" = inr msg
               /\ ErrDuplicateIndex 2 1 = ErrIO msg)
  \/ (exists content hdr rows n row h1 rf1,
        let t := typeRecord (newStore personType) in
        oneFile dupFile "data.txt" = inl content
        /\ tokenize (withDefaults initialPackage (newStore personType)) content
           = hdr :: rows
        /\ errorRow (ErrDuplicateIndex 2 1) = Some n
        /\ 1 <= n
        /\ rows !! (n - 1) = Some row
        /\ load (withDefaults initialPackage (newStore personType))
             (hdr :: take (n - 1) rows) []
           = (h1, rf1, Ok tt)
        /\ ((List.length row <> NumField t
             /\ ErrDuplicateIndex 2 1
                = ErrFieldCount n (List.length row) (NumField t))
            \/ (List.length row = NumField t
                /\ exists i f tok,
                     Fields t !! i = Some f /\ CanSet f = true
                     /\ errorCol (ErrDuplicateIndex 2 1) = Some i
                     /\ row !! i = Some tok
                     /\ ((exists fe,
                            snd (setField f tok (zeroValue f)) = Some fe
                            /\ ErrDuplicateIndex 2 1 = ErrParseField n i fe)
                         \/ (isIndexTag f = true
                             /\ ErrDuplicateIndex 2 1 = ErrDuplicateIndex n i
                             /\ exists v m,
                                  setField f tok (zeroValue f) = (v, None)
                                  /\ m < n - 1
                                  /\ keyEq (loadField h1 m i f) v = true))))).
Proof.
  eapply (Read_error_location initialPackage (oneFile dupFile) "data.txt" []
            (newStore personType)).
  vm_compute. reflexivity.
Defined.

(** Two spaces are blank; [ 7] is not. *)
Lemma blank_token_ascii_witness :
  blankToZero "  " = "0"%string /\ blankToZero " 7" = " 7"%string.
Proof.
  split.
  - exact (proj2 (blank_token_ascii "  " eq_refl)).
  - exact (proj2 (blank_token_ascii " 7" eq_refl)).
Defined.

(** [-1] in a [uint8] field. *)
Lemma unsigned_field_rejects_sign_witness :
  setField (mkField "N" "" Uint8 "") "-1" (VUint 0)
  = (VUint 0, Some (NumErr ErrSyntax)).
Proof.
  exact (unsigned_field_rejects_sign (mkField "N" "" Uint8 "") numeral.minusChar "1"
           (VUint 0) eq_refl eq_refl).
Defined.

(** [ReadData] on the store as [New] returns it. *)
Lemma unset_comment_marker_drops_all_witness :
  ReadData (newStore personType) (oneFile personFile) "data.txt" = Ok [].
Proof.
  exact (proj1 (unset_comment_marker_drops_all initialPackage
                  (oneFile personFile) "data.txt" personFile []
                  (newStore personType) eq_refl eq_refl)).
Defined.

(** The person file with the separators of the package: joining its
    chunks gives the file back. *)
Lemma tokenizer_lossless_witness :
  Join (strings.Split personFile eol) eol = personFile.
Proof.
  apply (proj1 (tokenizer_lossless
                  (withDefaults initialPackage (newStore personType))
                  personFile
                  ltac:(vm_compute; discriminate)
                  ltac:(vm_compute; discriminate))).
Defined.
